(** * TinyExprX: compilation and evaluation of complex-valued expressions

    A shallow embedding of [tinyexprx.c] / [tinyexprx.h]: the tokenizer
    ([tx_next_token]), the symbol lookup ([find_lookup], [find_builtin]),
    the recursive-descent grammar ([base], [power], [factor], [term],
    [expr], [list]), the evaluator ([tx_eval]), the constant folder
    ([optimize]) and the entry points ([tx_compile], [tx_interp]).

    Conventions.
    - A [double] is a primitive binary64 float; [d_cx] ([double _Complex])
      is a pair (real part, imaginary part).
    - C strings are [string]s; reading past the end yields the terminating
      NUL, and a NUL inside a string ends it, as in C.
    - [int] values that only carry flags and small counters are [Z].
    - Pointers are values of [ptr]; caller-owned storage is a map from
      addresses to complex numbers.
    - [malloc] may fail: the allocator is a list of outcomes consumed one
      per call. *)

From Stdlib Require Import ZArith NArith List Ascii String Bool Lia Floats.
Import ListNotations.

Local Open Scope Z_scope.

(** ** Complex doubles *)

Definition d_cx : Type := (float * float)%type.

Definition creal (a : d_cx) : float := fst a.
Definition cimag (a : d_cx) : float := snd a.

(** Conversion of a real value to [double _Complex] (C11 6.3.1.7): the
    real part is the value, the imaginary part is a positive zero. *)
Definition cx_of_real (r : float) : d_cx := (r, 0%float).

(** [NAN] is a quiet NaN of type [float]; where the source writes
    [return NAN] or [ret->value = NAN] in a [d_cx] position, the
    conversion above applies. *)
Definition NAN : float := nan.
Definition INFINITY : float := infinity.

(** The imaginary unit, the macro [I] of [<complex.h>] ([_Complex_I]). *)
Definition Complex_I : d_cx := (0%float, 1%float).

(** [value * I] for a [double] [value] (base, case TOK_NUMBER_I). *)
Definition mul_real_I (v : float) : d_cx := ((v * 0)%float, (v * 1)%float).

Definition cx_add (a b : d_cx) : d_cx :=
  ((creal a + creal b)%float, (cimag a + cimag b)%float).
Definition cx_sub (a b : d_cx) : d_cx :=
  ((creal a - creal b)%float, (cimag a - cimag b)%float).
Definition cx_neg (a : d_cx) : d_cx := ((- creal a)%float, (- cimag a)%float).
Definition cx_conj (a : d_cx) : d_cx := (creal a, (- cimag a)%float).

Definition cx_is_nan (a : d_cx) : bool * bool :=
  (PrimFloat.is_nan (creal a), PrimFloat.is_nan (cimag a)).

(** ** Characters and C strings *)

Definition NUL : ascii := Ascii.zero.

(** [s[0]] for a NUL-terminated string. *)
Definition peek (s : string) : ascii :=
  match s with
  | EmptyString => NUL
  | String c _ => c
  end.

(** [s + 1]. *)
Definition tl (s : string) : string :=
  match s with
  | EmptyString => EmptyString
  | String _ r => r
  end.

(** [s[n]], NUL at and past the terminator. *)
Fixpoint char_at (s : string) (n : nat) : ascii :=
  match s, n with
  | EmptyString, _ => NUL
  | String c _, O => if Ascii.eqb c NUL then NUL else c
  | String c r, S n' => if Ascii.eqb c NUL then NUL else char_at r n'
  end.

Definition code (c : ascii) : Z := Z.of_N (N_of_ascii c).

Definition in_range (lo hi c : ascii) : bool :=
  (code lo <=? code c) && (code c <=? code hi).

(** [isdigit] and [isalpha] in the "C" locale. *)
Definition isdigit (c : ascii) : bool := in_range "0" "9" c.
Definition isalpha (c : ascii) : bool := in_range "A" "Z" c || in_range "a" "z" c.

(** [strncmp(a, b, n)]: bytes compared as [unsigned char], stopping at the
    first difference, at a NUL, or after [n] bytes. *)
Fixpoint strncmp (a b : string) (n : nat) : Z :=
  match n with
  | O => 0
  | S n' =>
      let ca := peek a in
      let cb := peek b in
      if negb (code ca =? code cb) then code ca - code cb
      else if Ascii.eqb ca NUL then 0
      else strncmp (tl a) (tl b) n'
  end.

(** ** The numeric literal parser of the C library *)

Module Strtod.

Definition digit_val (c : ascii) : Z := code c - code "0".

Definition isxdigit (c : ascii) : bool :=
  isdigit c || in_range "a" "f" c || in_range "A" "F" c.

Definition xdigit_val (c : ascii) : Z :=
  if isdigit c then digit_val c
  else if in_range "a" "f" c then code c - code "a" + 10
  else code c - code "A" + 10.

(** A maximal run of digits in base [b], accumulated onto [acc];
    returns the value, the number of digits and the rest. *)
Fixpoint digits (b : Z) (isd : ascii -> bool) (val : ascii -> Z)
         (s : string) (acc : Z) (cnt : nat) : Z * nat * string :=
  match s with
  | EmptyString => (acc, cnt, s)
  | String c r =>
      if isd c then digits b isd val r (b * acc + val c) (S cnt)
      else (acc, cnt, s)
  end.

(** An optional exponent part: the marker, an optional sign and at least
    one decimal digit; nothing is consumed when no digit follows. *)
Definition exponent (marker_lo marker_up : ascii) (s : string) : Z * string :=
  let c := peek s in
  if Ascii.eqb c marker_lo || Ascii.eqb c marker_up then
    let s1 := tl s in
    let sg := peek s1 in
    let '(neg, s2) :=
      if Ascii.eqb sg "-" then (true, tl s1)
      else if Ascii.eqb sg "+" then (false, tl s1)
      else (false, s1) in
    let '(e, n, s3) := digits 10 isdigit digit_val s2 0 O in
    match n with
    | O => (0, s)
    | S _ => (if neg then - e else e, s3)
    end
  else (0, s).

(** A mantissa: digits, an optional point, digits.  Returns the integer
    read without the point, the number of digits before and after the
    point, and the rest. *)
Definition mantissa (b : Z) (isd : ascii -> bool) (val : ascii -> Z)
           (s : string) : Z * nat * nat * string :=
  let '(m1, n1, s1) := digits b isd val s 0 O in
  if Ascii.eqb (peek s1) "." then
    let '(m2, n2, s2) := digits b isd val (tl s1) m1 O in
    (m2, n1, n2, s2)
  else (m1, n1, O, s1).

(** [m * 10^e], rounded to the nearest double, ties to even. *)
Definition of_decimal (m e : Z) : float :=
  match m with
  | Z0 => 0%float
  | _ =>
      if 0 <=? e then
        SF2Prim (binary_normalize prec emax (m * 10 ^ e) 0 false)
      else
        let '(q, e', l) := SFdiv_core_binary prec emax m 0 (10 ^ (- e)) 0 in
        SF2Prim (binary_round_aux prec emax false q e' l)
  end.

(** [m * 2^e], rounded to the nearest double, ties to even. *)
Definition of_binary (m e : Z) : float :=
  SF2Prim (binary_normalize prec emax m e false).

Definition hex_prefix (s : string) : bool :=
  Ascii.eqb (peek s) "0" &&
  (Ascii.eqb (peek (tl s)) "x" || Ascii.eqb (peek (tl s)) "X").

Definition decimal (s : string) : float * string :=
  let '(m, n1, n2, s1) := mantissa 10 isdigit digit_val s in
  match (n1 + n2)%nat with
  | O => (0%float, s)
  | S _ =>
      let '(e, s2) := exponent "e" "E" s1 in
      (of_decimal m (e - Z.of_nat n2), s2)
  end.

Definition hexadecimal (s : string) : option (float * string) :=
  if hex_prefix s then
    let '(m, n1, n2, s1) := mantissa 16 isxdigit xdigit_val (tl (tl s)) in
    match (n1 + n2)%nat with
    | O => None
    | S _ =>
        let '(e, s2) := exponent "p" "P" s1 in
        Some (of_binary m (e - 4 * Z.of_nat n2), s2)
    end
  else None.

(** Modelled from the spec: [strtod], the "standard floating-point
    literal parser" of the C library, which is not part of the
    repository.  The tokenizer only calls it on a string that starts with
    a digit or a point, so leading white space, signs and the forms
    [inf] / [nan] are not reachable and are left out.  The result is the
    value and the position where parsing stopped ([endptr]); when no
    conversion can be made the value is zero and nothing is consumed. *)
Definition strtod (s : string) : float * string :=
  match hexadecimal s with
  | Some r => r
  | None => decimal s
  end.

End Strtod.

Definition strtod := Strtod.strtod.

(** ** Pointers, native functions and caller-owned storage *)

(** The unary functions of [<complex.h>] that the builtin table points to
    directly. *)
Inductive libm1 : Set :=
| l_cacos | l_cacosh | l_casin | l_casinh | l_catan | l_catanh
| l_ccos | l_ccosh | l_cexp | l_clog | l_csin | l_csinh | l_csqrt
| l_ctan | l_ctanh.

(** Addresses of functions: the static helpers of [tinyexprx.c], the
    library functions it references, and native code supplied by the
    caller (identified by a number). *)
Inductive fnptr : Set :=
| f_i | f_pi | f_e | f_infinity
| f__cabs | f__carg | f__cimag | f__creal
| f_conj | f_libm (g : libm1) | f_cpow
| f_add | f_sub | f_mul | f_divide | f_negate | f_comma
| f_extern (id : N).

(** A [void *]: null, the address of a [d_cx] object, the address of a
    function, or an opaque context object of the caller. *)
Inductive ptr : Set :=
| P_null
| P_data (a : N)
| P_fun (f : fnptr)
| P_ctx (c : N).

Definition libm1_eq_dec (a b : libm1) : {a = b} + {a <> b}.
Proof. decide equality. Defined.

Definition fnptr_eq_dec (a b : fnptr) : {a = b} + {a <> b}.
Proof. decide equality; [apply libm1_eq_dec | apply N.eq_dec]. Defined.

Definition ptr_eq_dec (a b : ptr) : {a = b} + {a <> b}.
Proof. decide equality; [apply N.eq_dec | apply fnptr_eq_dec | apply N.eq_dec]. Defined.

Definition ptr_eqb (a b : ptr) : bool := if ptr_eq_dec a b then true else false.

(** Caller-owned storage of bound variables, by address. *)
Definition memory : Type := N -> d_cx.

Definition store (m : memory) (a : N) (v : d_cx) : memory :=
  fun b => if N.eqb b a then v else m b.

(** What lies outside the repository: the complex functions of the C
    library, the compiler's complex multiplication and division, and the
    caller's native functions.  Native code may read the caller's storage
    but is taken to be a function of its context, its arguments and that
    storage. *)
Record runtime : Type := mk_runtime {
  libm_unary : libm1 -> d_cx -> d_cx;
  cabs : d_cx -> float;
  carg : d_cx -> float;
  cpow : d_cx -> d_cx -> d_cx;
  cx_mul : d_cx -> d_cx -> d_cx;
  cx_div : d_cx -> d_cx -> d_cx;
  extern : N -> option ptr -> list d_cx -> memory -> d_cx
}.

(** ** [tinyexprx.h]: node kinds and bindings *)

Definition TX_VARIABLE : Z := 0.
Definition TX_CONSTANT : Z := 1.
Definition TX_FUNCTION0 : Z := 8.
Definition TX_FUNCTION1 : Z := 9.
Definition TX_FUNCTION2 : Z := 10.
Definition TX_FUNCTION3 : Z := 11.
Definition TX_FUNCTION4 : Z := 12.
Definition TX_FUNCTION5 : Z := 13.
Definition TX_FUNCTION6 : Z := 14.
Definition TX_CLOSURE0 : Z := 16.
Definition TX_CLOSURE1 : Z := 17.
Definition TX_CLOSURE2 : Z := 18.
Definition TX_CLOSURE3 : Z := 19.
Definition TX_CLOSURE4 : Z := 20.
Definition TX_CLOSURE5 : Z := 21.
Definition TX_CLOSURE6 : Z := 22.
Definition TX_FLAG_PURE : Z := 32.

Definition TOK_NULL : Z := TX_CLOSURE6 + 1.
Definition TOK_ERROR : Z := 24.
Definition TOK_END : Z := 25.
Definition TOK_SEP : Z := 26.
Definition TOK_OPEN : Z := 27.
Definition TOK_CLOSE : Z := 28.
Definition TOK_NUMBER_R : Z := 29.
Definition TOK_NUMBER_I : Z := 30.
Definition TOK_VARIABLE : Z := 31.
Definition TOK_INFIX : Z := 32.

Definition TYPE_MASK (t : Z) : Z := Z.land t 31.
Definition IS_PURE (t : Z) : bool := negb (Z.land t TX_FLAG_PURE =? 0).
Definition IS_FUNCTION (t : Z) : bool := negb (Z.land t TX_FUNCTION0 =? 0).
Definition IS_CLOSURE (t : Z) : bool := negb (Z.land t TX_CLOSURE0 =? 0).
Definition ARITY (t : Z) : Z :=
  if negb (Z.land t (Z.lor TX_FUNCTION0 TX_CLOSURE0) =? 0) then Z.land t 7 else 0.

(** [struct tx_variable]. *)
Record tx_variable : Type := mk_var {
  v_name : string;
  v_address : ptr;
  v_type : Z;
  v_context : ptr
}.

(** [struct tx_expr *]: a null pointer, or a node with its kind, its
    union, its children [parameters[0 .. arity-1]] and, for a closure, the
    context kept in the slot [parameters[arity]]. *)
Inductive expr_union : Type :=
| eu_value (v : d_cx)
| eu_bound (p : ptr)
| eu_function (p : ptr).

#[local] Set Warnings "-register-all".
Inductive tx_expr : Type :=
| NULL
| Node (type : Z) (u : expr_union) (parameters : list tx_expr) (context : ptr).

Definition e_type (n : tx_expr) : Z :=
  match n with NULL => 0 | Node t _ _ _ => t end.

Definition is_null (n : tx_expr) : bool :=
  match n with NULL => true | Node _ _ _ _ => false end.

(** ** The builtin table *)

Definition builtin (nm : string) (f : fnptr) (t : Z) : tx_variable :=
  mk_var nm (P_fun f) (Z.lor t TX_FLAG_PURE) P_null.

(** [functions[]], without its all-zero sentinel entry. *)
Definition functions : list tx_variable :=
  [ builtin "I" f_i TX_FUNCTION0;
    builtin "abs" f__cabs TX_FUNCTION1;
    builtin "acos" (f_libm l_cacos) TX_FUNCTION1;
    builtin "acosh" (f_libm l_cacosh) TX_FUNCTION1;
    builtin "arg" f__carg TX_FUNCTION1;
    builtin "asin" (f_libm l_casin) TX_FUNCTION1;
    builtin "asinh" (f_libm l_casinh) TX_FUNCTION1;
    builtin "atan" (f_libm l_catan) TX_FUNCTION1;
    builtin "atanh" (f_libm l_catanh) TX_FUNCTION1;
    builtin "conj" f_conj TX_FUNCTION1;
    builtin "cos" (f_libm l_ccos) TX_FUNCTION1;
    builtin "cosh" (f_libm l_ccosh) TX_FUNCTION1;
    builtin "e" f_e TX_FUNCTION0;
    builtin "exp" (f_libm l_cexp) TX_FUNCTION1;
    builtin "imag" f__cimag TX_FUNCTION1;
    builtin "inf" f_infinity TX_FUNCTION0;
    builtin "log" (f_libm l_clog) TX_FUNCTION1;
    builtin "pi" f_pi TX_FUNCTION0;
    builtin "pow" f_cpow TX_FUNCTION2;
    builtin "real" f__creal TX_FUNCTION1;
    builtin "sin" (f_libm l_csin) TX_FUNCTION1;
    builtin "sinh" (f_libm l_csinh) TX_FUNCTION1;
    builtin "sqrt" (f_libm l_csqrt) TX_FUNCTION1;
    builtin "tan" (f_libm l_ctan) TX_FUNCTION1;
    builtin "tanh" (f_libm l_ctanh) TX_FUNCTION1 ]%string.

Definition sentinel : tx_variable := mk_var EmptyString P_null 0 P_null.

(** The [while (imax >= imin)] loop of [find_builtin]; [name] is the text
    at the start of the lexeme and [len] its length.  The interval shrinks
    at every step, so [fuel] only has to exceed its size. *)
Fixpoint find_builtin_loop (fuel : nat) (name : string) (len : nat)
         (imin imax : Z) : option tx_variable :=
  match fuel with
  | O => None
  | S fuel' =>
      if imax >=? imin then
        let i := imin + (imax - imin) / 2 in
        let fi := nth (Z.to_nat i) functions sentinel in
        let c := strncmp name (v_name fi) len in
        let c := if c =? 0 then code NUL - code (char_at (v_name fi) len) else c in
        if c =? 0 then Some fi
        else if c >? 0 then find_builtin_loop fuel' name len (i + 1) imax
        else find_builtin_loop fuel' name len imin (i - 1)
      else None
  end.

Definition find_builtin (name : string) (len : nat) : option tx_variable :=
  find_builtin_loop (S (List.length functions)) name len
                    0 (Z.of_nat (List.length functions) - 1).

(** The [for] loop of [find_lookup] over the caller's array.  The [int]
    counter [iters] starts at [lookup_len] and the loop goes on while it
    is not zero, so a negative count does not stop it (the counter would
    overflow only after 2^31 entries): the scan then ends at the first
    match.  [vars] holds the entries of the array from [var] on; reading
    past the last one is undefined in C, and gives no match here. *)
Fixpoint find_lookup_loop (vars : list tx_variable) (iters : Z)
         (name : string) (len : nat) : option tx_variable :=
  if iters =? 0 then None
  else
    match vars with
    | [] => None
    | var :: vars' =>
        if (strncmp name (v_name var) len =? 0)
           && Ascii.eqb (char_at (v_name var) len) NUL
        then Some var
        else find_lookup_loop vars' (iters - 1) name len
    end.

(** ** The tokenizer state *)

Inductive tok_union : Type :=
| tu_none
| tu_value (v : float)
| tu_bound (p : ptr)
| tu_function (p : ptr).

(** [struct state]; [next_off] is [s->next - s->start] and [next] the text
    at [s->next].  [tok_off] is not a member of the C structure: it records
    the offset at which the lexeme of the current token starts (the value
    of [s->next - s->start] when the last pass of the loop of
    [tx_next_token] began), so that properties can speak of it. *)
Record state : Type := mk_state {
  next_off : nat;
  next : string;
  type : Z;
  tok : tok_union;
  context : ptr;
  lookup : option (list tx_variable);
  lookup_len : Z;
  tok_off : nat
}.

Definition s_value (s : state) : float :=
  match tok s with tu_value v => v | _ => 0%float end.
Definition s_bound (s : state) : ptr :=
  match tok s with tu_bound p => p | _ => P_null end.
Definition s_function (s : state) : ptr :=
  match tok s with tu_function p => p | _ => P_null end.

Definition with_type (s : state) (t : Z) : state :=
  mk_state (next_off s) (next s) t (tok s) (context s) (lookup s) (lookup_len s)
           (tok_off s).
Definition with_tok (s : state) (u : tok_union) : state :=
  mk_state (next_off s) (next s) (type s) u (context s) (lookup s) (lookup_len s)
           (tok_off s).
Definition with_context (s : state) (c : ptr) : state :=
  mk_state (next_off s) (next s) (type s) (tok s) c (lookup s) (lookup_len s)
           (tok_off s).
Definition mark (s : state) : state :=
  mk_state (next_off s) (next s) (type s) (tok s) (context s) (lookup s)
           (lookup_len s) (next_off s).

(** Move [s->next] forward to [r], a suffix of the current text. *)
Definition move (s : state) (r : string) : state :=
  mk_state (next_off s + (String.length (next s) - String.length r))%nat r
           (type s) (tok s) (context s) (lookup s) (lookup_len s) (tok_off s).

Definition find_lookup (s : state) (name : string) (len : nat) : option tx_variable :=
  match lookup s with
  | None => None
  | Some vars => find_lookup_loop vars (lookup_len s) name len
  end.

(** ** [tx_next_token] *)

Definition isident (c : ascii) : bool :=
  isalpha c || isdigit c || Ascii.eqb c "_".

(** The text after a maximal run of identifier characters. *)
Fixpoint ident_end (s : string) : string :=
  match s with
  | EmptyString => s
  | String c r => if isident c then ident_end r else s
  end.

(** Lines 227-228: bindings first, builtins next. *)
Definition resolve (s : state) (start : string) (len : nat) : option tx_variable :=
  match find_lookup s start len with
  | Some var => Some var
  | None => find_builtin start len
  end.

Definition is_closure_kind (t : Z) : bool := (TX_CLOSURE0 <=? t) && (t <=? TX_CLOSURE6).
Definition is_function_kind (t : Z) : bool := (TX_FUNCTION0 <=? t) && (t <=? TX_FUNCTION6).

(** One pass through the body of the [do ... while] loop. *)
Definition scan (s : state) : state :=
  let s := mark s in
  let c := peek (next s) in
  if Ascii.eqb c NUL then with_type s TOK_END
  else if isdigit c || Ascii.eqb c "." then
    let '(v, r) := strtod (next s) in
    let s1 := with_tok (move s r) (tu_value v) in
    if Ascii.eqb (peek r) "I" then with_type (move s1 (tl r)) TOK_NUMBER_I
    else with_type s1 TOK_NUMBER_R
  else if isalpha c then
    let start := next s in
    let s1 := move s (ident_end start) in
    let len := (String.length start - String.length (next s1))%nat in
    match resolve s1 start len with
    | None => with_type s1 TOK_ERROR
    | Some var =>
        let k := TYPE_MASK (v_type var) in
        if k =? TX_VARIABLE then
          with_tok (with_type s1 TOK_VARIABLE) (tu_bound (v_address var))
        else if is_closure_kind k then
          with_tok (with_type (with_context s1 (v_context var)) (v_type var))
                   (tu_function (v_address var))
        else if is_function_kind k then
          with_tok (with_type s1 (v_type var)) (tu_function (v_address var))
        else s1
    end
  else
    let s1 := move s (tl (next s)) in
    match c with
    | "+" => with_tok (with_type s1 TOK_INFIX) (tu_function (P_fun f_add))
    | "-" => with_tok (with_type s1 TOK_INFIX) (tu_function (P_fun f_sub))
    | "*" => with_tok (with_type s1 TOK_INFIX) (tu_function (P_fun f_mul))
    | "/" => with_tok (with_type s1 TOK_INFIX) (tu_function (P_fun f_divide))
    | "^" => with_tok (with_type s1 TOK_INFIX) (tu_function (P_fun f_cpow))
    | "(" => with_type s1 TOK_OPEN
    | ")" => with_type s1 TOK_CLOSE
    | "," => with_type s1 TOK_SEP
    | " " | "009" | "010" | "013" => s1
    | _ => with_type s1 TOK_ERROR
    end%char.

(** The loop: repeat while the type is still [TOK_NULL].  Every pass that
    leaves it so has consumed a character, so the length of the text plus
    one bounds the number of passes. *)
Fixpoint next_token_loop (fuel : nat) (s : state) : state :=
  match fuel with
  | O => s
  | S fuel' =>
      let s' := scan s in
      if type s' =? TOK_NULL then next_token_loop fuel' s' else s'
  end.

Definition tx_next_token (s : state) : state :=
  next_token_loop (S (String.length (next s))) (with_type s TOK_NULL).

(** ** Allocation and the parser monad *)

(** The part of the world the parser acts on: the tokenizer state [*s],
    the allocator (the outcomes of the coming calls of [malloc], [false]
    for a failure; once the list runs out every call succeeds), and a
    record of whether some call of [malloc] has failed so far. *)
Record world : Type := mk_world {
  st : state;
  heap : list bool;
  oom : bool
}.

(** A computation on the world; [None] only when the recursion budget of
    the model is used up. *)
Definition M (A : Type) : Type := world -> option (A * world).

Definition Ret {A : Type} (a : A) : M A := fun w => Some (a, w).

Definition Bind {A B : Type} (c : M A) (k : A -> M B) : M B :=
  fun w =>
    match c w with
    | None => None
    | Some (a, w') => k a w'
    end.

Declare Scope parser_scope.
Delimit Scope parser_scope with parser.
Notation "x <- c ;; k" := (Bind c (fun x => k))
  (at level 61, c at next level, right associativity) : parser_scope.
Notation "c ;;; k" := (Bind c (fun _ => k))
  (at level 61, right associativity) : parser_scope.
Local Open Scope parser_scope.

Definition out_of_fuel {A : Type} : M A := fun _ => None.

Definition get_state : M state := fun w => Some (st w, w).

Definition next_token : M unit :=
  fun w => Some (tt, mk_world (tx_next_token (st w)) (heap w) (oom w)).

(** [s->type = TOK_ERROR]. *)
Definition set_error : M unit :=
  fun w => Some (tt, mk_world (with_type (st w) TOK_ERROR) (heap w) (oom w)).

(** [malloc]: null on a failure. *)
Definition malloc : M bool :=
  fun w =>
    match heap w with
    | [] => Some (true, w)
    | true :: h => Some (true, mk_world (st w) h (oom w))
    | false :: h => Some (false, mk_world (st w) h true)
    end.

(** [new_expr]: the node is zero-filled, its first [arity] slots are
    copied from [parameters] when that is given, and its union ends as a
    null [bound]. *)
Definition new_expr (type : Z) (parameters : option (list tx_expr)) : M tx_expr :=
  let arity := Z.to_nat (ARITY type) in
  ok <- malloc ;;
  if ok then
    let children :=
      match parameters with
      | Some ps => firstn arity ps
      | None => repeat NULL arity
      end in
    Ret (Node type (eu_bound P_null) children P_null)
  else Ret NULL.

(** [CHECK_NULL(ptr, ...)]: leave the function with a null result.  The
    clean-up calls of [tx_free] release memory and change nothing that
    the parser reads. *)
Definition CHECK_NULL (p : tx_expr) (k : M tx_expr) : M tx_expr :=
  if is_null p then Ret NULL else k.

Definition set_value (n : tx_expr) (v : d_cx) : tx_expr :=
  match n with NULL => NULL | Node t _ ps c => Node t (eu_value v) ps c end.
Definition set_bound (n : tx_expr) (p : ptr) : tx_expr :=
  match n with NULL => NULL | Node t _ ps c => Node t (eu_bound p) ps c end.
Definition set_function (n : tx_expr) (p : ptr) : tx_expr :=
  match n with NULL => NULL | Node t _ ps c => Node t (eu_function p) ps c end.

Fixpoint set_nth (i : nat) (e : tx_expr) (ps : list tx_expr) : list tx_expr :=
  match ps, i with
  | [], _ => []
  | _ :: r, O => e :: r
  | p :: r, S i' => p :: set_nth i' e r
  end.

(** [ret->parameters[i] = e] for a child slot [i]. *)
Definition set_parameter (n : tx_expr) (i : Z) (e : tx_expr) : tx_expr :=
  match n with
  | NULL => NULL
  | Node t u ps c => Node t u (set_nth (Z.to_nat i) e ps) c
  end.

(** [if (IS_CLOSURE(s->type)) ret->parameters[arity] = s->context]. *)
Definition set_context (n : tx_expr) (s : state) : tx_expr :=
  match n with
  | NULL => NULL
  | Node t u ps c => if IS_CLOSURE (type s) then Node t u ps (context s) else n
  end.

(** ** The grammar

    Each production is a C function that calls the others recursively.
    Its body is given here once, with the productions it calls as
    arguments; the productions themselves are tied together below by
    recursion on a nesting budget. *)

Definition is_sign (s : state) : bool :=
  (type s =? TOK_INFIX)
  && (ptr_eqb (s_function s) (P_fun f_add) || ptr_eqb (s_function s) (P_fun f_sub)).
Definition is_pow (s : state) : bool :=
  (type s =? TOK_INFIX) && ptr_eqb (s_function s) (P_fun f_cpow).
Definition is_mul_div (s : state) : bool :=
  (type s =? TOK_INFIX)
  && (ptr_eqb (s_function s) (P_fun f_mul) || ptr_eqb (s_function s) (P_fun f_divide)).
Definition is_sep (s : state) : bool := type s =? TOK_SEP.

Definition PURE1 : Z := Z.lor TX_FUNCTION1 TX_FLAG_PURE.
Definition PURE2 : Z := Z.lor TX_FUNCTION2 TX_FLAG_PURE.

(** An error unless the current token is [TOK_CLOSE], which is consumed. *)
Definition expect_close : M unit :=
  s <- get_state ;;
  if negb (type s =? TOK_CLOSE) then set_error else next_token.

(** The [for] loop of [base] for a call of arity two or more, from index
    [i] on.  [None]: an operand came back null, and [base] returns null.
    [Some (ret, i)]: the loop was left with this node and this index. *)
Definition arguments_body (expr : M tx_expr)
           (again : Z -> tx_expr -> M (option (tx_expr * Z)))
           (arity i : Z) (ret : tx_expr) : M (option (tx_expr * Z)) :=
  if i <? arity then
    next_token ;;;
    p <- expr ;;
    if is_null p then Ret None
    else
      let ret := set_parameter ret i p in
      s <- get_state ;;
      if negb (type s =? TOK_SEP) then Ret (Some (ret, i))
      else again (i + 1) ret
  else Ret (Some (ret, i)).

(** [base]. *)
Definition base_body (power : M tx_expr)
           (arguments : Z -> Z -> tx_expr -> M (option (tx_expr * Z)))
           (list : M tx_expr) : M tx_expr :=
  s <- get_state ;;
  let k := TYPE_MASK (type s) in
  if k =? TOK_NUMBER_R then
    ret <- new_expr TX_CONSTANT None ;;
    CHECK_NULL ret (
      next_token ;;;
      Ret (set_value ret (cx_of_real (s_value s))))
  else if k =? TOK_NUMBER_I then
    ret <- new_expr TX_CONSTANT None ;;
    CHECK_NULL ret (
      next_token ;;;
      Ret (set_value ret (mul_real_I (s_value s))))
  else if k =? TOK_VARIABLE then
    ret <- new_expr TX_VARIABLE None ;;
    CHECK_NULL ret (
      next_token ;;;
      Ret (set_bound ret (s_bound s)))
  else if (k =? TX_FUNCTION0) || (k =? TX_CLOSURE0) then
    ret <- new_expr (type s) None ;;
    CHECK_NULL ret (
      let ret := set_context (set_function ret (s_function s)) s in
      next_token ;;;
      s1 <- get_state ;;
      (if type s1 =? TOK_OPEN then next_token ;;; expect_close else Ret tt) ;;;
      Ret ret)
  else if (k =? TX_FUNCTION1) || (k =? TX_CLOSURE1) then
    ret <- new_expr (type s) None ;;
    CHECK_NULL ret (
      let ret := set_context (set_function ret (s_function s)) s in
      next_token ;;;
      p <- power ;;
      CHECK_NULL p (Ret (set_parameter ret 0 p)))
  else if is_function_kind k || is_closure_kind k then
    let arity := ARITY (type s) in
    ret <- new_expr (type s) None ;;
    CHECK_NULL ret (
      let ret := set_context (set_function ret (s_function s)) s in
      next_token ;;;
      s1 <- get_state ;;
      if negb (type s1 =? TOK_OPEN) then set_error ;;; Ret ret
      else
        r <- arguments arity 0 ret ;;
        match r with
        | None => Ret NULL
        | Some (ret, i) =>
            s2 <- get_state ;;
            (if negb (type s2 =? TOK_CLOSE) || negb (i =? arity - 1)
             then set_error else next_token) ;;;
            Ret ret
        end)
  else if k =? TOK_OPEN then
    next_token ;;;
    ret <- list ;;
    CHECK_NULL ret (expect_close ;;; Ret ret)
  else
    ret <- new_expr 0 None ;;
    CHECK_NULL ret (
      set_error ;;;
      Ret (set_value ret (cx_of_real NAN))).

(** The [while] loop of [power]: consume signs, flipping [sign] on each
    minus. *)
Definition signs_body (again : Z -> M Z) (sign : Z) : M Z :=
  s <- get_state ;;
  if is_sign s then
    let sign := if ptr_eqb (s_function s) (P_fun f_sub) then - sign else sign in
    next_token ;;;
    again sign
  else Ret sign.

(** [power], after its loop has produced [sign]. *)
Definition power_body (signs : M Z) (base : M tx_expr) : M tx_expr :=
  sign <- signs ;;
  if sign =? 1 then base
  else
    b <- base ;;
    CHECK_NULL b (
      ret <- new_expr PURE1 (Some [b]) ;;
      CHECK_NULL ret (Ret (set_function ret (P_fun f_negate)))).

(** [factor], [term], [expr] and [list] have one shape: parse an operand,
    then loop while the current token satisfies [cond]; each pass reads
    the next token, parses the right operand and builds a pure binary node
    over the result so far and that operand, with function [fn]. *)
Definition binary_loop (cond : state -> bool) (fn : state -> ptr)
           (operand : M tx_expr) (again : tx_expr -> M tx_expr)
           (ret : tx_expr) : M tx_expr :=
  s <- get_state ;;
  if cond s then
    let t := fn s in
    next_token ;;;
    p <- operand ;;
    CHECK_NULL p (
      ret' <- new_expr PURE2 (Some [ret; p]) ;;
      CHECK_NULL ret' (again (set_function ret' t)))
  else Ret ret.

Definition binary_head (operand : M tx_expr) (loop : tx_expr -> M tx_expr)
  : M tx_expr :=
  ret <- operand ;;
  CHECK_NULL ret (loop ret).

Module Grammar.

(** The productions, by recursion on the nesting budget.  Each is a
    function of the world in its own right, so that a production passed to
    a body is not unfolded before it is called. *)

Fixpoint signs (fuel : nat) (sign : Z) : M Z :=
  match fuel with
  | O => out_of_fuel
  | S fuel' => fun w => signs_body (signs fuel') sign w
  end.

Fixpoint base (fuel : nat) : M tx_expr :=
  match fuel with
  | O => out_of_fuel
  | S fuel' => fun w => base_body (power fuel') (arguments fuel') (list fuel') w
  end

with arguments (fuel : nat) (arity i : Z) (ret : tx_expr)
  : M (option (tx_expr * Z)) :=
  match fuel with
  | O => out_of_fuel
  | S fuel' => fun w => arguments_body (expr fuel') (arguments fuel' arity) arity i ret w
  end

(** <power> = {("-" | "+")} <base> *)
with power (fuel : nat) : M tx_expr :=
  match fuel with
  | O => out_of_fuel
  | S fuel' => fun w => power_body (signs fuel' 1) (base fuel') w
  end

(** <factor> = <power> {"^" <power>} *)
with factor_loop (fuel : nat) (ret : tx_expr) : M tx_expr :=
  match fuel with
  | O => out_of_fuel
  | S fuel' =>
      fun w => binary_loop is_pow s_function (power fuel') (factor_loop fuel') ret w
  end

with factor (fuel : nat) : M tx_expr :=
  match fuel with
  | O => out_of_fuel
  | S fuel' => fun w => binary_head (power fuel') (factor_loop fuel') w
  end

(** <term> = <factor> {("*" | "/") <factor>} *)
with term_loop (fuel : nat) (ret : tx_expr) : M tx_expr :=
  match fuel with
  | O => out_of_fuel
  | S fuel' =>
      fun w => binary_loop is_mul_div s_function (factor fuel') (term_loop fuel') ret w
  end

with term (fuel : nat) : M tx_expr :=
  match fuel with
  | O => out_of_fuel
  | S fuel' => fun w => binary_head (factor fuel') (term_loop fuel') w
  end

(** <expr> = <term> {("+" | "-") <term>} *)
with expr_loop (fuel : nat) (ret : tx_expr) : M tx_expr :=
  match fuel with
  | O => out_of_fuel
  | S fuel' =>
      fun w => binary_loop is_sign s_function (term fuel') (expr_loop fuel') ret w
  end

with expr (fuel : nat) : M tx_expr :=
  match fuel with
  | O => out_of_fuel
  | S fuel' => fun w => binary_head (term fuel') (expr_loop fuel') w
  end

(** <list> = <expr> {"," <expr>} *)
with list_loop (fuel : nat) (ret : tx_expr) : M tx_expr :=
  match fuel with
  | O => out_of_fuel
  | S fuel' =>
      fun w =>
        binary_loop is_sep (fun _ => P_fun f_comma) (expr fuel') (list_loop fuel')
                    ret w
  end

with list (fuel : nat) : M tx_expr :=
  match fuel with
  | O => out_of_fuel
  | S fuel' => fun w => binary_head (expr fuel') (list_loop fuel') w
  end.

End Grammar.

(** ** [tx_eval] *)

(** Stand-in for the value of an operation that C leaves undefined (a
    call through a pointer that is not a function of the expected
    signature, a read through a pointer that is not the address of a
    [d_cx]). *)
Definition undefined : d_cx := cx_of_real NAN.

Definition u_value (u : expr_union) : d_cx :=
  match u with eu_value v => v | _ => undefined end.
Definition u_bound (u : expr_union) : ptr :=
  match u with eu_bound p => p | _ => P_null end.
Definition u_function (u : expr_union) : ptr :=
  match u with eu_function p => p | _ => P_null end.

(** The double constants of [pi] and [e] as the compiler rounds them. *)
Definition pi_double : float := 0x1.921fb54442d18p+1%float.
Definition e_double : float := 0x1.5bf0a8b145769p+1%float.

Section Evaluation.

Variable R : runtime.

(** Calling the function at [f]; [ctx] is the context handed to a
    closure, [None] for a plain function. *)
Definition call (m : memory) (f : ptr) (ctx : option ptr) (args : list d_cx) : d_cx :=
  match f with
  | P_fun g =>
      match g, ctx, args with
      | f_i, None, [] => Complex_I
      | f_pi, None, [] => cx_of_real pi_double
      | f_e, None, [] => cx_of_real e_double
      | f_infinity, None, _ => cx_of_real INFINITY
      | f__cabs, None, [a] => cx_of_real (cabs R a)
      | f__carg, None, [a] => cx_of_real (carg R a)
      | f__cimag, None, [a] => cx_of_real (cimag a)
      | f__creal, None, [a] => cx_of_real (creal a)
      | f_conj, None, [a] => cx_conj a
      | f_libm l, None, [a] => libm_unary R l a
      | f_cpow, None, [a; b] => cpow R a b
      | f_add, None, [a; b] => cx_add a b
      | f_sub, None, [a; b] => cx_sub a b
      | f_mul, None, [a; b] => cx_mul R a b
      | f_divide, None, [a; b] => cx_div R a b
      | f_negate, None, [a] => cx_neg a
      | f_comma, None, [_; b] => b
      | f_extern id, _, _ => extern R id ctx args m
      | _, _, _ => undefined
      end
  | _ => undefined
  end.

(** [*p] for a pointer to [d_cx]. *)
Definition deref (m : memory) (p : ptr) : d_cx :=
  match p with
  | P_data a => m a
  | _ => undefined
  end.

Variable m : memory.

Fixpoint tx_eval (n : tx_expr) : d_cx :=
  match n with
  | NULL => cx_of_real NAN
  | Node t u parameters ctx =>
      let M := fun e : nat => nth e (List.map tx_eval parameters) (cx_of_real NAN) in
      let k := TYPE_MASK t in
      if k =? TX_CONSTANT then u_value u
      else if k =? TX_VARIABLE then deref m (u_bound u)
      else if is_function_kind k then
        if ARITY t <=? 6
        then call m (u_function u) None (List.map M (seq 0 (Z.to_nat (ARITY t))))
        else cx_of_real NAN
      else if is_closure_kind k then
        if ARITY t <=? 6
        then call m (u_function u) (Some ctx) (List.map M (seq 0 (Z.to_nat (ARITY t))))
        else cx_of_real NAN
      else cx_of_real NAN
  end.

(** ** [optimize] *)

(** The [for] loop of [optimize]: the first [arity] children are
    optimized in turn. *)
Fixpoint optimize_children (opt : tx_expr -> tx_expr) (arity : nat)
         (ps : list tx_expr) {struct ps} : list tx_expr :=
  match ps, arity with
  | [], _ => []
  | _ :: _, O => ps
  | p :: ps', S arity' => opt p :: optimize_children opt arity' ps'
  end.

Definition is_constant (n : tx_expr) : bool :=
  match n with
  | NULL => false
  | Node t _ _ _ => t =? TX_CONSTANT
  end.

(** [known] at the end of the loop. *)
Definition known (arity : nat) (ps : list tx_expr) : bool :=
  forallb is_constant (firstn arity ps).

(** The node is rewritten in place; the result is the node as it stands
    when [optimize] returns.  A folded node has released its children. *)
Fixpoint optimize (n : tx_expr) : tx_expr :=
  match n with
  | NULL => NULL
  | Node t u parameters ctx =>
      if t =? TX_CONSTANT then n
      else if t =? TX_VARIABLE then n
      else if IS_PURE t then
        let arity := Z.to_nat (ARITY t) in
        let parameters' := optimize_children optimize arity parameters in
        if known arity parameters' then
          let value := tx_eval (Node t u parameters' ctx) in
          Node TX_CONSTANT (eu_value value) [] ctx
        else Node t u parameters' ctx
      else n
  end.

End Evaluation.

(** ** [tx_compile] and [tx_interp] *)

(** Conversion of a pointer difference to [int] (32 bits, two's
    complement). *)
Definition to_int (z : Z) : Z := (z + 2 ^ 31) mod 2 ^ 32 - 2 ^ 31.

Section Compile.

Variable R : runtime.
(** The caller's storage at the time of the call. *)
Variable m : memory.

(** The tokenizer state set up by [tx_compile] and the first token. *)
Definition initial (expression : string) (variables : option (list tx_variable))
           (var_count : Z) (h : list bool) : world :=
  mk_world (tx_next_token (mk_state 0 expression TOK_NULL tu_none P_null
                                    variables var_count 0))
           h false.

(** Lines 587-603: what [tx_compile] makes of the root that [list]
    returned and of the state of the tokenizer.  The result is the
    handle, the value stored through [error], and the world at the
    end. *)
Definition finish (root : tx_expr) (w : world) : tx_expr * Z * world :=
  if is_null root then (NULL, -1, w)
  else if negb (type (st w) =? TOK_END) then
    let error := to_int (Z.of_nat (next_off (st w))) in
    (NULL, if error =? 0 then 1 else error, w)
  else (optimize R m root, 0, w).

(** [tx_compile] with a bound [fuel] on the nesting of the parser;
    [None] when the bound does not suffice. *)
Definition tx_compile_fuel (fuel : nat) (expression : string)
           (variables : option (list tx_variable)) (var_count : Z)
           (h : list bool) : option (tx_expr * Z * world) :=
  match Grammar.list fuel (initial expression variables var_count h) with
  | None => None
  | Some (root, w) => Some (finish root w)
  end.

(** Nesting in the parser is bounded by the number of tokens, hence by
    the length of the text: this budget always suffices
    ([tx_compile_total] below). *)
Definition fuel_for (expression : string) : nat :=
  (12 * String.length expression + 12)%nat.

Definition tx_compile (expression : string)
           (variables : option (list tx_variable)) (var_count : Z)
           (h : list bool) : tx_expr * Z * world :=
  match tx_compile_fuel (fuel_for expression) expression variables var_count h with
  | Some r => r
  | None => (NULL, -1, initial expression variables var_count h)
  end.

(** The result of [tx_interp] and the value stored through [error]. *)
Definition tx_interp (expression : string) (h : list bool) : d_cx * Z :=
  let '(n, error, _) := tx_compile expression None 0 h in
  if is_null n then (cx_of_real NAN, error)
  else (tx_eval R m n, error).

End Compile.

(** ** [tx_free] and [tx_free_parameters]

    Releasing a tree, as the sequence of the nodes handed to [free], in
    the order of the calls. *)

(** The number of child slots that the [switch] of [tx_free_parameters]
    runs through: [k] for the kinds [TX_FUNCTIONk] and [TX_CLOSUREk]. *)
Definition released_slots (t : Z) : nat :=
  let k := TYPE_MASK t in
  if is_function_kind k then Z.to_nat (k - TX_FUNCTION0)
  else if is_closure_kind k then Z.to_nat (k - TX_CLOSURE0)
  else 0%nat.

(** [tx_free(n)]: nothing for a null pointer; otherwise the children in the
    slots [k-1] down to [0], each with [tx_free], then the node itself.
    The context of a closure, in the slot after the children, is not
    released. *)
Fixpoint tx_free (n : tx_expr) : list tx_expr :=
  match n with
  | NULL => []
  | Node t u ps ctx =>
      (fix slots (k : nat) (l : list tx_expr) {struct l} : list tx_expr :=
         match l, k with
         | [], _ => []
         | _ :: _, O => []
         | c :: l', S k' => slots k' l' ++ tx_free c
         end) (released_slots t) ps
      ++ [n]
  end.

(** [tx_free_parameters(n)]. *)
Definition tx_free_parameters (n : tx_expr) : list tx_expr :=
  match n with
  | NULL => []
  | Node t u ps ctx =>
      (fix slots (k : nat) (l : list tx_expr) {struct l} : list tx_expr :=
         match l, k with
         | [], _ => []
         | _ :: _, O => []
         | c :: l', S k' => slots k' l' ++ tx_free c
         end) (released_slots t) ps
  end.

Section Releases.

Variable R : runtime.
Variable m : memory.

(** The nodes that [optimize(n)] releases: those that the calls on the
    children release and, when the node is folded, its children as they
    stand after those calls. *)
Fixpoint optimize_releases (n : tx_expr) : list tx_expr :=
  match n with
  | NULL => []
  | Node t u parameters ctx =>
      if t =? TX_CONSTANT then []
      else if t =? TX_VARIABLE then []
      else if IS_PURE t then
        let arity := Z.to_nat (ARITY t) in
        let inner :=
          (fix loop (k : nat) (l : list tx_expr) {struct l} : list tx_expr :=
             match l, k with
             | [], _ => []
             | _ :: _, O => []
             | c :: l', S k' => optimize_releases c ++ loop k' l'
             end) arity parameters in
        let parameters' := optimize_children (optimize R m) arity parameters in
        if known arity parameters'
        then inner ++ tx_free_parameters (Node t u parameters' ctx)
        else inner
      else []
  end.

(** The nodes that [tx_compile] releases before it returns, when no
    allocation has failed: the whole tree after a syntax error, and what
    the optimizer releases otherwise. *)
Definition finish_releases (root : tx_expr) (w : world) : list tx_expr :=
  if is_null root then []
  else if negb (type (st w) =? TOK_END) then tx_free root
  else optimize_releases root.

End Releases.

(** The nodes that [tx_compile] releases before it returns, and those that
    [tx_interp] releases: the same, and then the handle with [tx_free]. *)
Definition tx_compile_releases (R : runtime) (m : memory) (expression : string)
           (variables : option (list tx_variable)) (var_count : Z)
           (h : list bool) : list tx_expr :=
  match Grammar.list (fuel_for expression)
                     (initial expression variables var_count h) with
  | Some (root, w) => finish_releases R m root w
  | None => []
  end.

Definition tx_interp_releases (R : runtime) (m : memory) (expression : string)
           (h : list bool) : list tx_expr :=
  tx_compile_releases R m expression None 0 h
  ++ tx_free (fst (fst (tx_compile R m expression None 0 h))).

(** * Definitions used to state the properties *)

(** Tokens that can only come from a lexeme of at least one byte and from
    which the parser goes on. *)
Definition live (t : Z) : bool :=
  negb (t =? TOK_END) && negb (t =? TOK_NUMBER_R) && negb (t =? TOK_ERROR).

(** The measure: twice the length of the text still to be read, plus one
    when the current token is live. *)
Definition mu_state (s : state) : nat :=
  (2 * String.length (next s) + (if live (type s) then 1 else 0))%nat.
Definition mu (w : world) : nat := mu_state (st w).

(** [twp c Q w]: from [w], [c] returns (the budget suffices) and its result
    and final world satisfy [Q]. *)
Definition twp {A : Type} (c : M A) (Q : A -> world -> Prop) (w : world) : Prop :=
  match c w with
  | Some (a, w') => Q a w'
  | None => False
  end.

(** The children of a node fresh from [new_expr]. *)
Definition new_expr_children (t : Z) (ps : option (list tx_expr)) : list tx_expr :=
  match ps with
  | Some l => firstn (Z.to_nat (ARITY t)) l
  | None => repeat NULL (Z.to_nat (ARITY t))
  end.

Definition no_null {A : Type} (_ : A) : bool := false.

Definition args_null (o : option (tx_expr * Z)) : bool :=
  match o with None => true | Some (n, _) => is_null n end.

(** What a run of a production preserves.  [Inv] is an invariant of the
    tokenizer state; [null r] tells whether the result [r] is the null
    result that a production passes on after a failure of [malloc]. *)
Section RunDefinitions.

Variable Inv : state -> Prop.

Definition post {A : Type} (null : A -> bool) (w : world) (r : A) (w' : world)
  : Prop :=
  (mu w' <= mu w)%nat /\ Inv (st w') /\ oom w' = oom w || null r.

Definition runs {A : Type} (null : A -> bool) (c : M A) (w : world) : Prop :=
  Inv (st w) -> twp c (post null w) w.

(** [w'] is reached from [w] by steps that did not fail. *)
Definition reach (w w' : world) : Prop :=
  (mu w' <= mu w)%nat /\ Inv (st w') /\ oom w' = oom w.

(** The budget each production needs, as a function of the measure. *)
Definition runs_at (w : world) : Prop :=
  (forall fuel, (6 * mu w + 1 <= fuel)%nat ->
      runs is_null (Grammar.base fuel) w)
  /\ (forall fuel arity i ret, live (type (st w)) = true -> is_null ret = false ->
      (6 * mu w + 1 <= fuel)%nat ->
      runs args_null (Grammar.arguments fuel arity i ret) w)
  /\ (forall fuel, (6 * mu w + 2 <= fuel)%nat ->
      runs is_null (Grammar.power fuel) w)
  /\ (forall fuel ret, is_null ret = false -> (6 * mu w + 1 <= fuel)%nat ->
      runs is_null (Grammar.factor_loop fuel ret) w)
  /\ (forall fuel, (6 * mu w + 3 <= fuel)%nat ->
      runs is_null (Grammar.factor fuel) w)
  /\ (forall fuel ret, is_null ret = false -> (6 * mu w + 1 <= fuel)%nat ->
      runs is_null (Grammar.term_loop fuel ret) w)
  /\ (forall fuel, (6 * mu w + 4 <= fuel)%nat ->
      runs is_null (Grammar.term fuel) w)
  /\ (forall fuel ret, is_null ret = false -> (6 * mu w + 1 <= fuel)%nat ->
      runs is_null (Grammar.expr_loop fuel ret) w)
  /\ (forall fuel, (6 * mu w + 5 <= fuel)%nat ->
      runs is_null (Grammar.expr fuel) w)
  /\ (forall fuel ret, is_null ret = false -> (6 * mu w + 1 <= fuel)%nat ->
      runs is_null (Grammar.list_loop fuel ret) w)
  /\ (forall fuel, (6 * mu w + 6 <= fuel)%nat ->
      runs is_null (Grammar.list fuel) w).

End RunDefinitions.

(** Offsets: the cursor is the number of bytes consumed of a text of
    length [L], and the current token starts at or before the cursor. *)
Definition offsets (L : nat) (s : state) : Prop :=
  (next_off s + String.length (next s) = L)%nat /\ (tok_off s <= next_off s)%nat.


(** A tree as the parser and the optimizer leave it: a constant or a
    variable reference is a leaf; a call has the kind of a function or of a
    closure, exactly as many children as its arity, none of them null, and
    each of them such a tree. *)
Fixpoint well_formed (n : tx_expr) : bool :=
  match n with
  | NULL => false
  | Node t u ps ctx =>
      if t =? TX_CONSTANT then
        match u, ps with eu_value _, [] => true | _, _ => false end
      else if t =? TX_VARIABLE then
        match u, ps with eu_bound _, [] => true | _, _ => false end
      else
        (is_function_kind (TYPE_MASK t) || is_closure_kind (TYPE_MASK t))
        && (Z.of_nat (List.length ps) =? ARITY t)
        && match u with eu_function _ => true | _ => false end
        && forallb well_formed ps
  end.

(** ** A runtime to run examples with

    A stand-in for what lies outside the repository, to evaluate
    examples with; it is not what a C library or a compiler computes in
    every case.  Multiplication and division by the textbook formulas
    (without the treatment of infinities of the compiler's own); powers
    with a small natural exponent by repeated multiplication, which is
    exact on the small integers of the examples, where the C library's
    [cpow] need not be (see [Libm] below); the functions that would need
    transcendental arithmetic return NaN.  The caller's native function
    number [id] returns the content of the storage at address [id], so it
    is not pure. *)
Module Reference.

Definition mul (a b : d_cx) : d_cx :=
  ((creal a * creal b - cimag a * cimag b)%float,
   (creal a * cimag b + cimag a * creal b)%float).

Definition div (a b : d_cx) : d_cx :=
  let d := (creal b * creal b + cimag b * cimag b)%float in
  (((creal a * creal b + cimag a * cimag b) / d)%float,
   ((cimag a * creal b - creal a * cimag b) / d)%float).

Fixpoint pow_nat (a : d_cx) (k : nat) : d_cx :=
  match k with
  | O => cx_of_real 1
  | S O => a
  | S k' => mul (pow_nat a k') a
  end.

Definition small_naturals : list (float * nat) :=
  [(0%float, 0%nat); (1%float, 1%nat); (2%float, 2%nat); (3%float, 3%nat);
   (4%float, 4%nat); (5%float, 5%nat); (6%float, 6%nat); (7%float, 7%nat);
   (8%float, 8%nat); (9%float, 9%nat)].

Definition exponent (b : d_cx) : option nat :=
  if PrimFloat.eqb (cimag b) 0 then
    option_map snd
      (List.find (fun p => PrimFloat.eqb (fst p) (creal b)) small_naturals)
  else None.

Definition pow (a b : d_cx) : d_cx :=
  match exponent b with
  | Some k => pow_nat a k
  | None => (NAN, NAN)
  end.

Definition rt : runtime :=
  mk_runtime (fun _ _ => (NAN, NAN)) (fun _ => NAN) (fun _ => NAN)
             pow mul div (fun id _ _ m => m id).

(** Storage that holds zero everywhere. *)
Definition zeros : memory := fun _ => cx_of_real 0.

End Reference.

(** The C library the program is linked with decides what [cpow]
    returns.  The GNU C library (2.36, x86-64) computes it through the
    exponential and the logarithm and is not exact on small integers: at
    the arguments that the examples "2^3^2" and "-2^2" reach it returns
    the values listed here (7.9999999999999982 for 2^3,
    63.999999999999979 for the square of that and of 8, and
    4+9.7971743931788257e-16i for the square of -2-0i).  [Libm.rt] has
    these values of [cpow] and the example runtime elsewhere. *)
Module Libm.

Definition cpow_values : list (d_cx * d_cx * d_cx) :=
  [((2%float, 0%float), (3%float, 0%float),
    (0x1.ffffffffffffep+2%float, 0%float));
   ((0x1.ffffffffffffep+2%float, 0%float), (2%float, 0%float),
    (0x1.ffffffffffffdp+5%float, 0%float));
   ((8%float, 0%float), (2%float, 0%float),
    (0x1.ffffffffffffdp+5%float, 0%float));
   (((-2)%float, (-0)%float), (2%float, 0%float),
    (4%float, 0x1.1a62633145c07p-50%float))].

Definition same (a b : d_cx) : bool :=
  PrimFloat.eqb (creal a) (creal b) && PrimFloat.eqb (cimag a) (cimag b).

Definition pow (a b : d_cx) : d_cx :=
  match List.find (fun e => same (fst (fst e)) a && same (snd (fst e)) b)
                  cpow_values with
  | Some e => snd e
  | None => Reference.pow a b
  end.

Definition rt : runtime :=
  mk_runtime (libm_unary Reference.rt) (cabs Reference.rt) (carg Reference.rt)
             pow Reference.mul Reference.div (extern Reference.rt).

End Libm.

(** The children of a node. *)
Definition children (n : tx_expr) : list tx_expr :=
  match n with
  | NULL => []
  | Node _ _ ps _ => ps
  end.

(** Bindings used in examples: a native function of one argument that is
    not flagged pure, and a variable at address [a]. *)
Definition impure_function (nm : string) (id : N) : tx_variable :=
  mk_var nm (P_fun (f_extern id)) TX_FUNCTION1 P_null.
Definition variable (nm : string) (a : N) : tx_variable :=
  mk_var nm (P_data a) TX_VARIABLE P_null.

(** The handle and the value stored through [error]. *)
Definition handle (r : tx_expr * Z * world) : tx_expr := fst (fst r).
Definition error_of (r : tx_expr * Z * world) : Z := snd (fst r).
Definition world_of (r : tx_expr * Z * world) : world := snd r.

(** The cursor as [tx_compile] reports it. *)
Definition reported (w : world) : Z :=
  let error := to_int (Z.of_nat (next_off (st w))) in
  if error =? 0 then 1 else error.


(** The node that [power] wraps around a base after an odd number of
    minus signs. *)
Definition negation (b : tx_expr) : tx_expr :=
  Node PURE1 (eu_function (P_fun f_negate)) [b] P_null.

(** The first [k] children are set. *)
Definition filled (k : nat) (n : tx_expr) : Prop :=
  Forall (fun c => is_null c = false) (firstn k (children n)).

(** Same kind, union and context, and as many child slots. *)
Definition same_node (n n' : tx_expr) : Prop :=
  match n, n' with
  | Node t u ps c, Node t' u' ps' c' =>
      t = t' /\ u = u' /\ c = c' /\ List.length ps = List.length ps'
  | _, _ => False
  end.

(** The bindings that [find_lookup] scans: none when [variables] is
    null, the first [var_count] entries of the array for a count that is
    not negative, and every entry for a negative count, which the loop
    counts down without reaching zero. *)
Definition visible (variables : option (list tx_variable)) (var_count : Z)
  : list tx_variable :=
  match variables with
  | None => []
  | Some vars => if var_count <? 0 then vars else firstn (Z.to_nat var_count) vars
  end.

(** The test of [find_lookup] on one binding. *)
Definition name_matches (name : string) (len : nat) (var : tx_variable) : bool :=
  (strncmp name (v_name var) len =? 0) && Ascii.eqb (char_at (v_name var) len) NUL.

(** A C string as the text before its first NUL. *)
Fixpoint cstring (s : string) : string :=
  match s with
  | EmptyString => EmptyString
  | String c r => if Ascii.eqb c NUL then EmptyString else String c (cstring r)
  end.

(** The maximal run of identifier characters at the start of a text. *)
Fixpoint ident_prefix (s : string) : string :=
  match s with
  | EmptyString => EmptyString
  | String c r => if isident c then String c (ident_prefix r) else EmptyString
  end.

(** Trees as the parser builds them. *)
Definition constant (v : float) : tx_expr :=
  Node TX_CONSTANT (eu_value (cx_of_real v)) [] P_null.
Definition binary (f : fnptr) (a b : tx_expr) : tx_expr :=
  Node PURE2 (eu_function (P_fun f)) [a; b] P_null.
Definition folded (v : d_cx) : tx_expr :=
  Node TX_CONSTANT (eu_value v) [] P_null.

(** The tree that [list] returns to [tx_compile], before the optimizer
    runs, when no allocation fails. *)
Definition parse (expression : string) (variables : option (list tx_variable))
           (var_count : Z) : option tx_expr :=
  option_map fst
    (Grammar.list (fuel_for expression) (initial expression variables var_count [])).

(** [wp c Q w]: if [c] returns from [w], its result and final world
    satisfy [Q]. *)
Definition wp {A : Type} (c : M A) (Q : A -> world -> Prop) (w : world) : Prop :=
  match c w with
  | Some (a, w') => Q a w'
  | None => True
  end.

(** The result, when it is a node and no error is pending, is well
    formed. *)
Definition good (r : tx_expr) (w' : world) : Prop :=
  is_null r = false -> type (st w') <> TOK_ERROR -> well_formed r = true.

Definition builds (c : M tx_expr) : Prop := forall w, wp c good w.

(** A loop that extends [ret]: [ret] is well formed unless an error is
    pending at the start. *)
Definition extends (loop : tx_expr -> M tx_expr) : Prop :=
  forall ret w,
    (type (st w) <> TOK_ERROR -> well_formed ret = true) ->
    wp (loop ret) good w.

(** The first [k] children are well formed. *)
Definition filled_wf (k : nat) (n : tx_expr) : Prop :=
  Forall (fun c => well_formed c = true) (firstn k (children n)).

(** The loop over the arguments of a call of arity [arity]. *)
Definition fills_at (arity : Z) (arguments : Z -> tx_expr -> M (option (tx_expr * Z)))
  : Prop :=
  forall i ret w,
    0 <= i -> is_null ret = false -> filled_wf (Z.to_nat i) ret ->
    wp (arguments i ret)
       (fun r w' =>
          match r with
          | None => True
          | Some (n, i') =>
              same_node ret n /\ i <= i'
              /\ (i' < arity -> type (st w') <> TOK_ERROR ->
                  filled_wf (Z.to_nat (i' + 1)) n)
          end) w.

(** The native function at [f] does not depend on the caller's storage. *)
Definition storage_free (R : runtime) (f : ptr) : Prop :=
  forall ctx args m1 m2, call R m1 f ctx args = call R m2 f ctx args.

(** Every node flagged pure calls a function that does not depend on the
    caller's storage: the flags tell the truth. *)
Fixpoint honest (R : runtime) (n : tx_expr) : Prop :=
  match n with
  | NULL => True
  | Node t u ps _ =>
      (IS_PURE t = true -> storage_free R (u_function u))
      /\ fold_right (fun c rest => honest R c /\ rest) True ps
  end.

(** Whatever [p] returns, [q] returns. *)
Definition refines {A : Type} (p q : M A) : Prop :=
  forall w r, p w = Some r -> q w = Some r.

(** The tree of 2^3 + x, with [x] at address 1. *)
Definition cube_plus_x : tx_expr :=
  Node PURE2 (eu_function (P_fun f_add))
       [Node PURE2 (eu_function (P_fun f_cpow))
             [Node TX_CONSTANT (eu_value (2%float, 0%float)) [] P_null;
              Node TX_CONSTANT (eu_value (3%float, 0%float)) [] P_null] P_null;
        Node TX_VARIABLE (eu_bound (P_data 1)) [] P_null] P_null.

(** ** The text a production reads *)

(** The world after [tx_next_token]. *)
Definition after_token (w : world) : world :=
  mk_world (tx_next_token (st w)) (heap w) (oom w).

(** A production returns [p] from [w] and leaves [w'], within some
    nesting budget. *)
Definition returns (production : nat -> M tx_expr)
           (w : world) (p : tx_expr) (w' : world) : Prop :=
  exists fuel, production fuel w = Some (p, w').

(** The arguments of a call as the text has them.  The current token of
    [w] is the opening parenthesis or a separator; it is passed, [expr]
    reads an argument, and the run goes on for as long as the token after
    an argument is a separator.  [w'] is the world after the last
    argument, its current token the first one after an argument that is
    not a separator. *)
Inductive arguments_read : world -> list tx_expr -> world -> Prop :=
| read_last w p w' :
    returns Grammar.expr (after_token w) p w' -> is_null p = false ->
    type (st w') <> TOK_SEP ->
    arguments_read w [p] w'
| read_more w p w1 ps w' :
    returns Grammar.expr (after_token w) p w1 -> is_null p = false ->
    type (st w1) = TOK_SEP ->
    arguments_read w1 ps w' ->
    arguments_read w (p :: ps) w'.

(** ** Further definitions *)

(** Nothing is left to fold along the paths that the optimizer follows: a
    node flagged pure that is not a leaf has a child that is not a
    constant, and its children are in this form too. *)
Fixpoint irreducible (n : tx_expr) : bool :=
  match n with
  | NULL => true
  | Node t u ps ctx =>
      (t =? TX_CONSTANT) || (t =? TX_VARIABLE) || negb (IS_PURE t)
      || (forallb irreducible ps && negb (forallb is_constant ps))
  end.

(** The number of nodes of a tree. *)
Fixpoint size (n : tx_expr) : nat :=
  match n with
  | NULL => 0
  | Node _ _ ps _ => S (fold_right (fun c k => (size c + k)%nat) 0%nat ps)
  end.

(** The addresses that an evaluation reads: those of the variable
    references among the nodes that [tx_eval] visits. *)
Fixpoint read_set (n : tx_expr) : list N :=
  match n with
  | NULL => []
  | Node t u ps ctx =>
      let k := TYPE_MASK t in
      if k =? TX_CONSTANT then []
      else if k =? TX_VARIABLE then
        match u_bound u with P_data a => [a] | _ => [] end
      else if is_function_kind k || is_closure_kind k then
        (fix visit (k : nat) (l : list tx_expr) {struct l} : list N :=
           match l, k with
           | [], _ => []
           | _ :: _, O => []
           | c :: l', S k' => read_set c ++ visit k' l'
           end) (Z.to_nat (ARITY t)) ps
      else []
  end.

(** Every function that an evaluation of the tree calls is independent
    of the caller's storage. *)
Fixpoint calls_storage_free (R : runtime) (n : tx_expr) : Prop :=
  match n with
  | NULL => True
  | Node t u ps _ =>
      (is_function_kind (TYPE_MASK t) || is_closure_kind (TYPE_MASK t) = true ->
       storage_free R (u_function u))
      /\ fold_right (fun c rest => calls_storage_free R c /\ rest) True ps
  end.

(** The operators and right operands that a loop of binary operators
    reads, in the order of the text.  While the current token satisfies
    [cond], its function is the operator; the token is passed, [operand]
    reads the right operand from there, and the loop goes on from the
    world that [operand] leaves, after the allocation of the node.  [w']
    is the world at the first token that does not satisfy [cond]. *)
Inductive operands_read (cond : state -> bool) (fn : state -> ptr)
          (operand : nat -> M tx_expr)
  : world -> list (ptr * tx_expr) -> world -> Prop :=
| operands_done w :
    cond (st w) = false ->
    operands_read cond fn operand w [] w
| operands_more w p w1 w2 items w' :
    cond (st w) = true ->
    returns operand (after_token w) p w1 -> is_null p = false ->
    malloc w1 = Some (true, w2) ->
    operands_read cond fn operand w2 items w' ->
    operands_read cond fn operand w ((fn (st w), p) :: items) w'.

(** The binary node of an operator over the tree so far and a right
    operand. *)
Definition node_over (tree : tx_expr) (item : ptr * tx_expr) : tx_expr :=
  Node PURE2 (eu_function (fst item)) [tree; snd item] P_null.

(** A level of the grammar: from [w], [operand] reads [first], the loop
    reads [items], and the tree is the operators applied from the left,
    each to the tree so far and its right operand. *)
Definition folds_left (cond : state -> bool) (fn : state -> ptr)
           (operand : nat -> M tx_expr) (ok : ptr -> Prop)
           (w : world) (r : tx_expr) (w' : world) : Prop :=
  exists first w0 items,
    returns operand w first w0
    /\ operands_read cond fn operand w0 items w'
    /\ Forall (fun item => ok (fst item)) items
    /\ r = fold_left node_over items first.

(** The same for a loop entered with the tree [ret], when what it
    returns is a node. *)
Definition loop_reads (cond : state -> bool) (fn : state -> ptr)
           (operand : nat -> M tx_expr) (ok : ptr -> Prop)
           (ret : tx_expr) (w : world) (r : tx_expr) (w' : world) : Prop :=
  is_null r = false ->
  exists items,
    operands_read cond fn operand w items w'
    /\ Forall (fun item => ok (fst item)) items
    /\ r = fold_left node_over items ret.

(** What a production returns from a world does not depend on the
    nesting budget. *)
Definition single_valued (production : nat -> M tx_expr) : Prop :=
  forall w a w1 b w2,
    returns production w a w1 -> returns production w b w2 -> a = b /\ w1 = w2.

(** The operators of each level of the grammar. *)
Definition power_operator (f : ptr) : Prop := f = P_fun f_cpow.
Definition product_operator (f : ptr) : Prop := f = P_fun f_mul \/ f = P_fun f_divide.
Definition sum_operator (f : ptr) : Prop := f = P_fun f_add \/ f = P_fun f_sub.
Definition comma_operator (f : ptr) : Prop := f = P_fun f_comma.

(** ** Where the nodes of a tree come from *)


(** The nodes that the grammar makes for its operators. *)
Definition operator_node (t : Z) (f : ptr) : Prop :=
  (t = PURE2 /\ (sum_operator f \/ product_operator f \/ power_operator f
                 \/ comma_operator f))
  \/ (t = PURE1 /\ f = P_fun f_negate).

Definition call_kind (t : Z) : bool :=
  is_function_kind (TYPE_MASK t) || is_closure_kind (TYPE_MASK t).

Section Origin.

(** The entries that identifiers can resolve to. *)
Variable table : list tx_variable.

(** A call of an entry of the table: its type, its address and, for a
    closure, its context. *)
Definition call_of_entry (t : Z) (f ctx : ptr) : Prop :=
  exists var,
    In var table /\ v_type var = t /\ call_kind t = true /\ v_address var = f
    /\ ctx = (if IS_CLOSURE t then v_context var else P_null).

Definition variable_of_entry (p : ptr) : Prop :=
  exists var,
    In var table /\ TYPE_MASK (v_type var) = TX_VARIABLE /\ v_address var = p.

(** Every node is a value, a reference to a variable of the table, a call
    of an entry of the table, or an operator. *)
Fixpoint made_from (n : tx_expr) : Prop :=
  match n with
  | NULL => True
  | Node t u ps ctx =>
      match u with
      | eu_value _ => True
      | eu_bound p => t = TX_VARIABLE /\ variable_of_entry p
      | eu_function f => (operator_node t f /\ ctx = P_null) \/ call_of_entry t f ctx
      end
      /\ fold_right (fun c rest => made_from c /\ rest) True ps
  end.

(** The current token, when it is a variable or a call, is one of an
    entry of the table. *)
Definition token_from (s : state) : Prop :=
  (TYPE_MASK (type s) = TOK_VARIABLE ->
   exists var,
     In var table /\ TYPE_MASK (v_type var) = TX_VARIABLE
     /\ tok s = tu_bound (v_address var))
  /\ (call_kind (type s) = true ->
      exists var,
        In var table /\ v_type var = type s /\ tok s = tu_function (v_address var)
        /\ (IS_CLOSURE (type s) = true -> context s = v_context var)).

End Origin.

(** The state of a tokenizer that was set up with these bindings. *)
Definition tokenizer_of (variables : option (list tx_variable)) (var_count : Z)
           (s : state) : Prop :=
  visible (lookup s) (lookup_len s) = visible variables var_count
  /\ token_from (visible variables var_count ++ functions) s.

(** Productions that keep the tokenizer within the table and build trees
    from it. *)
Section Makes.

Variable variables : option (list tx_variable).
Variable var_count : Z.

Definition made (n : tx_expr) : Prop :=
  made_from (visible variables var_count ++ functions) n.

Definition makes (c : M tx_expr) : Prop :=
  forall w, tokenizer_of variables var_count (st w) ->
    wp c (fun r w' => tokenizer_of variables var_count (st w') /\ made r) w.

Definition makes_loop (loop : tx_expr -> M tx_expr) : Prop :=
  forall ret w, tokenizer_of variables var_count (st w) -> made ret ->
    wp (loop ret)
       (fun r w' => tokenizer_of variables var_count (st w') /\ made r) w.

Definition makes_arguments (arguments : Z -> tx_expr -> M (option (tx_expr * Z)))
  : Prop :=
  forall i ret w, tokenizer_of variables var_count (st w) -> made ret ->
    wp (arguments i ret)
       (fun r w' =>
          tokenizer_of variables var_count (st w')
          /\ match r with None => True | Some (n, _) => made n end) w.

End Makes.

(** ** Tokens *)

(** The characters that the tokenizer skips. *)
Definition isspace (c : ascii) : bool :=
  (Ascii.eqb c " " || Ascii.eqb c "009" || Ascii.eqb c "010" || Ascii.eqb c "013")%char.

Fixpoint all_space (s : string) : bool :=
  match s with
  | EmptyString => true
  | String c r => isspace c && all_space r
  end.

(** What the parser reads of the tokenizer: the type of the current token,
    its value, address or function, and the context. *)
Definition observed (s : state) : Z * tok_union * ptr := (type s, tok s, context s).

(** The tokens from the current one on are the same. *)
Definition same_tokens (s1 s2 : state) : Prop :=
  forall n : nat,
    observed (Nat.iter n tx_next_token s1) = observed (Nat.iter n tx_next_token s2).

(** The same state, [k] bytes further into a longer text. *)
Definition shift (k : nat) (s : state) : state :=
  mk_state (k + next_off s) (next s) (type s) (tok s) (context s) (lookup s)
           (lookup_len s) (k + tok_off s).

(** Worlds whose tokenizer states are related by [rel] and whose
    allocators are the same. *)
Definition same_worlds (rel : state -> state -> Prop) (w1 w2 : world) : Prop :=
  rel (st w1) (st w2) /\ heap w1 = heap w2 /\ oom w1 = oom w2.

(** [q] does on a related world what [p] does: it returns the same
    result, in a related world. *)
Definition simulates {A : Type} (rel : state -> state -> Prop) (p q : M A) : Prop :=
  forall w1 w2 r w1',
    same_worlds rel w1 w2 -> p w1 = Some (r, w1') ->
    exists w2', q w2 = Some (r, w2') /\ same_worlds rel w1' w2'.

(** ** Allocation *)

(** Every coming call of [malloc] for which the allocator holds an
    outcome succeeds. *)
Definition all_succeed (h : list bool) : bool := forallb (fun b => b) h.

(** The number of nodes that [tx_free] releases. *)
Definition frees (n : tx_expr) : nat := List.length (tx_free n).

(** From [w] to [w'] the allocator only went forward; and when it held
    only successes and did not run out, the result [r] is a node and the
    calls of [malloc] made are as many as the nodes that [tx_free]
    releases from [r], less the [before] that it releases from the trees
    that were there at the start. *)
Definition allocated (before : nat) (w : world) (r : tx_expr) (w' : world) : Prop :=
  (List.length (heap w') <= List.length (heap w))%nat
  /\ (all_succeed (heap w) = true -> (0 < List.length (heap w'))%nat ->
      all_succeed (heap w') = true /\ is_null r = false
      /\ (List.length (heap w) + before = List.length (heap w') + frees r)%nat).

Definition allocates (c : M tx_expr) : Prop :=
  forall w, wp c (allocated 0 w) w.

Definition allocates_loop (loop : tx_expr -> M tx_expr) : Prop :=
  forall ret w, is_null ret = false -> wp (loop ret) (allocated (frees ret) w) w.

(** A node whose child slots from [i] on are still empty, and of which
    [tx_free] releases all the children. *)
Definition open_from (i : nat) (n : tx_expr) : Prop :=
  match n with
  | NULL => False
  | Node t u ps ctx =>
      released_slots t = List.length ps
      /\ Forall (fun c => c = NULL) (skipn i ps)
  end.

Definition allocates_arguments (arity : Z)
           (arguments : Z -> tx_expr -> M (option (tx_expr * Z))) : Prop :=
  forall i ret w,
    0 <= i -> open_from (Z.to_nat i) ret ->
    Z.of_nat (List.length (children ret)) = arity ->
    wp (arguments i ret)
       (fun r w' =>
          (List.length (heap w') <= List.length (heap w))%nat
          /\ (all_succeed (heap w) = true -> (0 < List.length (heap w'))%nat ->
              all_succeed (heap w') = true
              /\ exists n i', r = Some (n, i') /\ is_null n = false
                 /\ (List.length (heap w) + frees ret
                     = List.length (heap w') + frees n)%nat)) w.

(** The same state but for the bindings, of which those that
    [find_lookup] scans are the same. *)
Definition same_visible (s1 s2 : state) : Prop :=
  next_off s1 = next_off s2 /\ next s1 = next s2 /\ type s1 = type s2
  /\ tok s1 = tok s2 /\ context s1 = context s2 /\ tok_off s1 = tok_off s2
  /\ visible (lookup s1) (lookup_len s1) = visible (lookup s2) (lookup_len s2).

(** [var_count] is a number of entries that the array has. *)
Definition in_bounds (variables : option (list tx_variable)) (var_count : Z) : Prop :=
  match variables with
  | None => True
  | Some vars => 0 <= var_count <= Z.of_nat (List.length vars)
  end.

(** The token at which no operand can start and at which the parser
    stops: the end of the text, or an error. *)
Definition stops (s : state) : bool := (type s =? TOK_ERROR) || (type s =? TOK_END).

(** From a token at which the parser stops, a production returns with the
    cursor where it was and a token at which the parser stops: the error
    token, when the result is a node. *)
Definition stopped (c : M tx_expr) : Prop :=
  forall w, stops (st w) = true ->
    wp c (fun r w' =>
            next_off (st w') = next_off (st w) /\ next (st w') = next (st w)
            /\ stops (st w') = true
            /\ (is_null r = false -> type (st w') = TOK_ERROR)) w.

(** When the current token is the end of the text, the cursor stands at
    the terminating NUL. *)
Definition at_end (s : state) : Prop := type s = TOK_END -> peek (next s) = NUL.

(** * The tokenizer makes progress *)

Lemma tl_length (s : string) : (String.length (tl s) <= String.length s)%nat.
Proof. destruct s; simpl; lia. Qed.

Lemma tl_length_lt (s : string) :
  peek s <> NUL -> (String.length (tl s) < String.length s)%nat.
Proof. destruct s; simpl; [congruence | lia]. Qed.

Lemma peek_eqb_nonempty (s : string) (c : ascii) :
  Ascii.eqb (peek s) c = true -> c <> NUL ->
  (String.length (tl s) < String.length s)%nat.
Proof.
  intros H Hc. apply tl_length_lt. apply Ascii.eqb_eq in H. congruence.
Qed.

Module StrtodFacts.
Import Strtod.

Lemma digits_length b isd val s : forall acc cnt,
  (String.length (snd (digits b isd val s acc cnt)) <= String.length s)%nat.
Proof.
  induction s as [|c r IH]; intros acc cnt; simpl; [lia|].
  destruct (isd c); simpl; [|lia].
  specialize (IH (b * acc + val c) (S cnt)). lia.
Qed.

Lemma exponent_length lo up s :
  (String.length (snd (exponent lo up s)) <= String.length s)%nat.
Proof.
  unfold exponent.
  destruct (Ascii.eqb (peek s) lo || Ascii.eqb (peek s) up); simpl; [|lia].
  set (s1 := tl s).
  assert (H1 : (String.length s1 <= String.length s)%nat) by apply tl_length.
  assert (H2 : (String.length (tl s1) <= String.length s1)%nat) by apply tl_length.
  destruct (Ascii.eqb (peek s1) "-").
  - pose proof (digits_length 10 isdigit digit_val (tl s1) 0 O) as Hd.
    destruct (digits 10 isdigit digit_val (tl s1) 0 0) as [[e n] s3].
    destruct n; simpl in *; lia.
  - destruct (Ascii.eqb (peek s1) "+").
    + pose proof (digits_length 10 isdigit digit_val (tl s1) 0 O) as Hd.
      destruct (digits 10 isdigit digit_val (tl s1) 0 0) as [[e n] s3].
      destruct n; simpl in *; lia.
    + pose proof (digits_length 10 isdigit digit_val s1 0 O) as Hd.
      destruct (digits 10 isdigit digit_val s1 0 0) as [[e n] s3].
      destruct n; simpl in *; lia.
Qed.

Lemma mantissa_length b isd val s :
  (String.length (snd (mantissa b isd val s)) <= String.length s)%nat.
Proof.
  unfold mantissa.
  pose proof (digits_length b isd val s 0 O) as H1.
  destruct (digits b isd val s 0 0) as [[m1 n1] s1]. simpl in H1.
  destruct (Ascii.eqb (peek s1) "."); simpl; [|lia].
  pose proof (digits_length b isd val (tl s1) m1 O) as H2.
  pose proof (tl_length s1).
  destruct (digits b isd val (tl s1) m1 0) as [[m2 n2] s2]. simpl in *. lia.
Qed.

Lemma decimal_length s :
  (String.length (snd (decimal s)) <= String.length s)%nat.
Proof.
  unfold decimal.
  pose proof (mantissa_length 10 isdigit digit_val s) as H1.
  destruct (mantissa 10 isdigit digit_val s) as [[[m n1] n2] s1]. simpl in H1.
  destruct (n1 + n2)%nat; simpl; [lia|].
  pose proof (exponent_length "e" "E" s1) as H2.
  destruct (exponent "e" "E" s1) as [e s2]. simpl in *. lia.
Qed.

Lemma hexadecimal_length s v r :
  hexadecimal s = Some (v, r) -> (String.length r <= String.length s)%nat.
Proof.
  unfold hexadecimal. destruct (hex_prefix s); [|discriminate].
  pose proof (mantissa_length 16 isxdigit xdigit_val (tl (tl s))) as H1.
  pose proof (tl_length s). pose proof (tl_length (tl s)).
  destruct (mantissa 16 isxdigit xdigit_val (tl (tl s))) as [[[m n1] n2] s1].
  simpl in H1. destruct (n1 + n2)%nat; [discriminate|].
  pose proof (exponent_length "p" "P" s1) as H2.
  destruct (exponent "p" "P" s1) as [e s2]. simpl in *.
  intros E; inversion E; subst. lia.
Qed.

Lemma strtod_length s :
  (String.length (snd (Strtod.strtod s)) <= String.length s)%nat.
Proof.
  unfold Strtod.strtod. destruct (hexadecimal s) as [[v r]|] eqn:E.
  - simpl. eapply hexadecimal_length; eauto.
  - apply decimal_length.
Qed.
End StrtodFacts.

Lemma ident_end_length (s : string) :
  (String.length (ident_end s) <= String.length s)%nat.
Proof.
  induction s as [|c r IH]; simpl; [lia|].
  destruct (isident c); simpl; lia.
Qed.

Lemma ident_end_progress (s : string) :
  isalpha (peek s) = true ->
  (String.length (ident_end s) < String.length s)%nat.
Proof.
  destruct s as [|c r]; simpl.
  - vm_compute. discriminate.
  - intros H. unfold isident. rewrite H. simpl.
    pose proof (ident_end_length r). lia.
Qed.


Lemma scan_length (s : state) :
  (String.length (next (scan s)) <= String.length (next s))%nat.
Proof.
  unfold scan. cbv zeta.
  change (next (mark s)) with (next s).
  destruct (Ascii.eqb (peek (next s)) NUL); [simpl; lia|].
  destruct (isdigit (peek (next s)) || Ascii.eqb (peek (next s)) ".").
  - pose proof (StrtodFacts.strtod_length (next s)) as H.
    unfold strtod. destruct (Strtod.strtod (next s)) as [v r]. simpl in H.
    pose proof (tl_length r).
    destruct (Ascii.eqb (peek r) "I"); simpl; lia.
  - destruct (isalpha (peek (next s))).
    + pose proof (ident_end_length (next s)).
      match goal with |- context [resolve ?a ?b ?c] => destruct (resolve a b c) as [var|] end;
        [|simpl; lia].
      destruct (TYPE_MASK (v_type var) =? TX_VARIABLE); [simpl; lia|].
      destruct (is_closure_kind (TYPE_MASK (v_type var))); [simpl; lia|].
      destruct (is_function_kind (TYPE_MASK (v_type var))); simpl; lia.
    + pose proof (tl_length (next s)).
      destruct (peek (next s)) as [[] [] [] [] [] [] [] []]; simpl; lia.
Qed.

Lemma scan_progress (s : state) :
  type (scan s) <> TOK_END -> type (scan s) <> TOK_NUMBER_R ->
  (String.length (next (scan s)) < String.length (next s))%nat.
Proof.
  unfold scan. cbv zeta.
  change (next (mark s)) with (next s).
  destruct (Ascii.eqb (peek (next s)) NUL) eqn:Enul; [simpl; congruence|].
  assert (Hne : peek (next s) <> NUL).
  { intro E. rewrite E in Enul. discriminate. }
  pose proof (tl_length_lt _ Hne) as Htl.
  destruct (isdigit (peek (next s)) || Ascii.eqb (peek (next s)) ".").
  - pose proof (StrtodFacts.strtod_length (next s)) as H.
    unfold strtod. destruct (Strtod.strtod (next s)) as [v r]. simpl in H.
    destruct (Ascii.eqb (peek r) "I") eqn:EI.
    + intros _ _. simpl.
      assert ((String.length (tl r) < String.length r)%nat).
      { eapply peek_eqb_nonempty; eauto. discriminate. }
      lia.
    + simpl. congruence.
  - destruct (isalpha (peek (next s))) eqn:Ea.
    + pose proof (ident_end_progress (next s) Ea).
      intros _ _.
      match goal with |- context [resolve ?a ?b ?c] => destruct (resolve a b c) as [var|] end;
        [|simpl; lia].
      destruct (TYPE_MASK (v_type var) =? TX_VARIABLE); [simpl; lia|].
      destruct (is_closure_kind (TYPE_MASK (v_type var))); [simpl; lia|].
      destruct (is_function_kind (TYPE_MASK (v_type var))); simpl; lia.
    + intros _ _.
      destruct (peek (next s)) as [[] [] [] [] [] [] [] []]; simpl; lia.
Qed.

Lemma next_token_loop_spec : forall fuel s,
  (String.length (next s) < fuel)%nat ->
  let s' := next_token_loop fuel s in
  (String.length (next s') <= String.length (next s))%nat
  /\ (type s' <> TOK_END -> type s' <> TOK_NUMBER_R ->
      (String.length (next s') < String.length (next s))%nat)
  /\ type s' <> TOK_NULL.
Proof.
  induction fuel as [|fuel IH]; intros s Hf; [lia|].
  simpl.
  pose proof (scan_length s) as Hl.
  destruct (type (scan s) =? TOK_NULL) eqn:E.
  - apply Z.eqb_eq in E.
    assert (Hp : (String.length (next (scan s)) < String.length (next s))%nat).
    { apply scan_progress; rewrite E; discriminate. }
    destruct (IH (scan s)) as (H1 & H2 & H3); [lia|].
    repeat split; [lia | intros; lia | assumption].
  - apply Z.eqb_neq in E.
    repeat split; [assumption | apply scan_progress | assumption].
Qed.

Lemma tx_next_token_spec (s : state) :
  let s' := tx_next_token s in
  (String.length (next s') <= String.length (next s))%nat
  /\ (live (type s') = true ->
      (String.length (next s') < String.length (next s))%nat)
  /\ type s' <> TOK_NULL.
Proof.
  unfold tx_next_token.
  destruct (next_token_loop_spec (S (String.length (next s))) (with_type s TOK_NULL))
    as (H1 & H2 & H3); [simpl; lia|].
  simpl in H1, H2. repeat split; [assumption | | assumption].
  unfold live. intros Hl.
  apply andb_prop in Hl as [Hl _]. apply andb_prop in Hl as [Ha Hb].
  apply negb_true_iff in Ha, Hb. apply Z.eqb_neq in Ha, Hb.
  apply H2; assumption.
Qed.

(** ** Weakest preconditions for parser computations *)



(** * Reasoning about parser computations *)

Lemma twp_bind {A B} (c : M A) (k : A -> M B) Q w :
  twp c (fun a w' => twp (k a) Q w') w -> twp (Bind c k) Q w.
Proof. unfold twp, Bind. destruct (c w) as [[a w']|]; auto. Qed.


Lemma twp_mono {A} (c : M A) (Q Q' : A -> world -> Prop) w :
  twp c Q w -> (forall a w', Q a w' -> Q' a w') -> twp c Q' w.
Proof. unfold twp. destruct (c w) as [[a w']|]; auto. Qed.


Lemma twp_run {A} (c : M A) Q w :
  twp c Q w -> exists a w', c w = Some (a, w') /\ Q a w'.
Proof. unfold twp. destruct (c w) as [[a w']|]; [eauto | tauto]. Qed.


(** What [new_expr] does to the world: the tokenizer state is untouched;
    either the call of [malloc] fails, the result is null and the failure
    is on record, or the node is built and the record stays as it was. *)

Lemma new_expr_spec (t : Z) (ps : option (list tx_expr)) (w : world) :
  exists r w',
    new_expr t ps w = Some (r, w') /\ st w' = st w
    /\ ((r = NULL /\ oom w' = true)
        \/ (r = Node t (eu_bound P_null) (new_expr_children t ps) P_null
            /\ oom w' = oom w)).
Proof.
  unfold new_expr, Bind, malloc, new_expr_children, Ret.
  destruct (heap w) as [|[] h].
  - do 2 eexists. split; [reflexivity|]. split; [reflexivity|]. right. split; reflexivity.
  - do 2 eexists. split; [reflexivity|]. split; [reflexivity|]. right. split; reflexivity.
  - do 2 eexists. split; [reflexivity|]. split; [reflexivity|]. left. split; reflexivity.
Qed.

Lemma twp_new_expr t ps (Q : tx_expr -> world -> Prop) w :
  (forall r w', st w' = st w ->
     (r = NULL /\ oom w' = true)
     \/ (r = Node t (eu_bound P_null) (new_expr_children t ps) P_null
         /\ oom w' = oom w) ->
     Q r w') ->
  twp (new_expr t ps) Q w.
Proof.
  intros H. destruct (new_expr_spec t ps w) as (r & w' & E & Hs & Hr).
  unfold twp. rewrite E. auto.
Qed.


(** ** Termination of the parser *)


Lemma mu_next_token (s : state) :
  (mu_state (tx_next_token s) <= 2 * String.length (next s))%nat.
Proof.
  destruct (tx_next_token_spec s) as (H1 & H2 & _).
  unfold mu_state. destruct (live (type (tx_next_token s))); [|lia].
  specialize (H2 eq_refl). lia.
Qed.

Lemma mu_next_token_le (s : state) : (mu_state (tx_next_token s) <= mu_state s)%nat.
Proof. pose proof (mu_next_token s). unfold mu_state at 2. lia. Qed.

Lemma mu_next_token_lt (s : state) :
  live (type s) = true -> (mu_state (tx_next_token s) < mu_state s)%nat.
Proof.
  intros H. pose proof (mu_next_token s). unfold mu_state at 2. rewrite H. lia.
Qed.

Lemma mu_set_error (s : state) : (mu_state (with_type s TOK_ERROR) <= mu_state s)%nat.
Proof. unfold mu_state. simpl. lia. Qed.

Lemma twp_ret {A} (a : A) (Q : A -> world -> Prop) w : Q a w -> twp (Ret a) Q w.
Proof. exact (fun H => H). Qed.

Lemma twp_get_state (Q : state -> world -> Prop) w : Q (st w) w -> twp get_state Q w.
Proof. exact (fun H => H). Qed.

Lemma twp_next_token (Q : unit -> world -> Prop) w :
  Q tt (mk_world (tx_next_token (st w)) (heap w) (oom w)) -> twp next_token Q w.
Proof. exact (fun H => H). Qed.

Lemma twp_set_error (Q : unit -> world -> Prop) w :
  Q tt (mk_world (with_type (st w) TOK_ERROR) (heap w) (oom w)) -> twp set_error Q w.
Proof. exact (fun H => H). Qed.

Lemma twp_check_null (p : tx_expr) (k : M tx_expr) Q w :
  (p = NULL -> Q NULL w) -> (is_null p = false -> twp k Q w) ->
  twp (CHECK_NULL p k) Q w.
Proof.
  intros H1 H2. unfold CHECK_NULL. destruct p; simpl.
  - apply H1. reflexivity.
  - apply H2. reflexivity.
Qed.

Lemma is_sign_live s : is_sign s = true -> live (type s) = true.
Proof.
  unfold is_sign. intros H. apply andb_prop in H as [H _].
  apply Z.eqb_eq in H. rewrite H. reflexivity.
Qed.
Lemma is_pow_live s : is_pow s = true -> live (type s) = true.
Proof.
  unfold is_pow. intros H. apply andb_prop in H as [H _].
  apply Z.eqb_eq in H. rewrite H. reflexivity.
Qed.
Lemma is_mul_div_live s : is_mul_div s = true -> live (type s) = true.
Proof.
  unfold is_mul_div. intros H. apply andb_prop in H as [H _].
  apply Z.eqb_eq in H. rewrite H. reflexivity.
Qed.
Lemma is_sep_live s : is_sep s = true -> live (type s) = true.
Proof. unfold is_sep. intros H. apply Z.eqb_eq in H. rewrite H. reflexivity. Qed.

(** A token that is not live has one of three kinds, none of which starts
    a call or a bracket. *)
Lemma not_live_mask (t : Z) :
  live t = false ->
  TYPE_MASK t = TOK_END \/ TYPE_MASK t = TOK_NUMBER_R \/ TYPE_MASK t = TOK_ERROR.
Proof.
  unfold live. intros H.
  destruct (t =? TOK_END) eqn:E1; [apply Z.eqb_eq in E1; subst; auto|].
  destruct (t =? TOK_NUMBER_R) eqn:E2; [apply Z.eqb_eq in E2; subst; auto|].
  destruct (t =? TOK_ERROR) eqn:E3; [apply Z.eqb_eq in E3; subst; auto|].
  discriminate.
Qed.

Lemma mu_same_state w w' : st w' = st w -> mu w' = mu w.
Proof. unfold mu. congruence. Qed.

Lemma mask_live (t : Z) (f : Z -> bool) :
  f (TYPE_MASK t) = true ->
  f TOK_END = false -> f TOK_NUMBER_R = false -> f TOK_ERROR = false ->
  live t = true.
Proof.
  intros H H1 H2 H3. destruct (live t) eqn:E; [reflexivity|].
  destruct (not_live_mask t E) as [M|[M|M]]; rewrite M in H; congruence.
Qed.


Lemma set_parameter_not_null n i e :
  is_null n = false -> is_null (set_parameter n i e) = false.
Proof. destruct n; simpl; congruence. Qed.

(** ** The parser returns, and what every run preserves

    For an invariant [Inv] of the tokenizer state that [tx_next_token] and
    the assignment [s->type = TOK_ERROR] preserve, every production, given
    the budget below, returns; the measure has not grown; [Inv] still
    holds; and a failure of [malloc] is on record at the end exactly when
    it was already or the production comes back with a null result. *)
Section Runs.

Variable Inv : state -> Prop.
Hypothesis Inv_next : forall s, Inv s -> Inv (tx_next_token s).
Hypothesis Inv_error : forall s, Inv s -> Inv (with_type s TOK_ERROR).


Lemma reach_refl w : Inv (st w) -> reach Inv w w.
Proof. unfold reach. auto. Qed.

Lemma reach_next w w1 :
  reach Inv w w1 -> reach Inv w (mk_world (tx_next_token (st w1)) (heap w1) (oom w1)).
Proof.
  intros (H1 & H2 & H3). pose proof (mu_next_token_le (st w1)).
  unfold reach, mu in *. simpl. auto with zarith.
Qed.

Lemma reach_error w w1 :
  reach Inv w w1 -> reach Inv w (mk_world (with_type (st w1) TOK_ERROR) (heap w1) (oom w1)).
Proof.
  intros (H1 & H2 & H3). pose proof (mu_set_error (st w1)).
  unfold reach, mu in *. simpl. auto with zarith.
Qed.

Lemma reach_post {A} (null : A -> bool) w w1 r w2 :
  reach Inv w w1 -> post Inv null w1 r w2 -> post Inv null w r w2.
Proof.
  intros (H1 & H2 & H3) (K1 & K2 & K3). unfold post.
  rewrite <- H3. auto with zarith.
Qed.

Lemma post_reach {A} (null : A -> bool) w r w1 :
  post Inv null w r w1 -> null r = false -> reach Inv w w1.
Proof.
  intros (H1 & H2 & H3) Hn. rewrite Hn, orb_false_r in H3.
  unfold reach. auto.
Qed.

Lemma reach_ret {A} (null : A -> bool) w w1 (r : A) :
  reach Inv w w1 -> null r = false -> post Inv null w r w1.
Proof.
  intros (H1 & H2 & H3) Hn. unfold post. rewrite Hn, orb_false_r. auto.
Qed.

(** A null result passed on to the caller. *)
Lemma post_null {A} (null : A -> bool) (r : A) w w1 :
  post Inv is_null w NULL w1 -> null r = true -> post Inv null w r w1.
Proof.
  intros (H1 & H2 & H3) Hn. unfold post. rewrite Hn.
  simpl in H3. auto.
Qed.

Lemma reach_mu w w1 : reach Inv w w1 -> (mu w1 <= mu w)%nat.
Proof. intros (H & _). exact H. Qed.

Lemma reach_inv w w1 : reach Inv w w1 -> Inv (st w1).
Proof. intros (_ & H & _). exact H. Qed.

(** [new_expr] from a world reached without failure. *)
Lemma twp_new_expr_reach t ps (Q : tx_expr -> world -> Prop) w w1 :
  reach Inv w w1 ->
  (forall w2, post Inv is_null w NULL w2 -> Q NULL w2) ->
  (forall w2, reach Inv w w2 -> st w2 = st w1 ->
     Q (Node t (eu_bound P_null) (new_expr_children t ps) P_null) w2) ->
  twp (new_expr t ps) Q w1.
Proof.
  intros (H1 & H2 & H3) Hnull Hnode. apply twp_new_expr.
  intros r w2 Hs [[-> Ho]|[-> Ho]].
  - apply Hnull. unfold post, mu. rewrite Hs, Ho.
    simpl. rewrite orb_true_r. auto.
  - apply Hnode; [|exact Hs]. unfold reach, mu. rewrite Hs, Ho. auto.
Qed.

Lemma twp_call {A} (null : A -> bool) (c : M A) (Q : A -> world -> Prop) w w1 :
  reach Inv w w1 -> runs Inv null c w1 ->
  (forall r w2, post Inv null w r w2 -> (mu w2 <= mu w1)%nat -> Q r w2) ->
  twp c Q w1.
Proof.
  intros Hr Hc HQ. eapply twp_mono; [apply Hc, (reach_inv _ _ Hr)|].
  intros r w2 Hp. apply HQ; [eapply reach_post; eauto | apply Hp].
Qed.

Lemma expect_close_reach (Q : unit -> world -> Prop) w w1 :
  reach Inv w w1 -> (forall w2, reach Inv w w2 -> Q tt w2) -> twp expect_close Q w1.
Proof.
  intros Hr HQ. unfold expect_close. apply twp_bind, twp_get_state.
  destruct (negb (type (st w1) =? TOK_CLOSE)).
  - apply twp_set_error, HQ, reach_error, Hr.
  - apply twp_next_token, HQ, reach_next, Hr.
Qed.

Lemma live_next_lt w w1 :
  reach Inv w w1 -> live (type (st w1)) = true ->
  (mu (mk_world (tx_next_token (st w1)) (heap w1) (oom w1)) < mu w)%nat.
Proof.
  intros Hr Hl. pose proof (reach_mu _ _ Hr).
  pose proof (mu_next_token_lt (st w1) Hl). unfold mu in *. simpl. lia.
Qed.

Lemma binary_loop_runs cond fn operand again ret w :
  (forall s, cond s = true -> live (type s) = true) ->
  (forall w1, (mu w1 < mu w)%nat -> runs Inv is_null operand w1) ->
  (forall r w1, (mu w1 < mu w)%nat -> is_null r = false ->
                runs Inv is_null (again r) w1) ->
  is_null ret = false ->
  runs Inv is_null (binary_loop cond fn operand again ret) w.
Proof.
  intros Hc Ho Ha Hret HI. unfold binary_loop.
  pose proof (reach_refl w HI) as R0.
  apply twp_bind, twp_get_state.
  destruct (cond (st w)) eqn:E; [|apply twp_ret, reach_ret; assumption].
  apply twp_bind, twp_next_token.
  pose proof (live_next_lt _ _ R0 (Hc _ E)) as Hlt.
  pose proof (reach_next _ _ R0) as R1.
  set (w1 := mk_world (tx_next_token (st w)) _ _) in *.
  apply twp_bind. apply (twp_call is_null _ _ w w1 R1); [apply Ho, Hlt|].
  intros p w2 P2 M2.
  apply twp_check_null; [intros ->; exact P2|]. intros Hp.
  pose proof (post_reach _ _ _ _ P2 Hp) as R2.
  apply twp_bind. apply (twp_new_expr_reach _ _ _ w w2 R2).
  { intros w3 P3. exact P3. }
  intros w3 R3 Hs. simpl.
  apply (twp_call is_null _ _ w w3 R3); [|auto].
  apply Ha; [|reflexivity].
  pose proof (mu_same_state _ _ Hs). lia.
Qed.

Lemma binary_head_runs operand loop w :
  runs Inv is_null operand w ->
  (forall ret w1, (mu w1 <= mu w)%nat -> is_null ret = false ->
                  runs Inv is_null (loop ret) w1) ->
  runs Inv is_null (binary_head operand loop) w.
Proof.
  intros Ho Hl HI. unfold binary_head.
  pose proof (reach_refl w HI) as R0.
  apply twp_bind. apply (twp_call is_null _ _ w w R0 Ho).
  intros p w1 P1 _.
  apply twp_check_null; [intros ->; exact P1|]. intros Hp.
  pose proof (post_reach _ _ _ _ P1 Hp) as R1.
  apply (twp_call is_null _ _ w w1 R1); [|auto].
  apply Hl; [apply (reach_mu _ _ R1) | exact Hp].
Qed.

Lemma signs_body_runs again sign w :
  (forall sg w1, (mu w1 < mu w)%nat -> runs Inv no_null (again sg) w1) ->
  runs Inv no_null (signs_body again sign) w.
Proof.
  intros Ha HI. unfold signs_body.
  pose proof (reach_refl w HI) as R0.
  apply twp_bind, twp_get_state.
  destruct (is_sign (st w)) eqn:E; [|apply twp_ret, reach_ret; auto].
  apply twp_bind, twp_next_token.
  pose proof (live_next_lt _ _ R0 (is_sign_live _ E)) as Hlt.
  pose proof (reach_next _ _ R0) as R1.
  apply (twp_call no_null _ _ w _ R1); [apply Ha, Hlt | auto].
Qed.

Lemma power_body_runs signs base w :
  runs Inv no_null signs w ->
  (forall w1, (mu w1 <= mu w)%nat -> runs Inv is_null base w1) ->
  runs Inv is_null (power_body signs base) w.
Proof.
  intros Hs Hb HI. unfold power_body.
  pose proof (reach_refl w HI) as R0.
  apply twp_bind. apply (twp_call no_null _ _ w w R0 Hs).
  intros sign w1 P1 _.
  pose proof (post_reach _ _ _ _ P1 eq_refl) as R1.
  destruct (sign =? 1).
  - apply (twp_call is_null _ _ w w1 R1); [apply Hb, (reach_mu _ _ R1) | auto].
  - apply twp_bind.
    apply (twp_call is_null _ _ w w1 R1); [apply Hb, (reach_mu _ _ R1)|].
    intros b w2 P2 _.
    apply twp_check_null; [intros ->; exact P2|]. intros Hp.
    pose proof (post_reach _ _ _ _ P2 Hp) as R2.
    apply twp_bind. apply (twp_new_expr_reach _ _ _ w w2 R2).
    { intros w3 P3. exact P3. }
    intros w3 R3 Hst. simpl. apply reach_ret; auto.
Qed.

Lemma post_next {A} (null : A -> bool) w r w1 :
  post Inv null w r w1 ->
  post Inv null w r (mk_world (tx_next_token (st w1)) (heap w1) (oom w1)).
Proof.
  intros (H1 & H2 & H3). pose proof (mu_next_token_le (st w1)).
  unfold post, mu in *. simpl. auto with zarith.
Qed.

Lemma post_error {A} (null : A -> bool) w r w1 :
  post Inv null w r w1 ->
  post Inv null w r (mk_world (with_type (st w1) TOK_ERROR) (heap w1) (oom w1)).
Proof.
  intros (H1 & H2 & H3). pose proof (mu_set_error (st w1)).
  unfold post, mu in *. simpl. auto with zarith.
Qed.

Lemma arguments_body_runs expr again arity i ret w :
  live (type (st w)) = true ->
  (forall w1, (mu w1 < mu w)%nat -> runs Inv is_null expr w1) ->
  (forall j r w1, (mu w1 < mu w)%nat -> live (type (st w1)) = true ->
                  is_null r = false -> runs Inv args_null (again j r) w1) ->
  is_null ret = false ->
  runs Inv args_null (arguments_body expr again arity i ret) w.
Proof.
  intros Hl He Ha Hret HI. unfold arguments_body.
  pose proof (reach_refl w HI) as R0.
  destruct (i <? arity); [|apply twp_ret, reach_ret; auto].
  apply twp_bind, twp_next_token.
  pose proof (live_next_lt _ _ R0 Hl) as Hlt.
  pose proof (reach_next _ _ R0) as R1.
  set (w1 := mk_world (tx_next_token (st w)) _ _) in *.
  apply twp_bind. apply (twp_call is_null _ _ w w1 R1); [apply He, Hlt|].
  intros p w2 P2 M2.
  destruct (is_null p) eqn:Hp.
  { apply twp_ret. destruct p; [|discriminate].
    apply (post_null args_null None _ _ P2 eq_refl). }
  pose proof (post_reach _ _ _ _ P2 Hp) as R2.
  apply twp_bind, twp_get_state.
  pose proof (set_parameter_not_null ret i p Hret) as Hset.
  destruct (negb (type (st w2) =? TOK_SEP)) eqn:E; [apply twp_ret, reach_ret; auto|].
  apply negb_false_iff, Z.eqb_eq in E.
  apply (twp_call args_null _ _ w w2 R2); [|auto].
  apply Ha; [lia | rewrite E; reflexivity | exact Hset].
Qed.

Lemma base_body_runs power arguments list w :
  (forall w1, (mu w1 < mu w)%nat -> runs Inv is_null power w1) ->
  (forall arity r w1, (mu w1 < mu w)%nat -> live (type (st w1)) = true ->
                      is_null r = false -> runs Inv args_null (arguments arity 0 r) w1) ->
  (forall w1, (mu w1 < mu w)%nat -> runs Inv is_null list w1) ->
  runs Inv is_null (base_body power arguments list) w.
Proof.
  intros Hp Ha Hl HI. unfold base_body.
  pose proof (reach_refl w HI) as R0.
  apply twp_bind, twp_get_state. cbv zeta.
  assert (Hleaf : forall t (f : tx_expr -> tx_expr),
    (forall n, is_null n = false -> is_null (f n) = false) ->
    twp (ret <- new_expr t None ;;
         CHECK_NULL ret (next_token ;;; Ret (f ret)))
        (post Inv is_null w) w).
  { intros t f Hf. apply twp_bind. apply (twp_new_expr_reach _ _ _ w w R0).
    { intros w2 P2. apply twp_check_null; [auto | discriminate]. }
    intros w2 R2 Hs.
    apply twp_check_null; [discriminate|]. intros _.
    apply twp_bind, twp_next_token, twp_ret, reach_ret;
      [apply reach_next, R2 | apply Hf; reflexivity]. }
  destruct (TYPE_MASK (type (st w)) =? TOK_NUMBER_R);
    [apply Hleaf; intros [] ?; simpl in *; congruence|].
  destruct (TYPE_MASK (type (st w)) =? TOK_NUMBER_I);
    [apply Hleaf; intros [] ?; simpl in *; congruence|].
  destruct (TYPE_MASK (type (st w)) =? TOK_VARIABLE);
    [apply Hleaf; intros [] ?; simpl in *; congruence|].
  destruct ((TYPE_MASK (type (st w)) =? TX_FUNCTION0)
            || (TYPE_MASK (type (st w)) =? TX_CLOSURE0)).
  { apply twp_bind. apply (twp_new_expr_reach _ _ _ w w R0).
    { intros w2 P2. apply twp_check_null; [auto | discriminate]. }
    intros w1 R1 Hs.
    apply twp_check_null; [discriminate|]. intros _. cbv zeta.
    apply twp_bind, twp_next_token.
    pose proof (reach_next _ _ R1) as R2.
    set (w2 := mk_world (tx_next_token (st w1)) _ _) in *.
    apply twp_bind, twp_get_state. apply twp_bind.
    assert (Hres : forall w3, reach Inv w w3 ->
      twp (Ret (set_context
                  (set_function
                     (Node (type (st w)) (eu_bound P_null)
                           (new_expr_children (type (st w)) None) P_null)
                     (s_function (st w))) (st w)))
          (post Inv is_null w) w3).
    { intros w3 R3. apply twp_ret, reach_ret; [exact R3|].
      simpl. destruct (IS_CLOSURE (type (st w))); reflexivity. }
    destruct (type (st w2) =? TOK_OPEN).
    - apply twp_bind, twp_next_token.
      apply (expect_close_reach _ w); [apply reach_next, R2|].
      intros w4 R4. apply Hres, R4.
    - apply twp_ret, Hres, R2. }
  destruct ((TYPE_MASK (type (st w)) =? TX_FUNCTION1)
            || (TYPE_MASK (type (st w)) =? TX_CLOSURE1)) eqn:E1.
  { assert (Hlive : live (type (st w)) = true).
    { apply (mask_live _ (fun k => (k =? TX_FUNCTION1) || (k =? TX_CLOSURE1)));
        [exact E1 | reflexivity..]. }
    apply twp_bind. apply (twp_new_expr_reach _ _ _ w w R0).
    { intros w2 P2. apply twp_check_null; [auto | discriminate]. }
    intros w1 R1 Hs.
    apply twp_check_null; [discriminate|]. intros _. cbv zeta.
    apply twp_bind, twp_next_token.
    assert (Hl1 : live (type (st w1)) = true) by (rewrite Hs; exact Hlive).
    pose proof (live_next_lt _ _ R1 Hl1) as Hlt.
    pose proof (reach_next _ _ R1) as R2.
    set (w2 := mk_world (tx_next_token (st w1)) _ _) in *.
    apply twp_bind. apply (twp_call is_null _ _ w w2 R2); [apply Hp, Hlt|].
    intros p w3 P3 _.
    apply twp_check_null; [intros ->; exact P3|]. intros Hnp.
    apply twp_ret, reach_ret; [apply (post_reach _ _ _ _ P3 Hnp)|].
    simpl. destruct (IS_CLOSURE (type (st w))); reflexivity. }
  destruct (is_function_kind (TYPE_MASK (type (st w)))
            || is_closure_kind (TYPE_MASK (type (st w)))) eqn:E2.
  { assert (Hlive : live (type (st w)) = true).
    { apply (mask_live _ (fun k => is_function_kind k || is_closure_kind k));
        [exact E2 | reflexivity..]. }
    apply twp_bind. apply (twp_new_expr_reach _ _ _ w w R0).
    { intros w2 P2. apply twp_check_null; [auto | discriminate]. }
    intros w1 R1 Hs.
    apply twp_check_null; [discriminate|]. intros _. cbv zeta.
    apply twp_bind, twp_next_token.
    assert (Hl1 : live (type (st w1)) = true) by (rewrite Hs; exact Hlive).
    pose proof (live_next_lt _ _ R1 Hl1) as Hlt.
    pose proof (reach_next _ _ R1) as R2.
    set (w2 := mk_world (tx_next_token (st w1)) _ _) in *.
    apply twp_bind, twp_get_state.
    set (node := set_context _ _).
    assert (Hnode : is_null node = false).
    { subst node. simpl. destruct (IS_CLOSURE (type (st w))); reflexivity. }
    destruct (negb (type (st w2) =? TOK_OPEN)) eqn:Eo.
    - apply twp_bind, twp_set_error, twp_ret, reach_ret;
        [apply reach_error, R2 | exact Hnode].
    - apply negb_false_iff, Z.eqb_eq in Eo.
      apply twp_bind. apply (twp_call args_null _ _ w w2 R2).
      { apply Ha; [exact Hlt | rewrite Eo; reflexivity | exact Hnode]. }
      intros [[r' i]|] w3 P3 _; [|apply twp_ret; exact P3].
      change (post Inv is_null w r' w3) in P3.
      apply twp_bind, twp_get_state. apply twp_bind.
      destruct (negb (type (st w3) =? TOK_CLOSE) || negb (i =? _)).
      + apply twp_set_error, twp_ret, post_error, P3.
      + apply twp_next_token, twp_ret, post_next, P3. }
  destruct (TYPE_MASK (type (st w)) =? TOK_OPEN) eqn:E3.
  { assert (Hlive : live (type (st w)) = true).
    { apply (mask_live _ (fun k => k =? TOK_OPEN)); [exact E3 | reflexivity..]. }
    apply twp_bind, twp_next_token.
    pose proof (live_next_lt _ _ R0 Hlive) as Hlt.
    pose proof (reach_next _ _ R0) as R1.
    set (w1 := mk_world (tx_next_token (st w)) _ _) in *.
    apply twp_bind. apply (twp_call is_null _ _ w w1 R1); [apply Hl, Hlt|].
    intros p w2 P2 _.
    apply twp_check_null; [intros ->; exact P2|]. intros Hnp.
    apply twp_bind.
    apply (expect_close_reach _ w); [apply (post_reach _ _ _ _ P2 Hnp)|].
    intros w3 R3. apply twp_ret, reach_ret; assumption. }
  apply twp_bind. apply (twp_new_expr_reach _ _ _ w w R0).
  { intros w2 P2. apply twp_check_null; [auto | discriminate]. }
  intros w1 R1 Hs.
  apply twp_check_null; [discriminate|]. intros _.
  apply twp_bind, twp_set_error, twp_ret, reach_ret;
    [apply reach_error, R1 | reflexivity].
Qed.

End Runs.

Section ParserRuns.

Variable Inv : state -> Prop.
Hypothesis Inv_next : forall s, Inv s -> Inv (tx_next_token s).
Hypothesis Inv_error : forall s, Inv s -> Inv (with_type s TOK_ERROR).

Lemma signs_runs : forall fuel sign w,
  (mu w < fuel)%nat -> runs Inv no_null (Grammar.signs fuel sign) w.
Proof.
  induction fuel as [|fuel IH]; intros sign w Hf; [lia|].
  simpl. apply signs_body_runs; [assumption|].
  intros sg w1 H1. apply IH. lia.
Qed.


Ltac need_fuel fuel :=
  destruct fuel as [|fuel]; [lia|]; simpl.

Lemma parser_runs : forall n w, (mu w < n)%nat -> runs_at Inv w.
Proof.
  induction n as [|n IH]; intros w Hw; [lia|].
  assert (Hbase : forall w, (mu w < S n)%nat -> forall fuel,
             (6 * mu w + 1 <= fuel)%nat -> runs Inv is_null (Grammar.base fuel) w).
  { intros v Hv fuel Hf. need_fuel fuel. apply base_body_runs; try assumption.
    - intros w1 H1. apply (IH w1); lia.
    - intros arity r w1 H1 Hl Hr. apply (IH w1); [lia | exact Hl | exact Hr | lia].
    - intros w1 H1. apply (IH w1); lia. }
  assert (Hargs : forall w, (mu w < S n)%nat -> forall fuel arity i ret,
             live (type (st w)) = true -> is_null ret = false ->
             (6 * mu w + 1 <= fuel)%nat ->
             runs Inv args_null (Grammar.arguments fuel arity i ret) w).
  { intros v Hv fuel arity i ret Hl Hr Hf. need_fuel fuel.
    apply arguments_body_runs; try assumption.
    - intros w1 H1. apply (IH w1); lia.
    - intros j r w1 H1 Hl1 Hr1. apply (IH w1); [lia | exact Hl1 | exact Hr1 | lia]. }
  assert (Hpower : forall w, (mu w < S n)%nat -> forall fuel,
             (6 * mu w + 2 <= fuel)%nat -> runs Inv is_null (Grammar.power fuel) w).
  { intros v Hv fuel Hf. need_fuel fuel. apply power_body_runs; try assumption.
    - apply signs_runs. lia.
    - intros w1 H1. apply Hbase; lia. }
  assert (Hloop : forall cond fn (operand : nat -> M tx_expr)
                         (loop : nat -> tx_expr -> M tx_expr) c,
             (forall s, cond s = true -> live (type s) = true) ->
             (forall w1 fuel, (mu w1 < n)%nat -> (6 * mu w1 + c <= fuel)%nat ->
                              runs Inv is_null (operand fuel) w1) ->
             (forall w1 fuel r, (mu w1 < n)%nat -> is_null r = false ->
                                (6 * mu w1 + 1 <= fuel)%nat ->
                                runs Inv is_null (loop fuel r) w1) ->
             (c <= 6)%nat ->
             forall w fuel ret, (mu w < S n)%nat -> (6 * mu w <= fuel)%nat ->
               is_null ret = false ->
               runs Inv is_null (binary_loop cond fn (operand fuel) (loop fuel) ret) w).
  { intros cond fn operand loop c Hc Ho Hl Hc6 v fuel ret Hv Hf Hr.
    apply binary_loop_runs; try assumption.
    - intros w1 H1. apply Ho; lia.
    - intros r w1 H1 Hr1. apply Hl; [lia | exact Hr1 | lia]. }
  assert (Hfl : forall w, (mu w < S n)%nat -> forall fuel ret,
             is_null ret = false -> (6 * mu w + 1 <= fuel)%nat ->
             runs Inv is_null (Grammar.factor_loop fuel ret) w).
  { intros v Hv fuel ret Hr Hf. need_fuel fuel.
    apply (Hloop is_pow s_function Grammar.power Grammar.factor_loop 2%nat);
      [apply is_pow_live | | | lia | lia | lia | exact Hr].
    - intros w1 f H1 Hf1. apply (IH w1); lia.
    - intros w1 f r H1 Hr1 Hf1. apply (IH w1); [lia | exact Hr1 | lia]. }
  assert (Hfactor : forall w, (mu w < S n)%nat -> forall fuel,
             (6 * mu w + 3 <= fuel)%nat -> runs Inv is_null (Grammar.factor fuel) w).
  { intros v Hv fuel Hf. need_fuel fuel. apply binary_head_runs.
    - apply Hpower; lia.
    - intros r w1 H1 Hr. apply Hfl; [lia | exact Hr | lia]. }
  assert (Htl : forall w, (mu w < S n)%nat -> forall fuel ret,
             is_null ret = false -> (6 * mu w + 1 <= fuel)%nat ->
             runs Inv is_null (Grammar.term_loop fuel ret) w).
  { intros v Hv fuel ret Hr Hf. need_fuel fuel.
    apply (Hloop is_mul_div s_function Grammar.factor Grammar.term_loop 3%nat);
      [apply is_mul_div_live | | | lia | lia | lia | exact Hr].
    - intros w1 f H1 Hf1. apply (IH w1); lia.
    - intros w1 f r H1 Hr1 Hf1. apply (IH w1); [lia | exact Hr1 | lia]. }
  assert (Hterm : forall w, (mu w < S n)%nat -> forall fuel,
             (6 * mu w + 4 <= fuel)%nat -> runs Inv is_null (Grammar.term fuel) w).
  { intros v Hv fuel Hf. need_fuel fuel. apply binary_head_runs.
    - apply Hfactor; lia.
    - intros r w1 H1 Hr. apply Htl; [lia | exact Hr | lia]. }
  assert (Hel : forall w, (mu w < S n)%nat -> forall fuel ret,
             is_null ret = false -> (6 * mu w + 1 <= fuel)%nat ->
             runs Inv is_null (Grammar.expr_loop fuel ret) w).
  { intros v Hv fuel ret Hr Hf. need_fuel fuel.
    apply (Hloop is_sign s_function Grammar.term Grammar.expr_loop 4%nat);
      [apply is_sign_live | | | lia | lia | lia | exact Hr].
    - intros w1 f H1 Hf1. apply (IH w1); lia.
    - intros w1 f r H1 Hr1 Hf1. apply (IH w1); [lia | exact Hr1 | lia]. }
  assert (Hexpr : forall w, (mu w < S n)%nat -> forall fuel,
             (6 * mu w + 5 <= fuel)%nat -> runs Inv is_null (Grammar.expr fuel) w).
  { intros v Hv fuel Hf. need_fuel fuel. apply binary_head_runs.
    - apply Hterm; lia.
    - intros r w1 H1 Hr. apply Hel; [lia | exact Hr | lia]. }
  assert (Hll : forall w, (mu w < S n)%nat -> forall fuel ret,
             is_null ret = false -> (6 * mu w + 1 <= fuel)%nat ->
             runs Inv is_null (Grammar.list_loop fuel ret) w).
  { intros v Hv fuel ret Hr Hf. need_fuel fuel.
    apply (Hloop is_sep (fun _ => P_fun f_comma) Grammar.expr Grammar.list_loop 5%nat);
      [apply is_sep_live | | | lia | lia | lia | exact Hr].
    - intros w1 f H1 Hf1. apply (IH w1); lia.
    - intros w1 f r H1 Hr1 Hf1. apply (IH w1); [lia | exact Hr1 | lia]. }
  assert (Hlist : forall w, (mu w < S n)%nat -> forall fuel,
             (6 * mu w + 6 <= fuel)%nat -> runs Inv is_null (Grammar.list fuel) w).
  { intros v Hv fuel Hf. need_fuel fuel. apply binary_head_runs.
    - apply Hexpr; lia.
    - intros r w1 H1 Hr. apply Hll; [lia | exact Hr | lia]. }
  unfold runs_at. repeat split; eauto.
Qed.

Lemma list_runs (w : world) (fuel : nat) :
  (6 * mu w + 6 <= fuel)%nat -> runs Inv is_null (Grammar.list fuel) w.
Proof.
  intros Hf.
  destruct (parser_runs (S (mu w)) w) as (_&_&_&_&_&_&_&_&_&_&H); [lia|].
  apply H, Hf.
Qed.

End ParserRuns.

(** * The budget of [tx_compile] suffices *)

Lemma scan_offsets (L : nat) (s : state) :
  (next_off s + String.length (next s) = L)%nat -> offsets L (scan s).
Proof.
  intros H. unfold offsets, scan. cbv zeta.
  change (next (mark s)) with (next s).
  destruct (Ascii.eqb (peek (next s)) NUL); [simpl; lia|].
  destruct (isdigit (peek (next s)) || Ascii.eqb (peek (next s)) ".").
  - pose proof (StrtodFacts.strtod_length (next s)) as Hl.
    unfold strtod. destruct (Strtod.strtod (next s)) as [v r]. simpl in Hl.
    pose proof (tl_length r).
    destruct (Ascii.eqb (peek r) "I"); simpl; lia.
  - destruct (isalpha (peek (next s))).
    + pose proof (ident_end_length (next s)).
      match goal with |- context [resolve ?a ?b ?c] => destruct (resolve a b c) as [var|] end;
        [|simpl; lia].
      destruct (TYPE_MASK (v_type var) =? TX_VARIABLE); [simpl; lia|].
      destruct (is_closure_kind (TYPE_MASK (v_type var))); [simpl; lia|].
      destruct (is_function_kind (TYPE_MASK (v_type var))); simpl; lia.
    + pose proof (tl_length (next s)).
      destruct (peek (next s)) as [[] [] [] [] [] [] [] []]; simpl; lia.
Qed.

Lemma next_token_loop_offsets (L : nat) : forall fuel s,
  offsets L s -> offsets L (next_token_loop fuel s).
Proof.
  induction fuel as [|fuel IH]; intros s H; [exact H|].
  simpl. pose proof (scan_offsets L s (proj1 H)) as Hs.
  destruct (type (scan s) =? TOK_NULL); [apply IH|]; exact Hs.
Qed.

Lemma tx_next_token_offsets (L : nat) (s : state) :
  offsets L s -> offsets L (tx_next_token s).
Proof. intros H. apply next_token_loop_offsets. exact H. Qed.

Section CompileRuns.

Variable R : runtime.
Variable m : memory.
Variable expression : string.
Variable variables : option (list tx_variable).
Variable var_count : Z.
Variable h : list bool.

Let w0 : world := initial expression variables var_count h.

Lemma mu_initial : (mu w0 <= 2 * String.length expression)%nat.
Proof. apply (mu_next_token (mk_state _ _ _ _ _ _ _ _)). Qed.

(** The parse behind [tx_compile]: with the budget [fuel_for] the root
    production returns; any invariant of the tokenizer state that holds
    of the first token holds at the end; and the root is null exactly
    when a call of [malloc] failed. *)
Lemma parse_runs (Inv : state -> Prop) :
  (forall s, Inv s -> Inv (tx_next_token s)) ->
  (forall s, Inv s -> Inv (with_type s TOK_ERROR)) ->
  Inv (st w0) ->
  exists root w,
    Grammar.list (fuel_for expression) w0 = Some (root, w)
    /\ Inv (st w) /\ oom w = is_null root.
Proof.
  intros Hn He H0.
  assert (Hf : (6 * mu w0 + 6 <= fuel_for expression)%nat).
  { pose proof mu_initial. unfold fuel_for. lia. }
  pose proof (list_runs Inv Hn He w0 _ Hf H0) as Hr.
  apply twp_run in Hr. destruct Hr as (root & w & E & _ & HI & Ho).
  exists root, w. repeat split; assumption.
Qed.

Lemma tx_compile_total :
  tx_compile_fuel R m (fuel_for expression) expression variables var_count h
  = Some (tx_compile R m expression variables var_count h).
Proof.
  destruct (parse_runs (fun _ => True)) as (root & w & E & _); auto.
  unfold tx_compile, tx_compile_fuel. fold w0. rewrite E. reflexivity.
Qed.

(** [tx_compile] in terms of the parse. *)
Lemma tx_compile_parse (Inv : state -> Prop) :
  (forall s, Inv s -> Inv (tx_next_token s)) ->
  (forall s, Inv s -> Inv (with_type s TOK_ERROR)) ->
  Inv (st w0) ->
  exists root w,
    Grammar.list (fuel_for expression) w0 = Some (root, w)
    /\ tx_compile R m expression variables var_count h = finish R m root w
    /\ Inv (st w) /\ oom w = is_null root.
Proof.
  intros Hn He H0.
  destruct (parse_runs Inv Hn He H0) as (root & w & E & HI & Ho).
  exists root, w. split; [exact E|]. split; [|auto].
  unfold tx_compile, tx_compile_fuel. fold w0. rewrite E. reflexivity.
Qed.

Lemma offsets_initial : offsets (String.length expression) (st w0).
Proof.
  apply tx_next_token_offsets. unfold offsets. simpl. lia.
Qed.

End CompileRuns.

(** * The evaluator and the optimizer on trees *)

Section TreeInduction.

Variable P : tx_expr -> Prop.
Hypothesis P_null : P NULL.
Hypothesis P_node : forall t u ps ctx, Forall P ps -> P (Node t u ps ctx).

Fixpoint tx_expr_induction (n : tx_expr) : P n :=
  match n with
  | NULL => P_null
  | Node t u ps ctx =>
      P_node t u ps ctx
        ((fix all (l : list tx_expr) : Forall P l :=
            match l with
            | [] => Forall_nil P
            | c :: l' => Forall_cons c (tx_expr_induction c) (all l')
            end) ps)
  end.

End TreeInduction.

Section TreeFacts.

Variable R : runtime.

Lemma tx_eval_null (m : memory) : tx_eval R m NULL = cx_of_real NAN.
Proof. reflexivity. Qed.

(** The value of a node depends on its children through their values
    only. *)
Lemma tx_eval_children (m : memory) t u ps ps' ctx :
  List.map (tx_eval R m) ps = List.map (tx_eval R m) ps' ->
  tx_eval R m (Node t u ps ctx) = tx_eval R m (Node t u ps' ctx).
Proof. intros H. simpl. rewrite H. reflexivity. Qed.

Lemma tx_eval_constant (m : memory) v ps ctx :
  tx_eval R m (Node TX_CONSTANT (eu_value v) ps ctx) = v.
Proof. reflexivity. Qed.

Lemma tx_eval_variable (m : memory) a ps ctx :
  tx_eval R m (Node TX_VARIABLE (eu_bound (P_data a)) ps ctx) = m a.
Proof. reflexivity. Qed.

Lemma optimize_children_map (f g : tx_expr -> d_cx) (opt : tx_expr -> tx_expr) :
  forall ps k,
    Forall (fun c => f (opt c) = g c) ps ->
    (forall c, f c = g c) ->
    List.map f (optimize_children opt k ps) = List.map g ps.
Proof.
  induction ps as [|p ps IH]; intros k H Hfg; [reflexivity|].
  inversion H as [|? ? Hp Hps]; subst.
  destruct k as [|k]; simpl.
  - f_equal; [apply Hfg | apply map_ext, Hfg].
  - f_equal; [exact Hp | apply IH; assumption].
Qed.

Lemma optimize_unfold (m : memory) t u ps ctx :
  optimize R m (Node t u ps ctx) =
  if t =? TX_CONSTANT then Node t u ps ctx
  else if t =? TX_VARIABLE then Node t u ps ctx
  else if IS_PURE t then
    let arity := Z.to_nat (ARITY t) in
    let ps' := optimize_children (optimize R m) arity ps in
    if known arity ps'
    then Node TX_CONSTANT (eu_value (tx_eval R m (Node t u ps' ctx))) [] ctx
    else Node t u ps' ctx
  else Node t u ps ctx.
Proof. reflexivity. Qed.

(** Folding keeps the value: in the storage [m] in which the optimizer
    ran, the optimized tree evaluates to what the tree evaluated to. *)
Lemma optimize_sound (m : memory) (n : tx_expr) :
  tx_eval R m (optimize R m n) = tx_eval R m n.
Proof.
  induction n as [|t u ps ctx IH] using tx_expr_induction; [reflexivity|].
  rewrite optimize_unfold.
  destruct (t =? TX_CONSTANT); [reflexivity|].
  destruct (t =? TX_VARIABLE); [reflexivity|].
  destruct (IS_PURE t); [|reflexivity]. cbv zeta.
  assert (E : tx_eval R m (Node t u (optimize_children (optimize R m)
                                      (Z.to_nat (ARITY t)) ps) ctx)
              = tx_eval R m (Node t u ps ctx)).
  { apply tx_eval_children. apply optimize_children_map; [exact IH | reflexivity]. }
  destruct (known _ _); [|exact E].
  rewrite tx_eval_constant. exact E.
Qed.

Lemma optimize_children_all (opt : tx_expr -> tx_expr) : forall ps k,
  (List.length ps <= k)%nat -> optimize_children opt k ps = List.map opt ps.
Proof.
  induction ps as [|p ps IH]; intros k Hk; [reflexivity|].
  destruct k as [|k]; simpl in *; [lia|]. f_equal. apply IH. lia.
Qed.

Lemma well_formed_node t u ps ctx :
  well_formed (Node t u ps ctx) = true ->
  t <> TX_CONSTANT -> t <> TX_VARIABLE ->
  (is_function_kind (TYPE_MASK t) || is_closure_kind (TYPE_MASK t)) = true
  /\ Z.of_nat (List.length ps) = ARITY t
  /\ (exists f, u = eu_function f)
  /\ forallb well_formed ps = true.
Proof.
  intros H Hc Hv. simpl in H.
  apply Z.eqb_neq in Hc, Hv. rewrite Hc, Hv in H.
  apply andb_prop in H as [H H4]. apply andb_prop in H as [H H3].
  apply andb_prop in H as [H1 H2]. apply Z.eqb_eq in H2.
  repeat split; try assumption.
  destruct u; try discriminate. eauto.
Qed.

(** The optimizer keeps trees well formed. *)
Lemma optimize_well_formed (m : memory) (n : tx_expr) :
  well_formed n = true -> well_formed (optimize R m n) = true.
Proof.
  induction n as [|t u ps ctx IH] using tx_expr_induction; [discriminate|].
  intros H. rewrite optimize_unfold.
  destruct (t =? TX_CONSTANT) eqn:Ec; [exact H|].
  destruct (t =? TX_VARIABLE) eqn:Ev; [exact H|].
  destruct (IS_PURE t); [|exact H]. cbv zeta.
  destruct (known _ _); [reflexivity|].
  apply Z.eqb_neq in Ec, Ev.
  destruct (well_formed_node _ _ _ _ H Ec Ev) as (Hk & Hl & (f & ->) & Hps).
  rewrite optimize_children_all by lia.
  simpl. apply Z.eqb_neq in Ec, Ev. rewrite Ec, Ev, Hk.
  rewrite length_map, Hl, Z.eqb_refl. simpl.
  rewrite forallb_forall in *. intros c Hc.
  apply in_map_iff in Hc as (c0 & <- & Hc0).
  rewrite Forall_forall in IH. apply IH; [exact Hc0 | apply Hps, Hc0].
Qed.

End TreeFacts.

Lemma optimize_not_null (R : runtime) (m : memory) (n : tx_expr) :
  is_null (optimize R m n) = is_null n.
Proof.
  destruct n as [|t u ps ctx]; [reflexivity|].
  rewrite optimize_unfold.
  destruct (t =? TX_CONSTANT); [reflexivity|].
  destruct (t =? TX_VARIABLE); [reflexivity|].
  destruct (IS_PURE t); [|reflexivity]. cbv zeta.
  destruct (known _ _); reflexivity.
Qed.

Lemma to_int_small (z : Z) : 0 <= z < 2 ^ 31 -> to_int z = z.
Proof.
  intros H. unfold to_int. rewrite Z.mod_small; lia.
Qed.

(** ** What [tx_compile] returns, case by case *)

Section CompileCases.

Variable R : runtime.
Variable m : memory.
Variable expression : string.
Variable variables : option (list tx_variable).
Variable var_count : Z.
Variable h : list bool.

Let r : tx_expr * Z * world := tx_compile R m expression variables var_count h.

Lemma tx_compile_cases :
  offsets (String.length expression) (st (world_of r))
  /\ ((oom (world_of r) = true /\ handle r = NULL /\ error_of r = -1)
      \/ (oom (world_of r) = false /\ type (st (world_of r)) <> TOK_END
          /\ handle r = NULL /\ error_of r = reported (world_of r))
      \/ (oom (world_of r) = false /\ type (st (world_of r)) = TOK_END
          /\ is_null (handle r) = false /\ error_of r = 0)).
Proof.
  destruct (tx_compile_parse R m expression variables var_count h
              (offsets (String.length expression)))
    as (root & w & _ & E & HI & Ho).
  - apply tx_next_token_offsets.
  - intros s Hs. exact Hs.
  - apply offsets_initial.
  - subst r. rewrite E. unfold finish.
    destruct (is_null root) eqn:En.
    + split; [exact HI|]. left. auto.
    + destruct (type (st w) =? TOK_END) eqn:Et; simpl.
      * apply Z.eqb_eq in Et. split; [exact HI|]. right. right.
        unfold handle, error_of, world_of. simpl.
        rewrite optimize_not_null. auto.
      * apply Z.eqb_neq in Et. split; [exact HI|]. right. left.
        unfold handle, error_of, world_of, reported. simpl. auto.
Qed.

Lemma reported_small (w : world) :
  offsets (String.length expression) (st w) ->
  Z.of_nat (String.length expression) < 2 ^ 31 ->
  reported w = Z.max 1 (Z.of_nat (next_off (st w))).
Proof.
  intros [H1 H2] Hl. unfold reported. rewrite to_int_small by lia.
  destruct (Z.of_nat (next_off (st w)) =? 0) eqn:E.
  - apply Z.eqb_eq in E. lia.
  - apply Z.eqb_neq in E. lia.
Qed.

Lemma reported_not_zero (w : world) : reported w <> 0.
Proof.
  unfold reported.
  destruct (to_int (Z.of_nat (next_off (st w))) =? 0) eqn:E.
  - discriminate.
  - apply Z.eqb_neq in E. exact E.
Qed.

End CompileCases.

(** * Facts about the productions *)


Lemma Some_pair {A B : Type} (a a' : A) (b b' : B) :
  Some (a, b) = Some (a', b') -> a = a' /\ b = b'.
Proof. intros H. inversion H. auto. Qed.

(** The loop of [power] leaves [sign] at plus or minus what it was. *)
Lemma signs_sign : forall fuel sign w sign' w',
  Grammar.signs fuel sign w = Some (sign', w') -> sign' = sign \/ sign' = - sign.
Proof.
  induction fuel as [|fuel IH]; intros sign w sign' w' H; [discriminate|].
  simpl in H. unfold signs_body, Bind, get_state, next_token in H.
  destruct (is_sign (st w)).
  - apply IH in H.
    destruct (ptr_eqb (s_function (st w)) (P_fun f_sub)); lia.
  - apply Some_pair in H as [-> _]. auto.
Qed.


(** [power] returns the node of its [base], or one negation of it. *)
Lemma power_shape : forall fuel w r w',
  Grammar.power fuel w = Some (r, w') -> is_null r = false ->
  exists fuel' sign w1 b w2,
    fuel = S fuel'
    /\ Grammar.signs fuel' 1 w = Some (sign, w1)
    /\ Grammar.base fuel' w1 = Some (b, w2)
    /\ is_null b = false
    /\ ((sign = 1 /\ r = b) \/ (sign = -1 /\ r = negation b)).
Proof.
  intros [|fuel] w r w' H Hr; [discriminate|].
  simpl in H. unfold power_body, Bind in H.
  destruct (Grammar.signs fuel 1 w) as [[sign w1]|] eqn:Es; [|discriminate].
  pose proof (signs_sign _ _ _ _ _ Es) as Hs.
  destruct (sign =? 1) eqn:E1.
  - apply Z.eqb_eq in E1.
    exists fuel, sign, w1, r, w'. repeat split; auto.
  - apply Z.eqb_neq in E1.
    destruct (Grammar.base fuel w1) as [[b w2]|] eqn:Eb; [|discriminate].
    unfold CHECK_NULL in H. destruct (is_null b) eqn:Enb.
    + apply Some_pair in H as [<- _]. discriminate.
    + destruct (new_expr_spec PURE1 (Some [b]) w2) as (n & w3 & En & _ & Hn).
      rewrite En in H.
      destruct Hn as [[-> _]|[-> _]].
      * apply Some_pair in H as [<- _]. discriminate.
      * apply Some_pair in H as [<- _].
        exists fuel, sign, w1, b, w2. repeat split; auto.
        right. split; [lia | reflexivity].
Qed.

(** ** Calls of arity two and more *)

Lemma land_mask (t k : Z) : Z.land 31 k = k -> Z.land t k = Z.land (TYPE_MASK t) k.
Proof.
  intros H. unfold TYPE_MASK. rewrite <- Z.land_assoc, H. reflexivity.
Qed.

Lemma kind_cases (k : Z) :
  is_function_kind k || is_closure_kind k = true ->
  k = 8 \/ k = 9 \/ k = 10 \/ k = 11 \/ k = 12 \/ k = 13 \/ k = 14
  \/ k = 16 \/ k = 17 \/ k = 18 \/ k = 19 \/ k = 20 \/ k = 21 \/ k = 22.
Proof.
  unfold is_function_kind, is_closure_kind,
    TX_FUNCTION0, TX_FUNCTION6, TX_CLOSURE0, TX_CLOSURE6.
  intros H. apply orb_prop in H as [H|H];
    apply andb_prop in H as [H1 H2]; apply Z.leb_le in H1, H2; lia.
Qed.

(** For a kind of function or closure the arity is the low three bits of
    the kind. *)
Lemma kind_arity (t : Z) :
  is_function_kind (TYPE_MASK t) || is_closure_kind (TYPE_MASK t) = true ->
  ARITY t = Z.land (TYPE_MASK t) 7 /\ 0 <= ARITY t <= 6.
Proof.
  intros H. unfold ARITY.
  rewrite (land_mask t (Z.lor TX_FUNCTION0 TX_CLOSURE0)) by reflexivity.
  rewrite (land_mask t 7) by reflexivity.
  destruct (kind_cases _ H) as [E|[E|[E|[E|[E|[E|[E|[E|[E|[E|[E|[E|[E|E]]]]]]]]]]]]];
    rewrite E; repeat split; vm_compute; congruence.
Qed.


Lemma same_node_refl n : is_null n = false -> same_node n n.
Proof. destruct n; [discriminate|]. simpl. auto. Qed.

Lemma same_node_trans a b c : same_node a b -> same_node b c -> same_node a c.
Proof.
  destruct a, b, c; simpl; try tauto.
  intros (-> & -> & -> & ->) (-> & -> & -> & ->). auto.
Qed.

Lemma set_nth_length i e ps : List.length (set_nth i e ps) = List.length ps.
Proof.
  revert i. induction ps as [|p ps IH]; intros [|i]; simpl; auto.
Qed.

Lemma set_parameter_same n i e : is_null n = false -> same_node n (set_parameter n i e).
Proof.
  destruct n; [discriminate|]. simpl. intros _.
  rewrite set_nth_length. auto.
Qed.

Lemma set_nth_filled e : is_null e = false -> forall ps i,
  Forall (fun c => is_null c = false) (firstn i ps) ->
  Forall (fun c => is_null c = false) (firstn (S i) (set_nth i e ps)).
Proof.
  intros He. induction ps as [|p ps IH]; intros i H; [destruct i; constructor|].
  destruct i as [|i].
  - simpl. constructor; [exact He | constructor].
  - simpl in H. inversion H; subst.
    change (firstn (S (S i)) (set_nth (S i) e (p :: ps)))
      with (p :: firstn (S i) (set_nth i e ps)).
    constructor; [assumption | apply IH; assumption].
Qed.

Lemma set_parameter_filled n i e :
  0 <= i -> is_null e = false -> filled (Z.to_nat i) n ->
  filled (Z.to_nat (i + 1)) (set_parameter n i e).
Proof.
  intros Hi He H. unfold filled in *.
  destruct n as [|t u ps c]; simpl in *; [rewrite firstn_nil; constructor|].
  replace (Z.to_nat (i + 1)) with (S (Z.to_nat i)) by lia.
  apply set_nth_filled; assumption.
Qed.

(** The loop over the arguments: when it is left with index [i'], the
    children up to and including [i'] are set if [i'] is below the arity,
    and the node is otherwise as it was. *)
Lemma arguments_filled : forall fuel arity i ret w r i' w',
  0 <= i -> is_null ret = false -> filled (Z.to_nat i) ret ->
  Grammar.arguments fuel arity i ret w = Some (Some (r, i'), w') ->
  same_node ret r /\ i <= i'
  /\ (i' < arity -> filled (Z.to_nat (i' + 1)) r).
Proof.
  induction fuel as [|fuel IH]; intros arity i ret w r i' w' Hi Hn Hf H;
    [discriminate|].
  simpl in H. unfold arguments_body in H.
  destruct (i <? arity) eqn:Ei.
  - unfold Bind, next_token in H.
    match type of H with
    | context [Grammar.expr fuel ?w1] =>
        destruct (Grammar.expr fuel w1) as [[p w2]|] eqn:Ee; [|discriminate]
    end.
    destruct (is_null p) eqn:Ep; [discriminate|].
    unfold get_state in H.
    pose proof (set_parameter_same ret i p Hn) as Hsame.
    pose proof (set_parameter_filled ret i p Hi Ep Hf) as Hfill.
    destruct (negb (type (st w2) =? TOK_SEP)).
    + apply Some_pair in H as [H _]. inversion H; subst.
      repeat split; [assumption | lia | auto].
    + apply IH in H; [|lia | apply set_parameter_not_null; assumption | assumption].
      destruct H as (H1 & H2 & H3).
      repeat split; [eapply same_node_trans; eauto | lia | assumption].
  - apply Z.ltb_ge in Ei. apply Some_pair in H as [H _]. inversion H; subst.
    repeat split; [apply same_node_refl; assumption | lia | lia].
Qed.

Ltac unfold_codes :=
  unfold TOK_NULL, TOK_ERROR, TOK_END, TOK_SEP, TOK_OPEN, TOK_CLOSE,
    TOK_NUMBER_R, TOK_NUMBER_I, TOK_VARIABLE, TOK_INFIX,
    TX_VARIABLE, TX_CONSTANT, TX_FUNCTION0, TX_FUNCTION1, TX_FUNCTION2,
    TX_FUNCTION3, TX_FUNCTION4, TX_FUNCTION5, TX_FUNCTION6,
    TX_CLOSURE0, TX_CLOSURE1, TX_CLOSURE2, TX_CLOSURE3, TX_CLOSURE4,
    TX_CLOSURE5, TX_CLOSURE6, TX_FLAG_PURE in *.

(** Writing one slot of a list of children. *)
Lemma set_nth_splice e : forall ps i,
  (i < List.length ps)%nat ->
  set_nth i e ps = firstn i ps ++ e :: skipn (S i) ps.
Proof.
  induction ps as [|p ps IH]; intros i H; simpl in H; [lia|].
  destruct i as [|i]; [reflexivity|].
  cbn [set_nth firstn skipn app]. rewrite IH by lia. reflexivity.
Qed.

Lemma splice_more (p : tx_expr) (args cs : list tx_expr) (i : nat) :
  (i < List.length cs)%nat ->
  (firstn (S i) (firstn i cs ++ p :: skipn (S i) cs) ++ args
    ++ skipn (S i + List.length args) (firstn i cs ++ p :: skipn (S i) cs)
   = firstn i cs ++ (p :: args) ++ skipn (i + List.length (p :: args)) cs)%list.
Proof.
  intros H.
  assert (L : List.length (firstn i cs) = i) by (rewrite length_firstn; lia).
  replace (firstn (S i) (firstn i cs ++ p :: skipn (S i) cs))
    with (firstn i cs ++ [p]).
  2:{ rewrite firstn_app, L.
      replace (S i - i)%nat with 1%nat by lia.
      rewrite (firstn_all2 (firstn i cs)) by lia. reflexivity. }
  replace (skipn (S i + List.length args) (firstn i cs ++ p :: skipn (S i) cs))
    with (skipn (i + List.length (p :: args)) cs).
  2:{ rewrite skipn_app, L.
      rewrite (skipn_all2 (firstn i cs)) by lia.
      replace (S i + List.length args - i)%nat with (S (List.length args)) by lia.
      change (skipn (S (List.length args)) (p :: skipn (S i) cs))
        with (skipn (List.length args) (skipn (S i) cs)).
      rewrite skipn_skipn. cbn [app List.length].
      f_equal. lia. }
  rewrite <- app_assoc. reflexivity.
Qed.

(** The loop over the arguments: when it is left with an index [i'] below
    the arity, it has read [i' - i + 1] arguments, separated by
    [TOK_SEP], the current token is not [TOK_SEP], and the arguments are
    the children from [i] on. *)
Lemma arguments_taken : forall fuel arity i ret w r i' w',
  0 <= i -> is_null ret = false ->
  Z.of_nat (List.length (children ret)) = arity ->
  Grammar.arguments fuel arity i ret w = Some (Some (r, i'), w') ->
  i' < arity ->
  exists args,
    arguments_read w args w'
    /\ Z.of_nat (List.length args) = i' - i + 1
    /\ children r
       = firstn (Z.to_nat i) (children ret) ++ args
         ++ skipn (Z.to_nat i + List.length args) (children ret).
Proof.
  induction fuel as [|fuel IH]; intros arity i ret w r i' w' Hi Hn Hl H Hlt;
    [discriminate|].
  simpl in H. unfold arguments_body in H.
  destruct (i <? arity) eqn:Ei.
  2:{ apply Z.ltb_ge in Ei. apply Some_pair in H as [H _]. inversion H; subst. lia. }
  apply Z.ltb_lt in Ei.
  unfold Bind, next_token in H.
  change (mk_world (tx_next_token (st w)) (heap w) (oom w)) with (after_token w) in H.
  destruct (Grammar.expr fuel (after_token w)) as [[p w2]|] eqn:Ee; [|discriminate].
  destruct (is_null p) eqn:Ep; [discriminate|].
  unfold get_state in H.
  assert (Hr : returns Grammar.expr (after_token w) p w2) by (exists fuel; exact Ee).
  destruct ret as [|t u cs c]; [discriminate|]. cbn [children] in *.
  assert (Hin : (Z.to_nat i < List.length cs)%nat) by lia.
  destruct (type (st w2) =? TOK_SEP) eqn:Es; cbn [negb] in H.
  - apply Z.eqb_eq in Es.
    apply IH in H; [|lia | reflexivity | cbn [set_parameter children];
                     rewrite set_nth_length; exact Hl | exact Hlt].
    destruct H as (args & Ha & Hlen & Hc).
    exists (p :: args). split; [apply read_more with w2; assumption|].
    split; [cbn [List.length]; lia|].
    rewrite Hc. cbn [set_parameter children].
    rewrite set_nth_splice by exact Hin.
    replace (Z.to_nat (i + 1)) with (S (Z.to_nat i)) by lia.
    apply splice_more. exact Hin.
  - apply Z.eqb_neq in Es.
    apply Some_pair in H as [H <-]. inversion H; subst.
    exists [p]. split; [apply read_last; assumption|].
    split; [cbn [List.length]; lia|].
    cbn [set_parameter children]. rewrite set_nth_splice by exact Hin.
    cbn [List.length app]. replace (Z.to_nat i' + 1)%nat with (S (Z.to_nat i')) by lia.
    reflexivity.
Qed.

(** Exact arity: when [base], on the token of a function or closure of
    arity two or more, returns a node and leaves no error, the token
    after the name was an opening parenthesis, the arguments read from
    there, separated by [TOK_SEP], are exactly as many as the arity and
    are followed by [TOK_CLOSE], and they are the children of the node. *)
Lemma base_call_arity : forall fuel w r w',
  (TX_FUNCTION2 <= TYPE_MASK (type (st w)) <= TX_FUNCTION6
   \/ TX_CLOSURE2 <= TYPE_MASK (type (st w)) <= TX_CLOSURE6) ->
  Grammar.base fuel w = Some (r, w') ->
  is_null r = false -> type (st w') <> TOK_ERROR ->
  exists ps ctx w1 w2,
    r = Node (type (st w)) (eu_function (s_function (st w))) ps ctx
    /\ Z.of_nat (List.length ps) = ARITY (type (st w))
    /\ 2 <= ARITY (type (st w)) <= 6
    /\ Forall (fun c => is_null c = false) ps
    /\ st w1 = tx_next_token (st w) /\ type (st w1) = TOK_OPEN
    /\ arguments_read w1 ps w2
    /\ type (st w2) = TOK_CLOSE
    /\ w' = after_token w2.
Proof.
  intros [|fuel] w r w' Hk H Hr Herr; [discriminate|].
  simpl in H. unfold base_body, Bind, get_state in H. cbv zeta in H.
  set (t := type (st w)) in *. set (k := TYPE_MASK t) in *.
  assert (Hkind : is_function_kind k || is_closure_kind k = true).
  { unfold is_function_kind, is_closure_kind. unfold_codes.
    destruct Hk as [Hk|Hk].
    - apply orb_true_intro. left. apply andb_true_intro. split; apply Z.leb_le; lia.
    - apply orb_true_intro. right. apply andb_true_intro. split; apply Z.leb_le; lia. }
  destruct (kind_arity t Hkind) as [Ha Har]. fold k in Ha.
  assert (Ha2 : 2 <= ARITY t).
  { rewrite Ha. unfold_codes.
    assert (Hc : k = 10 \/ k = 11 \/ k = 12 \/ k = 13 \/ k = 14
                 \/ k = 18 \/ k = 19 \/ k = 20 \/ k = 21 \/ k = 22) by lia.
    destruct Hc as [E|[E|[E|[E|[E|[E|[E|[E|[E|E]]]]]]]]];
      rewrite E; vm_compute; congruence. }
  replace (k =? TOK_NUMBER_R) with false in H
    by (symmetry; apply Z.eqb_neq; unfold_codes; lia).
  replace (k =? TOK_NUMBER_I) with false in H
    by (symmetry; apply Z.eqb_neq; unfold_codes; lia).
  replace (k =? TOK_VARIABLE) with false in H
    by (symmetry; apply Z.eqb_neq; unfold_codes; lia).
  replace ((k =? TX_FUNCTION0) || (k =? TX_CLOSURE0)) with false in H
    by (symmetry; apply orb_false_intro; apply Z.eqb_neq; unfold_codes; lia).
  replace ((k =? TX_FUNCTION1) || (k =? TX_CLOSURE1)) with false in H
    by (symmetry; apply orb_false_intro; apply Z.eqb_neq; unfold_codes; lia).
  rewrite Hkind in H.
  destruct (new_expr_spec t None w) as (n & w1 & En & Hs & Hn).
  rewrite En in H. unfold CHECK_NULL in H.
  destruct Hn as [[-> _]|[-> _]].
  { apply Some_pair in H as [<- _]. discriminate. }
  cbn [is_null] in H. unfold next_token in H. cbv beta in H.
  change (mk_world (tx_next_token (st w1)) (heap w1) (oom w1))
    with (after_token w1) in H.
  set (node := set_context _ _) in H.
  assert (Hnode : node = Node t (eu_function (s_function (st w)))
                              (repeat NULL (Z.to_nat (ARITY t)))
                              (if IS_CLOSURE t then context (st w) else P_null)).
  { subst node. simpl. fold t. destruct (IS_CLOSURE t); reflexivity. }
  destruct (type (st (after_token w1)) =? TOK_OPEN) eqn:Eo; cbn [negb] in H.
  2:{ unfold set_error in H. apply Some_pair in H as [_ <-].
      exfalso. apply Herr. reflexivity. }
  apply Z.eqb_eq in Eo.
  destruct (Grammar.arguments fuel (ARITY t) 0 node (after_token w1))
    as [[[[r' i']|] w3]|] eqn:Eg; [| |discriminate].
  2:{ apply Some_pair in H as [<- _]. discriminate. }
  pose proof Eg as Eg'.
  apply arguments_filled in Eg;
    [|lia | rewrite Hnode; reflexivity | constructor].
  destruct Eg as (Hsame & Hi & Hfill).
  destruct (negb (type (st w3) =? TOK_CLOSE) || negb (i' =? ARITY t - 1)) eqn:Ec.
  { unfold set_error in H. apply Some_pair in H as [_ <-].
    exfalso. apply Herr. reflexivity. }
  apply orb_false_elim in Ec as [Ecl Ei].
  apply negb_false_iff, Z.eqb_eq in Ei.
  apply negb_false_iff, Z.eqb_eq in Ecl.
  apply Some_pair in H as [<- <-].
  apply arguments_taken in Eg';
    [|lia | rewrite Hnode; reflexivity
     | rewrite Hnode; cbn [children]; rewrite repeat_length; lia | lia].
  destruct Eg' as (args & Hread & Hlen & Hch).
  rewrite Hnode in Hsame, Hch. destruct r' as [|t' u' ps' c']; [contradiction|].
  simpl in Hsame. destruct Hsame as (<- & <- & <- & Hlen').
  rewrite repeat_length in Hlen'.
  cbn [children] in Hch. change (Z.to_nat 0) with 0%nat in Hch.
  cbn [firstn app Nat.add] in Hch.
  rewrite skipn_all2 in Hch by (rewrite repeat_length; lia).
  rewrite app_nil_r in Hch. subst ps'.
  exists args, (if IS_CLOSURE t then context (st w) else P_null), (after_token w1), w3.
  split; [reflexivity|]. split; [lia|]. split; [lia|].
  split.
  { assert (Hf : filled (Z.to_nat (i' + 1))
                        (Node t (eu_function (s_function (st w))) args
                              (if IS_CLOSURE t then context (st w) else P_null)))
      by (apply Hfill; lia).
    unfold filled in Hf. simpl in Hf.
    rewrite firstn_all2 in Hf by lia. exact Hf. }
  split; [cbn [after_token st]; rewrite Hs; reflexivity|].
  split; [exact Eo|]. split; [exact Hread|]. split; [exact Ecl | reflexivity].
Qed.

(** ** Names *)


Lemma find_lookup_loop_find (name : string) (len : nat) : forall vars iters,
  find_lookup_loop vars iters name len
  = List.find (name_matches name len) (visible (Some vars) iters).
Proof.
  unfold visible.
  induction vars as [|var vars IH]; intros iters; cbn [find_lookup_loop].
  - destruct (iters =? 0); destruct (iters <? 0); try reflexivity;
      destruct (Z.to_nat iters); reflexivity.
  - destruct (Z.eqb_spec iters 0) as [->|Hz]; [reflexivity|].
    rewrite IH. destruct (Z.ltb_spec iters 0) as [Hn|Hp].
    + destruct (Z.ltb_spec (iters - 1) 0) as [_|H]; [|lia].
      cbn [List.find]. unfold name_matches at 2.
      destruct ((strncmp name (v_name var) len =? 0)
                && Ascii.eqb (char_at (v_name var) len) NUL); reflexivity.
    + destruct (Z.ltb_spec (iters - 1) 0) as [H|_]; [lia|].
      replace (Z.to_nat iters) with (S (Z.to_nat (iters - 1))) by lia.
      cbn [firstn List.find]. unfold name_matches at 2.
      destruct ((strncmp name (v_name var) len =? 0)
                && Ascii.eqb (char_at (v_name var) len) NUL); reflexivity.
Qed.

Lemma code_inj (c d : ascii) : code c = code d -> c = d.
Proof.
  unfold code. intros H. apply N2Z.inj in H.
  rewrite <- (ascii_N_embedding c), <- (ascii_N_embedding d), H. reflexivity.
Qed.

Lemma code_eqb (c d : ascii) : (code c =? code d) = Ascii.eqb c d.
Proof.
  destruct (Ascii.eqb c d) eqn:E.
  - apply Ascii.eqb_eq in E. subst. apply Z.eqb_refl.
  - apply Z.eqb_neq. intros H. apply code_inj in H.
    apply Ascii.eqb_neq in E. contradiction.
Qed.

Lemma isident_not_nul (c : ascii) : isident c = true -> Ascii.eqb c NUL = false.
Proof.
  intros H. destruct (Ascii.eqb c NUL) eqn:E; [|reflexivity].
  apply Ascii.eqb_eq in E. subst. discriminate.
Qed.

Lemma ident_prefix_length (s : string) :
  String.length (ident_prefix s)
  = (String.length s - String.length (ident_end s))%nat.
Proof.
  induction s as [|c r IH]; [reflexivity|]. cbn [ident_prefix ident_end].
  destruct (isident c); cbn [String.length].
  - pose proof (ident_end_length r). rewrite IH. lia.
  - lia.
Qed.

(** The test of [find_lookup] compares the whole name: on a lexeme of
    identifier characters it succeeds exactly for the names equal to that
    lexeme. *)
Lemma char_at_zero_nul (nm : string) :
  Ascii.eqb (char_at nm 0) NUL = String.eqb (cstring nm) EmptyString.
Proof.
  destruct nm as [|d nm']; [reflexivity|].
  cbn [char_at cstring]. destruct (Ascii.eqb d NUL) eqn:Ed.
  - reflexivity.
  - rewrite Ed. reflexivity.
Qed.

Lemma strncmp_lexeme : forall text nm,
  ((strncmp text nm (String.length (ident_prefix text)) =? 0)
   && Ascii.eqb (char_at nm (String.length (ident_prefix text))) NUL)
  = String.eqb (cstring nm) (ident_prefix text).
Proof.
  induction text as [|c r IH]; intros nm.
  - apply char_at_zero_nul.
  - cbn [ident_prefix]. destruct (isident c) eqn:Ec; [|apply char_at_zero_nul].
    pose proof (isident_not_nul c Ec) as Hc.
    cbn [String.length strncmp peek tl]. rewrite code_eqb.
    destruct nm as [|d nm'].
    + cbn [peek]. rewrite Hc. cbn [negb].
      assert (E0 : (code c - code NUL =? 0) = false).
      { apply Z.eqb_neq. intros E.
        assert (E' : code c = code NUL) by lia.
        apply code_inj in E'. subst. discriminate. }
      rewrite E0. reflexivity.
    + cbn [peek tl cstring char_at].
      destruct (Ascii.eqb c d) eqn:Ecd.
      * apply Ascii.eqb_eq in Ecd. subst d. rewrite Hc.
        cbn [negb]. cbn [String.eqb]. rewrite Ascii.eqb_refl. apply IH.
      * cbn [negb].
        assert (E0 : (code c - code d =? 0) = false).
        { apply Z.eqb_neq. intros E.
          assert (E' : code c = code d) by lia.
          apply code_inj in E'. subst. rewrite Ascii.eqb_refl in Ecd. discriminate. }
        rewrite E0. cbn [andb].
        destruct (Ascii.eqb d NUL); [reflexivity|].
        cbn [String.eqb]. rewrite Ascii.eqb_sym, Ecd. reflexivity.
Qed.

Lemma name_matches_lexeme (text : string) (var : tx_variable) :
  name_matches text (String.length (ident_prefix text)) var
  = String.eqb (cstring (v_name var)) (ident_prefix text).
Proof. apply strncmp_lexeme. Qed.

Lemma find_ext {A : Type} (f g : A -> bool) (l : list A) :
  (forall a, f a = g a) -> List.find f l = List.find g l.
Proof.
  intros H. induction l as [|a l IH]; [reflexivity|].
  simpl. rewrite H, IH. reflexivity.
Qed.

(** The scan of the bindings returns the first of the scanned bindings
    whose name is the lexeme. *)
Lemma find_lookup_first (s : state) (text : string) (vars : list tx_variable) :
  lookup s = Some vars ->
  find_lookup s text (String.length (ident_prefix text))
  = List.find (fun var => String.eqb (cstring (v_name var)) (ident_prefix text))
              (visible (Some vars) (lookup_len s)).
Proof.
  intros H. unfold find_lookup. rewrite H, find_lookup_loop_find.
  apply find_ext. intros var. apply name_matches_lexeme.
Qed.

Lemma isalpha_facts (c : ascii) :
  isalpha c = true ->
  Ascii.eqb c NUL = false
  /\ isdigit c || Ascii.eqb c "." = false
  /\ isident c = true.
Proof.
  destruct c as [[] [] [] [] [] [] [] []]; vm_compute; intros H;
    try discriminate H; repeat split.
Qed.

(** What the tokenizer makes of an identifier: the lexeme is resolved by
    [resolve], bindings first. *)
Lemma scan_identifier (s : state) :
  isalpha (peek (next s)) = true ->
  let start := next s in
  let s1 := move (mark s) (ident_end start) in
  let len := String.length (ident_prefix start) in
  scan s =
  match resolve s1 start len with
  | None => with_type s1 TOK_ERROR
  | Some var =>
      let k := TYPE_MASK (v_type var) in
      if k =? TX_VARIABLE then
        with_tok (with_type s1 TOK_VARIABLE) (tu_bound (v_address var))
      else if is_closure_kind k then
        with_tok (with_type (with_context s1 (v_context var)) (v_type var))
                 (tu_function (v_address var))
      else if is_function_kind k then
        with_tok (with_type s1 (v_type var)) (tu_function (v_address var))
      else s1
  end.
Proof.
  intros Ha. destruct (isalpha_facts _ Ha) as (H1 & H2 & _).
  unfold scan. cbv zeta.
  change (next (mark s)) with (next s).
  rewrite H1, H2, Ha.
  change (next (move (mark s) (ident_end (next s)))) with (ident_end (next s)).
  rewrite ident_prefix_length. reflexivity.
Qed.

(** Shadowing: when the text at the cursor starts with a letter and a
    binding of kind variable is the first binding whose name is the
    lexeme, the token is that variable, whatever the builtin table
    holds. *)
Lemma binding_shadows (s : state) (vars : list tx_variable) (var : tx_variable) :
  lookup s = Some vars ->
  isalpha (peek (next s)) = true ->
  List.find (fun v => String.eqb (cstring (v_name v)) (ident_prefix (next s)))
            (visible (Some vars) (lookup_len s)) = Some var ->
  TYPE_MASK (v_type var) = TX_VARIABLE ->
  type (tx_next_token s) = TOK_VARIABLE
  /\ s_bound (tx_next_token s) = v_address var.
Proof.
  intros Hl Ha Hf Hk.
  unfold tx_next_token. simpl next_token_loop.
  pose proof (scan_identifier (with_type s TOK_NULL) Ha) as Hs.
  cbv zeta in Hs.
  change (next (with_type s TOK_NULL)) with (next s) in Hs.
  unfold resolve in Hs.
  rewrite (find_lookup_first _ _ vars) in Hs by exact Hl.
  change (lookup_len (move (mark (with_type s TOK_NULL)) (ident_end (next s))))
    with (lookup_len s) in Hs.
  rewrite Hf, Hk in Hs. simpl in Hs.
  rewrite Hs. simpl. split; reflexivity.
Qed.

(** * The parser builds well-formed trees *)


Lemma wp_bind {A B} (c : M A) (k : A -> M B) Q w :
  wp c (fun a w' => wp (k a) Q w') w -> wp (Bind c k) Q w.
Proof. unfold wp, Bind. destruct (c w) as [[a w']|]; auto. Qed.

Lemma wp_mono {A} (c : M A) (Q Q' : A -> world -> Prop) w :
  wp c Q w -> (forall a w', Q a w' -> Q' a w') -> wp c Q' w.
Proof. unfold wp. destruct (c w) as [[a w']|]; auto. Qed.

Lemma wp_run {A} (c : M A) Q w a w' :
  wp c Q w -> c w = Some (a, w') -> Q a w'.
Proof. unfold wp. intros H E. rewrite E in H. exact H. Qed.

Lemma wp_intro {A} (c : M A) (Q : A -> world -> Prop) w :
  (forall a w', c w = Some (a, w') -> Q a w') -> wp c Q w.
Proof. unfold wp. intros H. destruct (c w) as [[a w']|]; auto. Qed.

Lemma wp_ret {A} (a : A) (Q : A -> world -> Prop) w : Q a w -> wp (Ret a) Q w.
Proof. exact (fun H => H). Qed.

Lemma wp_get_state (Q : state -> world -> Prop) w : Q (st w) w -> wp get_state Q w.
Proof. exact (fun H => H). Qed.

Lemma wp_next_token (Q : unit -> world -> Prop) w :
  Q tt (mk_world (tx_next_token (st w)) (heap w) (oom w)) -> wp next_token Q w.
Proof. exact (fun H => H). Qed.

Lemma wp_set_error (Q : unit -> world -> Prop) w :
  Q tt (mk_world (with_type (st w) TOK_ERROR) (heap w) (oom w)) -> wp set_error Q w.
Proof. exact (fun H => H). Qed.

Lemma wp_check_null (p : tx_expr) (k : M tx_expr) Q w :
  (p = NULL -> Q NULL w) -> (is_null p = false -> wp k Q w) ->
  wp (CHECK_NULL p k) Q w.
Proof.
  intros H1 H2. unfold CHECK_NULL. destruct p; simpl.
  - apply H1. reflexivity.
  - apply H2. reflexivity.
Qed.

Lemma wp_new_expr t ps (Q : tx_expr -> world -> Prop) w :
  (forall w', Q NULL w') ->
  (forall w', st w' = st w ->
     Q (Node t (eu_bound P_null) (new_expr_children t ps) P_null) w') ->
  wp (new_expr t ps) Q w.
Proof.
  intros H1 H2. destruct (new_expr_spec t ps w) as (r & w' & E & Hs & Hr).
  unfold wp. rewrite E. destruct Hr as [[-> _]|[-> _]]; auto.
Qed.






Lemma kind_not_leaf (t : Z) :
  is_function_kind (TYPE_MASK t) || is_closure_kind (TYPE_MASK t) = true ->
  (t =? TX_CONSTANT) = false /\ (t =? TX_VARIABLE) = false.
Proof.
  intros H. split; apply Z.eqb_neq; intros E; subst t; discriminate H.
Qed.

Lemma well_formed_call t f ps ctx :
  is_function_kind (TYPE_MASK t) || is_closure_kind (TYPE_MASK t) = true ->
  Z.of_nat (List.length ps) = ARITY t ->
  Forall (fun c => well_formed c = true) ps ->
  well_formed (Node t (eu_function f) ps ctx) = true.
Proof.
  intros Hk Hl Hps. destruct (kind_not_leaf t Hk) as [Hc Hv].
  simpl. rewrite Hc, Hv, Hk, Hl, Z.eqb_refl. simpl.
  apply forallb_forall. rewrite Forall_forall in Hps. exact Hps.
Qed.

Lemma set_context_call t f ps s :
  set_context (set_function (Node t (eu_bound P_null) ps P_null) f) s
  = Node t (eu_function f) ps (if IS_CLOSURE (type s) then context s else P_null).
Proof. simpl. destruct (IS_CLOSURE (type s)); reflexivity. Qed.

Lemma binary_head_builds operand loop :
  builds operand -> extends loop -> builds (binary_head operand loop).
Proof.
  intros Ho Hl w. unfold binary_head.
  apply wp_bind. eapply wp_mono; [apply Ho|].
  intros p w1 Hp. apply wp_check_null; [intros; discriminate|].
  intros Hn. apply Hl. intros He. apply Hp; assumption.
Qed.

Lemma binary_loop_extends cond fn operand again :
  (forall s, cond s = true -> type s <> TOK_ERROR) ->
  builds operand -> extends again ->
  extends (binary_loop cond fn operand again).
Proof.
  intros Hc Ho Ha ret w Hret. unfold binary_loop.
  apply wp_bind, wp_get_state.
  destruct (cond (st w)) eqn:E.
  2:{ apply wp_ret. intros _ He. apply Hret, He. }
  pose proof (Hret (Hc _ E)) as Hwf.
  apply wp_bind, wp_next_token.
  apply wp_bind. eapply wp_mono; [apply Ho|].
  intros p w2 Hp. apply wp_check_null; [intros; discriminate|]. intros Hn.
  apply wp_bind, wp_new_expr; [intros w3; apply wp_check_null; [discriminate|discriminate]|].
  intros w3 Hs. apply wp_check_null; [discriminate|]. intros _.
  apply Ha. rewrite Hs. intros He.
  apply well_formed_call; [reflexivity | reflexivity|].
  constructor; [exact Hwf|]. constructor; [apply Hp; assumption | constructor].
Qed.

Lemma power_body_builds signs base :
  builds base -> builds (power_body signs base).
Proof.
  intros Hb w. unfold power_body.
  apply wp_bind, wp_intro. intros sign w1 _.
  destruct (sign =? 1); [apply Hb|].
  apply wp_bind. eapply wp_mono; [apply Hb|].
  intros b w2 Hwb. apply wp_check_null; [intros; discriminate|]. intros Hn.
  apply wp_bind, wp_new_expr; [intros w3; apply wp_check_null; [discriminate|discriminate]|].
  intros w3 Hs. apply wp_check_null; [discriminate|]. intros _.
  apply wp_ret. intros _ He. rewrite Hs in He.
  apply well_formed_call; [reflexivity | reflexivity|].
  constructor; [apply Hwb; assumption | constructor].
Qed.

Lemma set_nth_filled_wf e : well_formed e = true -> forall ps i,
  Forall (fun c => well_formed c = true) (firstn i ps) ->
  Forall (fun c => well_formed c = true) (firstn (S i) (set_nth i e ps)).
Proof.
  intros He. induction ps as [|p ps IH]; intros i H; [destruct i; constructor|].
  destruct i as [|i].
  - simpl. constructor; [exact He | constructor].
  - simpl in H. inversion H; subst.
    change (firstn (S (S i)) (set_nth (S i) e (p :: ps)))
      with (p :: firstn (S i) (set_nth i e ps)).
    constructor; [assumption | apply IH; assumption].
Qed.

Lemma set_parameter_filled_wf n i e :
  0 <= i -> well_formed e = true -> filled_wf (Z.to_nat i) n ->
  filled_wf (Z.to_nat (i + 1)) (set_parameter n i e).
Proof.
  intros Hi He H. unfold filled_wf in *.
  destruct n as [|t u ps c]; simpl in *; [rewrite firstn_nil; constructor|].
  replace (Z.to_nat (i + 1)) with (S (Z.to_nat i)) by lia.
  apply set_nth_filled_wf; assumption.
Qed.

Lemma arguments_body_fills expr again arity :
  builds expr -> fills_at arity again ->
  fills_at arity (arguments_body expr again arity).
Proof.
  intros He Ha i ret w Hi Hn Hf. unfold arguments_body.
  destruct (i <? arity) eqn:Ei.
  2:{ apply Z.ltb_ge in Ei. apply wp_ret.
      repeat split; [apply same_node_refl; assumption | lia | lia]. }
  apply wp_bind, wp_next_token.
  apply wp_bind. eapply wp_mono; [apply He|].
  intros p w2 Hp. destruct (is_null p) eqn:Enp; [apply wp_ret; exact I|].
  apply wp_bind, wp_get_state.
  pose proof (set_parameter_same ret i p Hn) as Hsame.
  destruct (negb (type (st w2) =? TOK_SEP)) eqn:Es.
  - apply wp_ret. repeat split; [assumption | lia|].
    intros _ Herr. apply set_parameter_filled_wf; [lia | apply Hp; assumption | assumption].
  - apply negb_false_iff, Z.eqb_eq in Es.
    assert (Herr : type (st w2) <> TOK_ERROR) by (rewrite Es; discriminate).
    eapply wp_mono.
    { apply (Ha (i + 1) (set_parameter ret i p) w2);
        [lia | apply set_parameter_not_null; assumption|].
      apply set_parameter_filled_wf; [lia | apply Hp; assumption | assumption]. }
    intros [[n i']|] w3; [|auto].
    intros (H1 & H2 & H3). repeat split;
      [eapply same_node_trans; eauto | lia | assumption].
Qed.

Lemma expect_close_wp (Q : unit -> world -> Prop) w :
  (type (st w) <> TOK_CLOSE ->
   Q tt (mk_world (with_type (st w) TOK_ERROR) (heap w) (oom w))) ->
  (type (st w) = TOK_CLOSE ->
   Q tt (mk_world (tx_next_token (st w)) (heap w) (oom w))) ->
  wp expect_close Q w.
Proof.
  intros H1 H2. unfold expect_close. apply wp_bind, wp_get_state.
  destruct (type (st w) =? TOK_CLOSE) eqn:E; simpl.
  - apply wp_next_token, H2. apply Z.eqb_eq. exact E.
  - apply wp_set_error, H1. apply Z.eqb_neq. exact E.
Qed.

Lemma good_error r s h o : good r (mk_world (with_type s TOK_ERROR) h o).
Proof. intros _ H. exfalso. apply H. reflexivity. Qed.

Lemma base_body_builds power arguments list :
  builds power -> (forall arity, fills_at arity (arguments arity)) -> builds list ->
  builds (base_body power arguments list).
Proof.
  intros Hp Ha Hl w. unfold base_body.
  apply wp_bind, wp_get_state. cbv zeta.
  set (t := type (st w)). set (k := TYPE_MASK t).
  assert (Hnull : forall c : M tx_expr, wp (CHECK_NULL NULL c) good w)
    by (intros c; apply wp_check_null; [discriminate | discriminate]).
  assert (Hnull' : forall (c : M tx_expr) w', wp (CHECK_NULL NULL c) good w')
    by (intros c w'; apply wp_check_null; [discriminate | discriminate]).
  destruct (k =? TOK_NUMBER_R).
  { apply wp_bind, wp_new_expr; [intros; apply Hnull'|].
    intros w1 Hs. apply wp_check_null; [discriminate|]. intros _.
    apply wp_bind, wp_next_token, wp_ret. intros _ _. reflexivity. }
  destruct (k =? TOK_NUMBER_I).
  { apply wp_bind, wp_new_expr; [intros; apply Hnull'|].
    intros w1 Hs. apply wp_check_null; [discriminate|]. intros _.
    apply wp_bind, wp_next_token, wp_ret. intros _ _. reflexivity. }
  destruct (k =? TOK_VARIABLE).
  { apply wp_bind, wp_new_expr; [intros; apply Hnull'|].
    intros w1 Hs. apply wp_check_null; [discriminate|]. intros _.
    apply wp_bind, wp_next_token, wp_ret. intros _ _. reflexivity. }
  destruct ((k =? TX_FUNCTION0) || (k =? TX_CLOSURE0)) eqn:E0.
  { assert (Hk : is_function_kind k || is_closure_kind k = true).
    { apply orb_prop in E0 as [E|E]; apply Z.eqb_eq in E; rewrite E; reflexivity. }
    assert (Har : ARITY t = 0).
    { destruct (kind_arity t Hk) as [-> _]. fold k.
      apply orb_prop in E0 as [E|E]; apply Z.eqb_eq in E; rewrite E; reflexivity. }
    apply wp_bind, wp_new_expr; [intros; apply Hnull'|].
    intros w1 Hs. apply wp_check_null; [discriminate|]. intros _.
    rewrite set_context_call.
    assert (Hwf : well_formed
                    (Node t (eu_function (s_function (st w)))
                          (new_expr_children t None)
                          (if IS_CLOSURE t then context (st w) else P_null)) = true).
    { apply well_formed_call; [exact Hk | | ].
      - unfold new_expr_children. rewrite repeat_length, Har. reflexivity.
      - unfold new_expr_children. rewrite Har. constructor. }
    apply wp_bind, wp_next_token. apply wp_bind, wp_get_state. apply wp_bind.
    match goal with |- context [type ?s1 =? TOK_OPEN] => destruct (type s1 =? TOK_OPEN) end.
    - apply wp_bind, wp_next_token. apply expect_close_wp; intros _; apply wp_ret;
        intros _ _; exact Hwf.
    - apply wp_ret, wp_ret. intros _ _. exact Hwf. }
  destruct ((k =? TX_FUNCTION1) || (k =? TX_CLOSURE1)) eqn:E1.
  { assert (Hk : is_function_kind k || is_closure_kind k = true).
    { apply orb_prop in E1 as [E|E]; apply Z.eqb_eq in E; rewrite E; reflexivity. }
    assert (Har : ARITY t = 1).
    { destruct (kind_arity t Hk) as [-> _]. fold k.
      apply orb_prop in E1 as [E|E]; apply Z.eqb_eq in E; rewrite E; reflexivity. }
    apply wp_bind, wp_new_expr; [intros; apply Hnull'|].
    intros w1 Hs. apply wp_check_null; [discriminate|]. intros _.
    rewrite set_context_call.
    apply wp_bind, wp_next_token.
    apply wp_bind. eapply wp_mono; [apply Hp|].
    intros p w3 Hwp. apply wp_check_null; [intros; discriminate|]. intros Hn.
    apply wp_ret. intros _ He.
    unfold new_expr_children. rewrite Har.
    change (Z.to_nat 1) with 1%nat. cbn [repeat set_parameter set_nth Z.to_nat].
    apply well_formed_call; [exact Hk | rewrite Har; reflexivity|].
    constructor; [apply Hwp; assumption | constructor]. }
  destruct (is_function_kind k || is_closure_kind k) eqn:E2.
  { destruct (kind_arity t E2) as [Har Hrange].
    apply wp_bind, wp_new_expr; [intros; apply Hnull'|].
    intros w1 Hs. apply wp_check_null; [discriminate|]. intros _.
    rewrite set_context_call. fold t.
    set (node := Node t _ _ _).
    apply wp_bind, wp_next_token. apply wp_bind, wp_get_state.
    match goal with
    | |- context [negb (type ?s1 =? TOK_OPEN)] => destruct (negb (type s1 =? TOK_OPEN))
    end.
    { apply wp_bind, wp_set_error, wp_ret, good_error. }
    apply wp_bind. eapply wp_mono.
    { apply (Ha (ARITY t) 0 node); [lia | reflexivity | constructor]. }
    intros [[n i']|] w3; [|intros _; apply wp_ret; discriminate].
    intros (Hsame & Hi & Hfill).
    apply wp_bind, wp_get_state. apply wp_bind.
    destruct (negb (type (st w3) =? TOK_CLOSE) || negb (i' =? ARITY t - 1)) eqn:Ec.
    { apply wp_set_error, wp_ret, good_error. }
    apply orb_false_elim in Ec as [Ecl Ei].
    apply negb_false_iff, Z.eqb_eq in Ecl, Ei.
    apply wp_next_token, wp_ret. intros _ _.
    assert (Hf : filled_wf (Z.to_nat (i' + 1)) n).
    { apply Hfill; [lia | rewrite Ecl; discriminate]. }
    subst node. destruct n as [|t' u' ps' c']; [contradiction|].
    simpl in Hsame. destruct Hsame as (<- & <- & <- & Hlen).
    unfold new_expr_children in Hlen. rewrite repeat_length in Hlen.
    apply well_formed_call; [exact E2 | lia|].
    unfold filled_wf in Hf. simpl in Hf.
    rewrite firstn_all2 in Hf by lia. exact Hf. }
  destruct (k =? TOK_OPEN).
  { apply wp_bind, wp_next_token.
    apply wp_bind. eapply wp_mono; [apply Hl|].
    intros p w2 Hwp. apply wp_check_null; [intros; discriminate|]. intros Hn.
    apply wp_bind. apply expect_close_wp.
    - intros _. apply wp_ret, good_error.
    - intros Ecl. apply wp_ret. intros _ _. apply Hwp; [exact Hn|].
      rewrite Ecl. discriminate. }
  apply wp_bind, wp_new_expr; [intros; apply Hnull'|].
  intros w1 Hs. apply wp_check_null; [discriminate|]. intros _.
  apply wp_bind, wp_set_error, wp_ret, good_error.
Qed.

(** Every production builds well-formed trees, whatever the budget. *)
Lemma parser_builds : forall fuel,
  builds (Grammar.base fuel)
  /\ (forall arity, fills_at arity (Grammar.arguments fuel arity))
  /\ builds (Grammar.power fuel)
  /\ extends (Grammar.factor_loop fuel) /\ builds (Grammar.factor fuel)
  /\ extends (Grammar.term_loop fuel) /\ builds (Grammar.term fuel)
  /\ extends (Grammar.expr_loop fuel) /\ builds (Grammar.expr fuel)
  /\ extends (Grammar.list_loop fuel) /\ builds (Grammar.list fuel).
Proof.
  assert (Hinfix : forall s, type s = TOK_INFIX -> type s <> TOK_ERROR)
    by (intros s E; rewrite E; discriminate).
  induction fuel as [|fuel (Hb & Ha & Hp & Hfl & Hf & Htl & Ht & Hel & He & Hll & Hl)].
  - repeat split; repeat intro; exact I.
  - repeat split.
    + intros w. apply base_body_builds; assumption.
    + intros arity i ret w. apply arguments_body_fills; [assumption | apply Ha].
    + intros w. apply power_body_builds; assumption.
    + intros ret w. apply binary_loop_extends; try assumption.
      intros s H. apply andb_prop in H as [H _]. apply Hinfix, Z.eqb_eq, H.
    + intros w. apply binary_head_builds; assumption.
    + intros ret w. apply binary_loop_extends; try assumption.
      intros s H. apply andb_prop in H as [H _]. apply Hinfix, Z.eqb_eq, H.
    + intros w. apply binary_head_builds; assumption.
    + intros ret w. apply binary_loop_extends; try assumption.
      intros s H. apply andb_prop in H as [H _]. apply Hinfix, Z.eqb_eq, H.
    + intros w. apply binary_head_builds; assumption.
    + intros ret w. apply binary_loop_extends; try assumption.
      intros s H. apply Z.eqb_eq in H. rewrite H. discriminate.
    + intros w. apply binary_head_builds; assumption.
Qed.

(** * Compiled trees *)

Section Compiled.

Variable R : runtime.

Lemma is_constant_eval (m1 m2 : memory) (c : tx_expr) :
  is_constant c = true -> tx_eval R m1 c = tx_eval R m2 c.
Proof.
  destruct c as [|t u ps ctx]; [discriminate|]. simpl is_constant.
  intros E. apply Z.eqb_eq in E. subst t. reflexivity.
Qed.

Lemma constants_eval (m1 m2 : memory) (ps : list tx_expr) :
  forallb is_constant ps = true ->
  List.map (tx_eval R m1) ps = List.map (tx_eval R m2) ps.
Proof.
  induction ps as [|p ps IH]; [reflexivity|]. simpl.
  intros H. apply andb_prop in H as [Hp Hps].
  rewrite (is_constant_eval m1 m2 p Hp), (IH Hps). reflexivity.
Qed.

(** A call evaluates alike in two storages when its arguments do and its
    function does not depend on the storage. *)
Lemma tx_eval_call (m1 m2 : memory) t u ps ctx :
  is_function_kind (TYPE_MASK t) || is_closure_kind (TYPE_MASK t) = true ->
  storage_free R (u_function u) ->
  List.map (tx_eval R m1) ps = List.map (tx_eval R m2) ps ->
  tx_eval R m1 (Node t u ps ctx) = tx_eval R m2 (Node t u ps ctx).
Proof.
  intros Hk Hf Hps. simpl. rewrite Hps.
  destruct (TYPE_MASK t =? TX_CONSTANT) eqn:Ec.
  { apply Z.eqb_eq in Ec. rewrite Ec in Hk. discriminate. }
  destruct (TYPE_MASK t =? TX_VARIABLE) eqn:Ev.
  { apply Z.eqb_eq in Ev. rewrite Ev in Hk. discriminate. }
  destruct (is_function_kind (TYPE_MASK t));
    [destruct (ARITY t <=? 6); [apply Hf | reflexivity]|].
  destruct (is_closure_kind (TYPE_MASK t)); [|reflexivity].
  destruct (ARITY t <=? 6); [apply Hf | reflexivity].
Qed.

Lemma honest_children t u ps ctx :
  honest R (Node t u ps ctx) -> Forall (honest R) ps.
Proof.
  intros [_ H]. induction ps as [|p ps IH]; [constructor|].
  simpl in H. destruct H as [Hp Hps]. constructor; auto.
Qed.

Lemma well_formed_children t u ps ctx :
  well_formed (Node t u ps ctx) = true ->
  Forall (fun c => well_formed c = true) ps.
Proof.
  intros H. simpl in H.
  destruct (t =? TX_CONSTANT); [destruct u, ps; try discriminate; constructor|].
  destruct (t =? TX_VARIABLE); [destruct u, ps; try discriminate; constructor|].
  apply andb_prop in H as [_ H]. apply Forall_forall.
  rewrite forallb_forall in H. exact H.
Qed.

(** Folding is sound in every storage: when the flags are honest, the
    tree that the optimizer made in storage [m0] evaluates in any storage
    [m] to what the original tree evaluates to in [m]. *)
Lemma optimize_any_storage (m0 m : memory) (n : tx_expr) :
  well_formed n = true -> honest R n ->
  tx_eval R m (optimize R m0 n) = tx_eval R m n.
Proof.
  induction n as [|t u ps ctx IH] using tx_expr_induction; [reflexivity|].
  intros Hwf Hh. rewrite optimize_unfold.
  destruct (t =? TX_CONSTANT) eqn:Ec; [reflexivity|].
  destruct (t =? TX_VARIABLE) eqn:Ev; [reflexivity|].
  destruct (IS_PURE t) eqn:Ep; [|reflexivity]. cbv zeta.
  apply Z.eqb_neq in Ec, Ev.
  destruct (well_formed_node _ _ _ _ Hwf Ec Ev) as (Hk & Hl & _ & _).
  pose proof (well_formed_children _ _ _ _ Hwf) as Hwc.
  pose proof (honest_children _ _ _ _ Hh) as Hhc.
  rewrite optimize_children_all by lia.
  assert (E : List.map (tx_eval R m) (List.map (optimize R m0) ps)
              = List.map (tx_eval R m) ps).
  { rewrite map_map. apply map_ext_in. intros c Hc.
    rewrite Forall_forall in IH, Hwc, Hhc. apply IH; auto. }
  unfold known. rewrite firstn_all2 by (rewrite length_map; lia).
  destruct (forallb is_constant (List.map (optimize R m0) ps)) eqn:Ek.
  - rewrite tx_eval_constant.
    rewrite (tx_eval_call m0 m t u (List.map (optimize R m0) ps) ctx Hk);
      [apply tx_eval_children, E | apply Hh, Ep | apply constants_eval, Ek].
  - apply tx_eval_children, E.
Qed.

(** Functions of the repository and of the C library do not depend on
    the caller's storage. *)
Lemma builtin_storage_free (f : fnptr) :
  (forall id, f <> f_extern id) -> storage_free R (P_fun f).
Proof.
  intros H ctx args m1 m2. destruct f; try reflexivity.
  destruct (H id eq_refl).
Qed.

Variable m0 : memory.
Variable expression : string.
Variable variables : option (list tx_variable).
Variable var_count : Z.
Variable h : list bool.

(** A handle that [tx_compile] returns is the optimized form of the tree
    that the parser built, and both are well formed. *)
Lemma tx_compile_handle :
  let r := tx_compile R m0 expression variables var_count h in
  is_null (handle r) = false ->
  exists root w,
    Grammar.list (fuel_for expression)
                 (initial expression variables var_count h) = Some (root, w)
    /\ type (st w) = TOK_END
    /\ well_formed root = true
    /\ handle r = optimize R m0 root
    /\ well_formed (handle r) = true.
Proof.
  intros r Hn.
  destruct (tx_compile_parse R m0 expression variables var_count h (fun _ => True))
    as (root & w & El & E & _ & _); auto.
  subst r. rewrite E in *. unfold finish in *.
  destruct (is_null root) eqn:Er; [discriminate Hn|].
  destruct (type (st w) =? TOK_END) eqn:Et; [|discriminate Hn].
  apply Z.eqb_eq in Et.
  assert (Hwf : well_formed root = true).
  { destruct (parser_builds (fuel_for expression)) as (_&_&_&_&_&_&_&_&_&_&Hl).
    apply (wp_run _ _ _ _ _ (Hl _) El); [exact Er | rewrite Et; discriminate]. }
  exists root, w. repeat split; try assumption.
  apply optimize_well_formed, Hwf.
Qed.

End Compiled.

(** * The budget does not matter

    A production that returns within a nesting budget returns the same
    result within any larger one: the result of [tx_compile] is that of
    the C function, whatever budget above [fuel_for] the model is given. *)

Lemma refines_refl {A : Type} (p : M A) : refines p p.
Proof. intros w r H. exact H. Qed.

Lemma refines_trans {A : Type} (p q r : M A) :
  refines p q -> refines q r -> refines p r.
Proof. intros H1 H2 w a H. auto. Qed.

Lemma refines_out_of_fuel {A : Type} (p : M A) : refines out_of_fuel p.
Proof. intros w r H. discriminate. Qed.

Lemma refines_bind {A B : Type} (p q : M A) (f g : A -> M B) :
  refines p q -> (forall a, refines (f a) (g a)) ->
  refines (Bind p f) (Bind q g).
Proof.
  intros Hp Hf w r H. unfold Bind in *.
  destruct (p w) as [[a w1]|] eqn:E; [|discriminate].
  rewrite (Hp _ _ E). apply Hf, H.
Qed.

Ltac monotone :=
  repeat first
    [ assumption
    | apply refines_refl
    | match goal with
      | |- refines (if ?c then _ else _) _ => destruct c
      | |- refines (match ?r with Some _ => _ | None => _ end) _ =>
          destruct r as [[? ?]|]
      | |- refines (CHECK_NULL _ _) _ => unfold CHECK_NULL
      | |- refines (Bind _ _) (Bind _ _) => apply refines_bind; [|intros ?]
      | H : forall _, refines _ _ |- _ => apply H
      end ].

Lemma signs_body_refines (a a' : Z -> M Z) (sign : Z) :
  (forall z, refines (a z) (a' z)) ->
  refines (signs_body a sign) (signs_body a' sign).
Proof. intros H. unfold signs_body. monotone. Qed.

Lemma power_body_refines (s s' : M Z) (b b' : M tx_expr) :
  refines s s' -> refines b b' ->
  refines (power_body s b) (power_body s' b').
Proof. intros Hs Hb. unfold power_body. monotone. Qed.

Lemma binary_loop_refines cond fn (o o' : M tx_expr) (a a' : tx_expr -> M tx_expr) ret :
  refines o o' -> (forall r, refines (a r) (a' r)) ->
  refines (binary_loop cond fn o a ret) (binary_loop cond fn o' a' ret).
Proof. intros Ho Ha. unfold binary_loop. monotone. Qed.

Lemma binary_head_refines (o o' : M tx_expr) (l l' : tx_expr -> M tx_expr) :
  refines o o' -> (forall r, refines (l r) (l' r)) ->
  refines (binary_head o l) (binary_head o' l').
Proof. intros Ho Hl. unfold binary_head. monotone. Qed.

Lemma arguments_body_refines (e e' : M tx_expr)
      (a a' : Z -> tx_expr -> M (option (tx_expr * Z))) arity i ret :
  refines e e' -> (forall j r, refines (a j r) (a' j r)) ->
  refines (arguments_body e a arity i ret) (arguments_body e' a' arity i ret).
Proof.
  intros He Ha. unfold arguments_body. monotone. apply Ha.
Qed.

Lemma base_body_refines (p p' : M tx_expr)
      (a a' : Z -> Z -> tx_expr -> M (option (tx_expr * Z))) (l l' : M tx_expr) :
  refines p p' -> (forall n j r, refines (a n j r) (a' n j r)) ->
  refines l l' ->
  refines (base_body p a l) (base_body p' a' l').
Proof.
  intros Hp Ha Hl. unfold base_body.
  apply refines_bind; [apply refines_refl|]. intros s. cbv zeta.
  monotone. apply Ha.
Qed.

Lemma signs_step : forall fuel sign,
  refines (Grammar.signs fuel sign) (Grammar.signs (S fuel) sign).
Proof.
  induction fuel as [|fuel IH]; intros sign; [apply refines_out_of_fuel|].
  intros w r H. change (signs_body (Grammar.signs (S fuel)) sign w = Some r).
  change (signs_body (Grammar.signs fuel) sign w = Some r) in H.
  revert w r H. apply signs_body_refines. exact IH.
Qed.

(** One more level of nesting changes no result. *)
Lemma parser_step : forall fuel,
  refines (Grammar.base fuel) (Grammar.base (S fuel))
  /\ (forall arity i ret,
        refines (Grammar.arguments fuel arity i ret)
                (Grammar.arguments (S fuel) arity i ret))
  /\ refines (Grammar.power fuel) (Grammar.power (S fuel))
  /\ (forall ret, refines (Grammar.factor_loop fuel ret)
                          (Grammar.factor_loop (S fuel) ret))
  /\ refines (Grammar.factor fuel) (Grammar.factor (S fuel))
  /\ (forall ret, refines (Grammar.term_loop fuel ret)
                          (Grammar.term_loop (S fuel) ret))
  /\ refines (Grammar.term fuel) (Grammar.term (S fuel))
  /\ (forall ret, refines (Grammar.expr_loop fuel ret)
                          (Grammar.expr_loop (S fuel) ret))
  /\ refines (Grammar.expr fuel) (Grammar.expr (S fuel))
  /\ (forall ret, refines (Grammar.list_loop fuel ret)
                          (Grammar.list_loop (S fuel) ret))
  /\ refines (Grammar.list fuel) (Grammar.list (S fuel)).
Proof.
  induction fuel as [|fuel IH].
  { repeat split; intros; apply refines_out_of_fuel. }
  destruct IH as (Hb & Ha & Hp & Hfl & Hf & Htl & Ht & Hel & He & Hll & Hl).
  repeat split; intros.
  - intros w r H.
    change (base_body (Grammar.power (S fuel)) (Grammar.arguments (S fuel))
                      (Grammar.list (S fuel)) w = Some r).
    change (base_body (Grammar.power fuel) (Grammar.arguments fuel)
                      (Grammar.list fuel) w = Some r) in H.
    revert w r H. apply base_body_refines; assumption.
  - intros w r H.
    change (arguments_body (Grammar.expr (S fuel)) (Grammar.arguments (S fuel) arity)
                           arity i ret w = Some r).
    change (arguments_body (Grammar.expr fuel) (Grammar.arguments fuel arity)
                           arity i ret w = Some r) in H.
    revert w r H. apply arguments_body_refines; [assumption|]. intros; apply Ha.
  - intros w r H.
    change (power_body (Grammar.signs (S fuel) 1) (Grammar.base (S fuel)) w = Some r).
    change (power_body (Grammar.signs fuel 1) (Grammar.base fuel) w = Some r) in H.
    revert w r H. apply power_body_refines; [apply signs_step | assumption].
  - intros w r H.
    change (binary_loop is_pow s_function (Grammar.power (S fuel))
                        (Grammar.factor_loop (S fuel)) ret w = Some r).
    change (binary_loop is_pow s_function (Grammar.power fuel)
                        (Grammar.factor_loop fuel) ret w = Some r) in H.
    revert w r H. apply binary_loop_refines; assumption.
  - intros w r H.
    change (binary_head (Grammar.power (S fuel)) (Grammar.factor_loop (S fuel)) w
            = Some r).
    change (binary_head (Grammar.power fuel) (Grammar.factor_loop fuel) w = Some r)
      in H.
    revert w r H. apply binary_head_refines; assumption.
  - intros w r H.
    change (binary_loop is_mul_div s_function (Grammar.factor (S fuel))
                        (Grammar.term_loop (S fuel)) ret w = Some r).
    change (binary_loop is_mul_div s_function (Grammar.factor fuel)
                        (Grammar.term_loop fuel) ret w = Some r) in H.
    revert w r H. apply binary_loop_refines; assumption.
  - intros w r H.
    change (binary_head (Grammar.factor (S fuel)) (Grammar.term_loop (S fuel)) w
            = Some r).
    change (binary_head (Grammar.factor fuel) (Grammar.term_loop fuel) w = Some r)
      in H.
    revert w r H. apply binary_head_refines; assumption.
  - intros w r H.
    change (binary_loop is_sign s_function (Grammar.term (S fuel))
                        (Grammar.expr_loop (S fuel)) ret w = Some r).
    change (binary_loop is_sign s_function (Grammar.term fuel)
                        (Grammar.expr_loop fuel) ret w = Some r) in H.
    revert w r H. apply binary_loop_refines; assumption.
  - intros w r H.
    change (binary_head (Grammar.term (S fuel)) (Grammar.expr_loop (S fuel)) w
            = Some r).
    change (binary_head (Grammar.term fuel) (Grammar.expr_loop fuel) w = Some r)
      in H.
    revert w r H. apply binary_head_refines; assumption.
  - intros w r H.
    change (binary_loop is_sep (fun _ => P_fun f_comma) (Grammar.expr (S fuel))
                        (Grammar.list_loop (S fuel)) ret w = Some r).
    change (binary_loop is_sep (fun _ => P_fun f_comma) (Grammar.expr fuel)
                        (Grammar.list_loop fuel) ret w = Some r) in H.
    revert w r H. apply binary_loop_refines; assumption.
  - intros w r H.
    change (binary_head (Grammar.expr (S fuel)) (Grammar.list_loop (S fuel)) w
            = Some r).
    change (binary_head (Grammar.expr fuel) (Grammar.list_loop fuel) w = Some r)
      in H.
    revert w r H. apply binary_head_refines; assumption.
Qed.

Lemma list_budget (fuel fuel' : nat) :
  (fuel <= fuel')%nat -> refines (Grammar.list fuel) (Grammar.list fuel').
Proof.
  induction 1 as [|k _ IH]; [apply refines_refl|].
  eapply refines_trans; [exact IH|]. apply parser_step.
Qed.

(** Any budget from [fuel_for] on gives the result of [tx_compile]. *)
Lemma tx_compile_budget (R : runtime) (m : memory) (fuel : nat)
      (expression : string) (variables : option (list tx_variable))
      (var_count : Z) (h : list bool) :
  (fuel_for expression <= fuel)%nat ->
  tx_compile_fuel R m fuel expression variables var_count h
  = Some (tx_compile R m expression variables var_count h).
Proof.
  intros Hf.
  pose proof (tx_compile_total R m expression variables var_count h) as Ht.
  unfold tx_compile_fuel in *.
  destruct (Grammar.list (fuel_for expression)
                         (initial expression variables var_count h))
    as [[root w]|] eqn:E; [|discriminate].
  rewrite (list_budget _ _ Hf _ _ E). exact Ht.
Qed.

(** * The builtin table *)

(** What the binary search returns is an entry of the table whose name
    is the lexeme. *)
Lemma find_builtin_loop_sound : forall fuel name len imin imax fi,
  0 <= imin -> imax < Z.of_nat (List.length functions) ->
  find_builtin_loop fuel name len imin imax = Some fi ->
  In fi functions /\ name_matches name len fi = true.
Proof.
  induction fuel as [|fuel IH]; intros name len imin imax fi Hmin Hmax H;
    [discriminate|].
  cbn [find_builtin_loop] in H.
  destruct (imax >=? imin) eqn:Ei; [|discriminate].
  apply Z.geb_le in Ei. cbv zeta in H.
  set (i := imin + (imax - imin) / 2) in *.
  assert (Hi : imin <= i <= imax).
  { unfold i. pose proof (Z.div_pos (imax - imin) 2).
    assert ((imax - imin) / 2 <= imax - imin)
      by (apply Z.div_le_upper_bound; lia).
    lia. }
  set (entry := nth (Z.to_nat i) functions sentinel) in *.
  destruct (strncmp name (v_name entry) len =? 0) eqn:Ec.
  - destruct (code NUL - code (char_at (v_name entry) len) =? 0) eqn:En.
    + injection H as <-. split.
      * apply nth_In. lia.
      * unfold name_matches. rewrite Ec. simpl.
        apply Z.eqb_eq in En. apply Ascii.eqb_eq, code_inj. lia.
    + destruct (code NUL - code (char_at (v_name entry) len) >? 0);
        apply IH in H; auto; lia.
  - rewrite Ec in H.
    destruct (strncmp name (v_name entry) len >? 0);
      apply IH in H; auto; lia.
Qed.

Lemma find_builtin_sound (name : string) (len : nat) (fi : tx_variable) :
  find_builtin name len = Some fi ->
  In fi functions /\ name_matches name len fi = true.
Proof. apply find_builtin_loop_sound; lia. Qed.

(** The table is sorted: the binary search finds every entry by its
    name. *)
Lemma find_builtin_complete :
  Forall (fun fi => find_builtin (v_name fi) (String.length (v_name fi)) = Some fi)
         functions.
Proof. unfold functions. repeat constructor. Qed.

(** * More on the optimizer and the evaluator *)

Section Folding.

Variable R : runtime.

Lemma forallb_map {A B : Type} (f : B -> bool) (g : A -> B) (l : list A) :
  forallb f (List.map g l) = forallb (fun a => f (g a)) l.
Proof. induction l as [|a l IH]; [reflexivity|]. simpl. rewrite IH. reflexivity. Qed.

(** Past the optimizer nothing is left to fold. *)
Lemma optimize_irreducible (m : memory) (n : tx_expr) :
  well_formed n = true -> irreducible (optimize R m n) = true.
Proof.
  induction n as [|t u ps ctx IH] using tx_expr_induction; [reflexivity|].
  intros Hwf. rewrite optimize_unfold.
  destruct (t =? TX_CONSTANT) eqn:Ec; [cbn [irreducible]; rewrite Ec; reflexivity|].
  destruct (t =? TX_VARIABLE) eqn:Ev;
    [cbn [irreducible]; rewrite Ec, Ev; reflexivity|].
  destruct (IS_PURE t) eqn:Ep;
    [|cbn [irreducible]; rewrite Ep, Ec, Ev; reflexivity].
  cbv zeta.
  apply Z.eqb_neq in Ec, Ev.
  destruct (well_formed_node _ _ _ _ Hwf Ec Ev) as (Hk & Hl & _ & Hps).
  rewrite optimize_children_all by lia. unfold known.
  rewrite firstn_all2 by (rewrite length_map; lia).
  destruct (forallb is_constant (List.map (optimize R m) ps)) eqn:Ek;
    [reflexivity|].
  cbn [irreducible]. rewrite Ek, Ep. apply Z.eqb_neq in Ec, Ev. rewrite Ec, Ev.
  cbn [negb orb]. rewrite andb_true_r.
  rewrite forallb_map. apply forallb_forall. intros c Hc.
  rewrite Forall_forall in IH. rewrite forallb_forall in Hps. auto.
Qed.

(** The optimizer changes nothing in a tree in which nothing is left to
    fold. *)
Lemma optimize_fixed (m : memory) (n : tx_expr) :
  well_formed n = true -> irreducible n = true -> optimize R m n = n.
Proof.
  induction n as [|t u ps ctx IH] using tx_expr_induction; [reflexivity|].
  intros Hwf Hi. rewrite optimize_unfold.
  destruct (t =? TX_CONSTANT) eqn:Ec; [reflexivity|].
  destruct (t =? TX_VARIABLE) eqn:Ev; [reflexivity|].
  destruct (IS_PURE t) eqn:Ep; [|reflexivity]. cbv zeta.
  cbn [irreducible] in Hi. rewrite Ec, Ev, Ep in Hi. cbn [negb orb] in Hi.
  apply andb_prop in Hi as [Hi Hn]. apply negb_true_iff in Hn.
  apply Z.eqb_neq in Ec, Ev.
  destruct (well_formed_node _ _ _ _ Hwf Ec Ev) as (Hk & Hl & _ & Hps).
  rewrite optimize_children_all by lia.
  assert (E : List.map (optimize R m) ps = ps).
  { rewrite <- (map_id ps) at 2. apply map_ext_in. intros c Hc.
    rewrite Forall_forall in IH. rewrite forallb_forall in Hps, Hi. auto. }
  rewrite E. unfold known. rewrite firstn_all2 by lia. rewrite Hn. reflexivity.
Qed.

Lemma optimize_idempotent (m : memory) (n : tx_expr) :
  well_formed n = true ->
  optimize R m (optimize R m n) = optimize R m n.
Proof.
  intros H. apply optimize_fixed;
    [apply optimize_well_formed, H | apply optimize_irreducible, H].
Qed.

Lemma size_children_le (f : tx_expr -> tx_expr) (ps : list tx_expr) :
  Forall (fun c => (size (f c) <= size c)%nat) ps ->
  (fold_right (fun c k => (size c + k)%nat) 0%nat (List.map f ps)
   <= fold_right (fun c k => (size c + k)%nat) 0%nat ps)%nat.
Proof.
  induction 1 as [|c l Hc Hl IH]; simpl; lia.
Qed.

(** The optimizer never adds a node. *)
Lemma optimize_size (m : memory) (n : tx_expr) :
  well_formed n = true -> (size (optimize R m n) <= size n)%nat.
Proof.
  induction n as [|t u ps ctx IH] using tx_expr_induction; [reflexivity|].
  intros Hwf. rewrite optimize_unfold.
  destruct (t =? TX_CONSTANT) eqn:Ec; [reflexivity|].
  destruct (t =? TX_VARIABLE) eqn:Ev; [reflexivity|].
  destruct (IS_PURE t) eqn:Ep; [|reflexivity]. cbv zeta.
  apply Z.eqb_neq in Ec, Ev.
  destruct (well_formed_node _ _ _ _ Hwf Ec Ev) as (Hk & Hl & _ & Hps).
  rewrite optimize_children_all by lia.
  destruct (known _ _); [simpl; lia|].
  cbn [size]. apply le_n_S. apply size_children_le.
  rewrite Forall_forall in *. rewrite forallb_forall in Hps. auto.
Qed.

(** ** What an evaluation reads *)

Lemma calls_storage_free_children t u ps ctx :
  calls_storage_free R (Node t u ps ctx) -> Forall (calls_storage_free R) ps.
Proof.
  intros [_ H]. induction ps as [|p ps IH]; [constructor|].
  simpl in H. destruct H as [Hp Hps]. constructor; auto.
Qed.

Lemma in_firstn {A : Type} (a : A) : forall (k : nat) (l : list A),
  In a (firstn k l) -> In a l.
Proof.
  induction k as [|k IH]; intros [|b l] H; simpl in *; try contradiction.
  destruct H as [H|H]; [left; exact H | right; apply IH, H].
Qed.

Lemma nth_map_firstn {A B : Type} (f g : A -> B) (d : B) :
  forall (l : list A) (k e : nat),
    (forall a, In a (firstn k l) -> f a = g a) -> (e < k)%nat ->
    nth e (List.map f l) d = nth e (List.map g l) d.
Proof.
  induction l as [|a l IH]; intros k e H He; [destruct e; reflexivity|].
  destruct k as [|k]; [lia|]. destruct e as [|e]; simpl.
  - apply H. left. reflexivity.
  - apply IH with (k := k); [|lia]. intros b Hb. apply H. right. exact Hb.
Qed.

Lemma read_set_unfold t u ps ctx :
  read_set (Node t u ps ctx)
  = let k := TYPE_MASK t in
    if k =? TX_CONSTANT then []
    else if k =? TX_VARIABLE then
      match u_bound u with P_data a => [a] | _ => [] end
    else if is_function_kind k || is_closure_kind k then
      flat_map read_set (firstn (Z.to_nat (ARITY t)) ps)
    else [].
Proof.
  cbn [read_set]. cbv zeta.
  destruct (TYPE_MASK t =? TX_CONSTANT); [reflexivity|].
  destruct (TYPE_MASK t =? TX_VARIABLE); [reflexivity|].
  destruct (is_function_kind (TYPE_MASK t) || is_closure_kind (TYPE_MASK t));
    [|reflexivity].
  generalize (Z.to_nat (ARITY t)). induction ps as [|c l IH]; intros [|k];
    try reflexivity.
  simpl. rewrite IH. reflexivity.
Qed.

(** Two storages that agree on the addresses of the variable references
    that the evaluation visits give the same value, when the functions
    called do not read the storage themselves. *)
Lemma tx_eval_frame (m1 m2 : memory) (n : tx_expr) :
  calls_storage_free R n ->
  (forall a, In a (read_set n) -> m1 a = m2 a) ->
  tx_eval R m1 n = tx_eval R m2 n.
Proof.
  induction n as [|t u ps ctx IH] using tx_expr_induction; [reflexivity|].
  intros Hf Hm. pose proof (calls_storage_free_children _ _ _ _ Hf) as Hc.
  destruct Hf as [Hf _]. rewrite read_set_unfold in Hm. cbv zeta in Hm.
  cbn [tx_eval]. cbv zeta.
  destruct (TYPE_MASK t =? TX_CONSTANT); [reflexivity|].
  destruct (TYPE_MASK t =? TX_VARIABLE).
  { destruct (u_bound u); try reflexivity. simpl. apply Hm. left. reflexivity. }
  assert (E : is_function_kind (TYPE_MASK t) || is_closure_kind (TYPE_MASK t) = true ->
              List.map (fun e => nth e (List.map (tx_eval R m1) ps) (cx_of_real NAN))
                       (seq 0 (Z.to_nat (ARITY t)))
              = List.map (fun e => nth e (List.map (tx_eval R m2) ps) (cx_of_real NAN))
                         (seq 0 (Z.to_nat (ARITY t)))).
  { intros Hk. rewrite Hk in Hm. apply map_ext_in. intros e He.
    apply in_seq in He.
    apply nth_map_firstn with (k := Z.to_nat (ARITY t)); [|lia].
    intros c Hin. rewrite Forall_forall in IH, Hc.
    pose proof (in_firstn _ _ _ Hin) as Hin'.
    apply IH; [exact Hin' | apply Hc, Hin'|].
    intros a Ha. apply Hm. apply in_flat_map. exists c. split; assumption. }
  destruct (is_function_kind (TYPE_MASK t)) eqn:Ek.
  { destruct (ARITY t <=? 6); [|reflexivity].
    rewrite E by reflexivity. apply Hf. reflexivity. }
  destruct (is_closure_kind (TYPE_MASK t)) eqn:Ecl; [|reflexivity].
  destruct (ARITY t <=? 6); [|reflexivity].
  rewrite E by reflexivity. apply Hf. reflexivity.
Qed.

End Folding.

(** * Chains of binary operators *)

Lemma ptr_eqb_eq (a b : ptr) : ptr_eqb a b = true -> a = b.
Proof. unfold ptr_eqb. destruct (ptr_eq_dec a b); [auto | discriminate]. Qed.

Lemma is_pow_operator s : is_pow s = true -> power_operator (s_function s).
Proof. unfold is_pow. intros H. apply andb_prop in H as [_ H]. apply ptr_eqb_eq, H. Qed.

Lemma is_mul_div_operator s : is_mul_div s = true -> product_operator (s_function s).
Proof.
  unfold is_mul_div. intros H. apply andb_prop in H as [_ H].
  apply orb_prop in H as [H|H]; [left | right]; apply ptr_eqb_eq, H.
Qed.

Lemma is_sign_operator s : is_sign s = true -> sum_operator (s_function s).
Proof.
  unfold is_sign. intros H. apply andb_prop in H as [_ H].
  apply orb_prop in H as [H|H]; [left | right]; apply ptr_eqb_eq, H.
Qed.

(** A successful allocation is a successful call of [malloc]. *)
Lemma new_expr_malloc t ps w r w' :
  new_expr t ps w = Some (r, w') -> is_null r = false ->
  r = Node t (eu_bound P_null) (new_expr_children t ps) P_null
  /\ malloc w = Some (true, w').
Proof.
  unfold new_expr, Bind, malloc, new_expr_children, Ret.
  destruct (heap w) as [|[] h]; intros H Hn; inversion H; subst;
    try discriminate Hn; split; reflexivity.
Qed.

(** One pass of a loop puts a binary node over the result so far and the
    operand just parsed, and goes on from that node. *)
Lemma binary_loop_reads cond fn (op : M tx_expr) again
      (operand : nat -> M tx_expr) (ok : ptr -> Prop) :
  (forall s, cond s = true -> ok (fn s)) ->
  (forall w p w', op w = Some (p, w') -> returns operand w p w') ->
  (forall ret w, wp (again ret) (loop_reads cond fn operand ok ret w) w) ->
  forall ret w,
    wp (binary_loop cond fn op again ret) (loop_reads cond fn operand ok ret w) w.
Proof.
  intros Hc Ho Ha ret w. unfold binary_loop.
  apply wp_bind, wp_get_state.
  destruct (cond (st w)) eqn:E.
  2:{ apply wp_ret. intros _. exists []. split; [constructor; exact E|].
      split; [constructor | reflexivity]. }
  apply wp_bind, wp_next_token.
  change (mk_world (tx_next_token (st w)) (heap w) (oom w)) with (after_token w).
  apply wp_bind, wp_intro. intros p w1 Ep.
  apply wp_check_null; [intros _; discriminate|]. intros Hn.
  apply wp_bind, wp_intro. intros n w2 En.
  apply wp_check_null; [intros _; discriminate|]. intros Hnn.
  destruct (new_expr_malloc _ _ _ _ _ En Hnn) as [-> Hm].
  eapply wp_mono; [apply Ha|]. cbv beta. intros r w3 Hr Hnr.
  destruct (Hr Hnr) as (items & Hread & Hok & ->).
  exists ((fn (st w), p) :: items).
  split; [apply operands_more with w1 w2; auto|].
  split; [constructor; [apply Hc, E | exact Hok] | reflexivity].
Qed.

Lemma binary_head_reads cond fn (op : M tx_expr) loop
      (operand : nat -> M tx_expr) (ok : ptr -> Prop) :
  (forall w p w', op w = Some (p, w') -> returns operand w p w') ->
  (forall ret w, wp (loop ret) (loop_reads cond fn operand ok ret w) w) ->
  forall w,
    wp (binary_head op loop)
       (fun r w' => is_null r = false -> folds_left cond fn operand ok w r w') w.
Proof.
  intros Ho Hl w. unfold binary_head.
  apply wp_bind, wp_intro. intros p w1 Ep.
  apply wp_check_null; [intros _; discriminate|]. intros Hn.
  eapply wp_mono; [apply Hl|]. cbv beta. intros r w2 Hr Hnr.
  destruct (Hr Hnr) as (items & Hread & Hok & ->).
  exists p, w1, items. split; [apply Ho, Ep|]. auto.
Qed.

Lemma returns_intro (production : nat -> M tx_expr) fuel w p w' :
  production fuel w = Some (p, w') -> returns production w p w'.
Proof. intros E. exists fuel. exact E. Qed.

(** A production whose results are kept by one more level of nesting
    returns one result from each world. *)
Lemma refines_le (production : nat -> M tx_expr) :
  (forall fuel, refines (production fuel) (production (S fuel))) ->
  forall fuel fuel', (fuel <= fuel')%nat ->
    refines (production fuel) (production fuel').
Proof.
  intros H fuel fuel'. induction 1 as [|k _ IH]; [apply refines_refl|].
  eapply refines_trans; [exact IH | apply H].
Qed.

Lemma refines_single_valued (production : nat -> M tx_expr) :
  (forall fuel, refines (production fuel) (production (S fuel))) ->
  single_valued production.
Proof.
  intros H w a w1 b w2 [f1 E1] [f2 E2].
  apply (refines_le production H f1 (Nat.max f1 f2)) in E1; [|lia].
  apply (refines_le production H f2 (Nat.max f1 f2)) in E2; [|lia].
  rewrite E1 in E2. inversion E2. auto.
Qed.

Lemma operands_single_valued :
  single_valued Grammar.power /\ single_valued Grammar.factor
  /\ single_valued Grammar.term /\ single_valued Grammar.expr.
Proof.
  split; [|split; [|split]]; apply refines_single_valued; intros fuel;
    apply parser_step.
Qed.

(** The loops of [factor], [term], [expr] and [list]. *)
Lemma loops_read : forall fuel ret w,
  wp (Grammar.factor_loop fuel ret)
     (loop_reads is_pow s_function Grammar.power power_operator ret w) w
  /\ wp (Grammar.term_loop fuel ret)
        (loop_reads is_mul_div s_function Grammar.factor product_operator ret w) w
  /\ wp (Grammar.expr_loop fuel ret)
        (loop_reads is_sign s_function Grammar.term sum_operator ret w) w
  /\ wp (Grammar.list_loop fuel ret)
        (loop_reads is_sep (fun _ => P_fun f_comma) Grammar.expr comma_operator ret w) w.
Proof.
  induction fuel as [|fuel IH]; intros ret w; [repeat split; exact I|].
  repeat split.
  - apply (binary_loop_reads is_pow s_function (Grammar.power fuel)
             (Grammar.factor_loop fuel) Grammar.power power_operator).
    + apply is_pow_operator.
    + intros w0 p w' E. eapply returns_intro, E.
    + intros r0 w0. apply IH.
  - apply (binary_loop_reads is_mul_div s_function (Grammar.factor fuel)
             (Grammar.term_loop fuel) Grammar.factor product_operator).
    + apply is_mul_div_operator.
    + intros w0 p w' E. eapply returns_intro, E.
    + intros r0 w0. apply IH.
  - apply (binary_loop_reads is_sign s_function (Grammar.term fuel)
             (Grammar.expr_loop fuel) Grammar.term sum_operator).
    + apply is_sign_operator.
    + intros w0 p w' E. eapply returns_intro, E.
    + intros r0 w0. apply IH.
  - apply (binary_loop_reads is_sep (fun _ => P_fun f_comma) (Grammar.expr fuel)
             (Grammar.list_loop fuel) Grammar.expr comma_operator).
    + intros s _. reflexivity.
    + intros w0 p w' E. eapply returns_intro, E.
    + intros r0 w0. apply IH.
Qed.

(** What [factor], [term], [expr] and [list] return is the fold from the
    left of the operators read over the operands read. *)
Lemma heads_read (fuel : nat) (w : world) (r : tx_expr) (w' : world) :
  is_null r = false ->
  (Grammar.factor fuel w = Some (r, w') ->
   folds_left is_pow s_function Grammar.power power_operator w r w')
  /\ (Grammar.term fuel w = Some (r, w') ->
      folds_left is_mul_div s_function Grammar.factor product_operator w r w')
  /\ (Grammar.expr fuel w = Some (r, w') ->
      folds_left is_sign s_function Grammar.term sum_operator w r w')
  /\ (Grammar.list fuel w = Some (r, w') ->
      folds_left is_sep (fun _ => P_fun f_comma) Grammar.expr comma_operator w r w').
Proof.
  intros Hn. destruct fuel as [|fuel]; [repeat split; discriminate|].
  repeat split; intros E.
  - refine (wp_run _ _ _ _ _
              (binary_head_reads is_pow s_function (Grammar.power fuel)
                 (Grammar.factor_loop fuel) Grammar.power power_operator _ _ w) E Hn).
    + intros w0 p w1 Ep. eapply returns_intro, Ep.
    + intros r0 w0. apply loops_read.
  - refine (wp_run _ _ _ _ _
              (binary_head_reads is_mul_div s_function (Grammar.factor fuel)
                 (Grammar.term_loop fuel) Grammar.factor product_operator _ _ w) E Hn).
    + intros w0 p w1 Ep. eapply returns_intro, Ep.
    + intros r0 w0. apply loops_read.
  - refine (wp_run _ _ _ _ _
              (binary_head_reads is_sign s_function (Grammar.term fuel)
                 (Grammar.expr_loop fuel) Grammar.term sum_operator _ _ w) E Hn).
    + intros w0 p w1 Ep. eapply returns_intro, Ep.
    + intros r0 w0. apply loops_read.
  - refine (wp_run _ _ _ _ _
              (binary_head_reads is_sep (fun _ => P_fun f_comma) (Grammar.expr fuel)
                 (Grammar.list_loop fuel) Grammar.expr comma_operator _ _ w) E Hn).
    + intros w0 p w1 Ep. eapply returns_intro, Ep.
    + intros r0 w0. apply loops_read.
Qed.

(** * Where tokens and nodes come from *)

Lemma find_lookup_visible (s : state) (name : string) (len : nat) (var : tx_variable) :
  find_lookup s name len = Some var -> In var (visible (lookup s) (lookup_len s)).
Proof.
  unfold find_lookup. destruct (lookup s) as [vars|]; [|discriminate].
  rewrite find_lookup_loop_find. intros H. apply find_some in H. apply H.
Qed.

Lemma resolve_table (s : state) (name : string) (len : nat) (var : tx_variable) :
  resolve s name len = Some var ->
  In var (visible (lookup s) (lookup_len s) ++ functions).
Proof.
  unfold resolve. intros H. apply in_or_app.
  destruct (find_lookup s name len) as [v|] eqn:E.
  - injection H as <-. left. eapply find_lookup_visible, E.
  - right. apply (find_builtin_sound _ _ _ H).
Qed.

Lemma function_kind_flag (t : Z) :
  is_function_kind (TYPE_MASK t) = true -> IS_CLOSURE t = false.
Proof.
  unfold is_function_kind, IS_CLOSURE, TYPE_MASK. intros H.
  apply andb_prop in H as [H1 H2]. apply Z.leb_le in H1, H2.
  apply negb_false_iff, Z.eqb_eq.
  change TX_FUNCTION0 with 8 in *. change TX_FUNCTION6 with 14 in *.
  change TX_CLOSURE0 with 16.
  assert (Hb : Z.testbit (Z.land t 31) 4 = false).
  { assert (Hk : Z.land t 31 = 8 \/ Z.land t 31 = 9 \/ Z.land t 31 = 10
                 \/ Z.land t 31 = 11 \/ Z.land t 31 = 12 \/ Z.land t 31 = 13
                 \/ Z.land t 31 = 14) by lia.
    destruct Hk as [K|[K|[K|[K|[K|[K|K]]]]]]; rewrite K; reflexivity. }
  rewrite Z.land_spec in Hb. change (Z.testbit 31 4) with true in Hb.
  rewrite andb_true_r in Hb.
  apply Z.bits_inj'. intros n Hn. rewrite Z.land_spec, Z.bits_0.
  destruct (Z.eq_dec n 4) as [->|Hne]; [rewrite Hb; reflexivity|].
  replace (Z.testbit 16 n) with false; [apply andb_false_r|].
  symmetry. change 16 with (2 ^ 4). apply Z.pow2_bits_false. congruence.
Qed.

Section Tokens.

Variable variables : option (list tx_variable).
Variable var_count : Z.

Let Inv : state -> Prop := tokenizer_of variables var_count.

(** One pass of the tokenizer that starts without a token ends with a
    token of the table, or without one. *)
Lemma scan_tokenizer (s : state) :
  visible (lookup s) (lookup_len s) = visible variables var_count ->
  type s = TOK_NULL -> Inv (scan s).
Proof.
  intros Hv Ht. unfold Inv, tokenizer_of, token_from.
  assert (Hnone : forall s' : state,
             lookup s' = lookup s -> lookup_len s' = lookup_len s ->
             call_kind (type s') = false -> TYPE_MASK (type s') <> TOK_VARIABLE ->
             visible (lookup s') (lookup_len s') = visible variables var_count
             /\ (TYPE_MASK (type s') = TOK_VARIABLE ->
                 exists var,
                   In var (visible variables var_count ++ functions)
                   /\ TYPE_MASK (v_type var) = TX_VARIABLE
                   /\ tok s' = tu_bound (v_address var))
             /\ (call_kind (type s') = true ->
                 exists var,
                   In var (visible variables var_count ++ functions)
                   /\ v_type var = type s' /\ tok s' = tu_function (v_address var)
                   /\ (IS_CLOSURE (type s') = true -> context s' = v_context var))).
  { intros s' H1 H2 H3 H4. rewrite H1, H2. split; [exact Hv|].
    split; [intros E; contradiction | intros E; congruence]. }
  unfold scan. cbv zeta.
  change (next (mark s)) with (next s).
  destruct (Ascii.eqb (peek (next s)) NUL);
    [apply Hnone; try reflexivity; discriminate|].
  destruct (isdigit (peek (next s)) || Ascii.eqb (peek (next s)) ".").
  { unfold strtod. destruct (Strtod.strtod (next s)) as [v r].
    destruct (Ascii.eqb (peek r) "I"); apply Hnone; try reflexivity; discriminate. }
  destruct (isalpha (peek (next s))).
  - match goal with
    | |- context [resolve ?a ?b ?c] => destruct (resolve a b c) as [var|] eqn:Er
    end; [|apply Hnone; try reflexivity; discriminate].
    apply resolve_table in Er.
    change (visible (lookup (move (mark s) (ident_end (next s))))
                    (lookup_len (move (mark s) (ident_end (next s)))))
      with (visible (lookup s) (lookup_len s)) in Er.
    rewrite Hv in Er.
    destruct (TYPE_MASK (v_type var) =? TX_VARIABLE) eqn:Ek.
    { apply Z.eqb_eq in Ek. split; [exact Hv|]. split.
      - intros _. exists var. repeat split; assumption.
      - intros E. discriminate E. }
    destruct (is_closure_kind (TYPE_MASK (v_type var))) eqn:Ec.
    { split; [exact Hv|]. split.
      - intros E. exfalso. cbn [type with_tok with_type] in E.
        unfold is_closure_kind in Ec. rewrite E in Ec. discriminate Ec.
      - intros _. exists var. repeat split; try assumption; reflexivity. }
    destruct (is_function_kind (TYPE_MASK (v_type var))) eqn:Ef.
    { split; [exact Hv|]. split.
      - intros E. exfalso. cbn [type with_tok with_type] in E.
        unfold is_function_kind in Ef. rewrite E in Ef. discriminate Ef.
      - intros _. exists var. repeat split; try assumption; try reflexivity.
        intros E. cbn [type with_tok with_type] in E.
        rewrite (function_kind_flag _ Ef) in E. discriminate E. }
    apply Hnone; try reflexivity; cbn [type move mark]; rewrite Ht;
      [reflexivity | discriminate].
  - destruct (peek (next s)) as [[] [] [] [] [] [] [] []];
      apply Hnone; try reflexivity; cbn [type move mark with_type with_tok];
        try rewrite Ht; try reflexivity; discriminate.
Qed.

Lemma next_token_loop_tokenizer : forall fuel s,
  visible (lookup s) (lookup_len s) = visible variables var_count ->
  type s = TOK_NULL -> Inv (next_token_loop (S fuel) s).
Proof.
  induction fuel as [|fuel IH]; intros s Hv Ht.
  - simpl. pose proof (scan_tokenizer s Hv Ht) as H.
    destruct (type (scan s) =? TOK_NULL); exact H.
  - change (Inv (if type (scan s) =? TOK_NULL
                 then next_token_loop (S fuel) (scan s) else scan s)).
    pose proof (scan_tokenizer s Hv Ht) as H.
    destruct (type (scan s) =? TOK_NULL) eqn:E; [|exact H].
    apply IH; [apply H | apply Z.eqb_eq, E].
Qed.

Lemma tx_next_token_tokenizer (s : state) : Inv s -> Inv (tx_next_token s).
Proof.
  intros [Hv _]. unfold tx_next_token.
  apply next_token_loop_tokenizer; [exact Hv | reflexivity].
Qed.

Lemma with_type_error_tokenizer (s : state) : Inv s -> Inv (with_type s TOK_ERROR).
Proof.
  intros [Hv _]. split; [exact Hv|].
  split; intros E; discriminate E.
Qed.

Lemma initial_tokenizer (expression : string) (h : list bool) :
  Inv (st (initial expression variables var_count h)).
Proof.
  unfold initial. cbn [st]. unfold tx_next_token.
  apply next_token_loop_tokenizer; reflexivity.
Qed.

End Tokens.

(** * The parser builds its trees from the table *)

Lemma made_from_node table t u ps ctx :
  made_from table (Node t u ps ctx)
  <-> match u with
      | eu_value _ => True
      | eu_bound p => t = TX_VARIABLE /\ variable_of_entry table p
      | eu_function f =>
          (operator_node t f /\ ctx = P_null) \/ call_of_entry table t f ctx
      end
      /\ Forall (made_from table) ps.
Proof.
  cbn [made_from].
  assert (E : fold_right (fun c rest => made_from table c /\ rest) True ps
              <-> Forall (made_from table) ps).
  { induction ps as [|p ps IH]; simpl.
    - split; [constructor | auto].
    - rewrite IH. split; [intros [H1 H2]; constructor; assumption|].
      intros H. inversion H; auto. }
  rewrite E. reflexivity.
Qed.

Lemma made_from_nulls table (k : nat) : Forall (made_from table) (repeat NULL k).
Proof. induction k; simpl; constructor; [exact I | assumption]. Qed.

Lemma set_nth_Forall {P : tx_expr -> Prop} (e : tx_expr) :
  P e -> forall ps i, Forall P ps -> Forall P (set_nth i e ps).
Proof.
  intros He. induction ps as [|p ps IH]; intros i H; [destruct i; constructor|].
  inversion H; subst. destruct i as [|i]; simpl; constructor; auto.
Qed.

Lemma made_from_set_parameter table n i e :
  made_from table n -> made_from table e -> made_from table (set_parameter n i e).
Proof.
  destruct n as [|t u ps ctx]; [auto|]. intros Hn He.
  apply made_from_node in Hn as [Hl Hps]. cbn [set_parameter].
  apply made_from_node. split; [exact Hl|].
  apply set_nth_Forall; assumption.
Qed.

Lemma wp_new_expr_state t ps (Q : tx_expr -> world -> Prop) w :
  (forall w', st w' = st w -> Q NULL w') ->
  (forall w', st w' = st w ->
     Q (Node t (eu_bound P_null) (new_expr_children t ps) P_null) w') ->
  wp (new_expr t ps) Q w.
Proof.
  intros H1 H2. destruct (new_expr_spec t ps w) as (r & w' & E & Hs & Hr).
  unfold wp. rewrite E. destruct Hr as [[-> _]|[-> _]]; auto.
Qed.

Section MadeFrom.

Variable variables : option (list tx_variable).
Variable var_count : Z.

Let Inv : state -> Prop := tokenizer_of variables var_count.

Lemma made_operator (t : Z) (f : ptr) (ps : list tx_expr) :
  operator_node t f -> Forall (made variables var_count) ps ->
  made variables var_count (Node t (eu_function f) ps P_null).
Proof.
  intros Hf Hps. apply made_from_node. split; [left; auto | exact Hps].
Qed.

(** The node of a call, made from the current token. *)
Lemma made_call (s : state) (ps : list tx_expr) :
  Inv s -> call_kind (type s) = true ->
  Forall (made variables var_count) ps ->
  made variables var_count
       (Node (type s) (eu_function (s_function s)) ps
             (if IS_CLOSURE (type s) then context s else P_null)).
Proof.
  intros [_ [_ Hc]] Hk Hps. destruct (Hc Hk) as (var & Hin & Ht & Htok & Hctx).
  apply made_from_node. split; [|exact Hps]. right.
  exists var. repeat split; try assumption.
  - unfold s_function. rewrite Htok. reflexivity.
  - destruct (IS_CLOSURE (type s)); [apply Hctx|]; reflexivity.
Qed.

Lemma made_variable (s : state) :
  Inv s -> TYPE_MASK (type s) = TOK_VARIABLE ->
  made variables var_count (Node TX_VARIABLE (eu_bound (s_bound s)) [] P_null).
Proof.
  intros [_ [Hv _]] Hk. destruct (Hv Hk) as (var & Hin & Ht & Htok).
  apply made_from_node. split; [|constructor]. split; [reflexivity|].
  exists var. repeat split; try assumption.
  unfold s_bound. rewrite Htok. reflexivity.
Qed.

Lemma binary_head_makes operand loop :
  makes variables var_count operand -> makes_loop variables var_count loop ->
  makes variables var_count (binary_head operand loop).
Proof.
  intros Ho Hl w Hw. unfold binary_head.
  apply wp_bind. eapply wp_mono; [apply Ho, Hw|].
  cbv beta. intros p w1 [Hi Hp].
  apply wp_check_null; [intros _; split; [exact Hi | exact I]|].
  intros _. apply Hl; assumption.
Qed.

Lemma binary_loop_makes cond fn operand again :
  (forall s, cond s = true -> operator_node PURE2 (fn s)) ->
  makes variables var_count operand -> makes_loop variables var_count again ->
  makes_loop variables var_count (binary_loop cond fn operand again).
Proof.
  intros Hc Ho Ha ret w Hw Hret. unfold binary_loop.
  apply wp_bind, wp_get_state.
  destruct (cond (st w)) eqn:E; [|apply wp_ret; split; assumption].
  apply wp_bind, wp_next_token.
  apply wp_bind. eapply wp_mono.
  { apply Ho. cbn [st]. apply tx_next_token_tokenizer, Hw. }
  cbv beta. intros p w2 [Hi Hp].
  apply wp_check_null; [intros _; split; [exact Hi | exact I]|]. intros _.
  apply wp_bind, wp_new_expr_state.
  { intros w3 Hs. apply wp_check_null; [intros _|discriminate].
    split; [rewrite Hs; exact Hi | exact I]. }
  intros w3 Hs. apply wp_check_null; [discriminate|]. intros _.
  apply Ha; [rewrite Hs; exact Hi|].
  apply made_operator; [apply Hc, E|].
  constructor; [exact Hret|]. constructor; [exact Hp | constructor].
Qed.

Lemma power_body_makes (signs : M Z) base :
  (forall w, Inv (st w) -> wp signs (fun _ w' => Inv (st w')) w) ->
  makes variables var_count base ->
  makes variables var_count (power_body signs base).
Proof.
  intros Hs Hb w Hw. unfold power_body.
  apply wp_bind. eapply wp_mono; [apply Hs, Hw|].
  cbv beta. intros sign w1 Hi.
  destruct (sign =? 1); [apply Hb, Hi|].
  apply wp_bind. eapply wp_mono; [apply Hb, Hi|].
  cbv beta. intros b w2 [Hi2 Hmb].
  apply wp_check_null; [intros _; split; [exact Hi2 | exact I]|]. intros _.
  apply wp_bind, wp_new_expr_state.
  { intros w3 E. apply wp_check_null; [intros _|discriminate].
    split; [rewrite E; exact Hi2 | exact I]. }
  intros w3 E. apply wp_check_null; [discriminate|]. intros _.
  apply wp_ret. split; [rewrite E; exact Hi2|].
  apply made_operator; [right; split; reflexivity|].
  constructor; [exact Hmb | constructor].
Qed.

Lemma signs_body_keeps (again : Z -> M Z) (sign : Z) :
  (forall z w, Inv (st w) -> wp (again z) (fun _ w' => Inv (st w')) w) ->
  forall w, Inv (st w) -> wp (signs_body again sign) (fun _ w' => Inv (st w')) w.
Proof.
  intros Ha w Hw. unfold signs_body.
  apply wp_bind, wp_get_state.
  destruct (is_sign (st w)); [|apply wp_ret; exact Hw].
  apply wp_bind, wp_next_token. apply Ha. cbn [st].
  apply tx_next_token_tokenizer, Hw.
Qed.

Lemma arguments_body_makes expr again arity :
  makes variables var_count expr -> makes_arguments variables var_count again ->
  makes_arguments variables var_count (arguments_body expr again arity).
Proof.
  intros He Ha i ret w Hw Hret. unfold arguments_body.
  destruct (i <? arity); [|apply wp_ret; split; assumption].
  apply wp_bind, wp_next_token.
  apply wp_bind. eapply wp_mono.
  { apply He. cbn [st]. apply tx_next_token_tokenizer, Hw. }
  cbv beta. intros p w2 [Hi Hp].
  destruct (is_null p); [apply wp_ret; split; [exact Hi | exact I]|].
  apply wp_bind, wp_get_state.
  pose proof (made_from_set_parameter _ ret i p Hret Hp) as Hm.
  destruct (negb (type (st w2) =? TOK_SEP)); [apply wp_ret; split; assumption|].
  apply Ha; assumption.
Qed.

Lemma expect_close_keeps w :
  Inv (st w) -> wp expect_close (fun _ w' => Inv (st w')) w.
Proof.
  intros Hw. apply expect_close_wp; intros _; cbn [st].
  - apply with_type_error_tokenizer, Hw.
  - apply tx_next_token_tokenizer, Hw.
Qed.

Lemma base_body_makes power arguments list :
  makes variables var_count power ->
  (forall arity, makes_arguments variables var_count (arguments arity)) ->
  makes variables var_count list ->
  makes variables var_count (base_body power arguments list).
Proof.
  intros Hp Ha Hl w Hw. unfold base_body.
  apply wp_bind, wp_get_state. cbv zeta.
  set (t := type (st w)). set (k := TYPE_MASK t).
  assert (Hnull : forall (c : M tx_expr) w', st w' = st w ->
             wp (CHECK_NULL NULL c)
                (fun r w'' => Inv (st w'') /\ made variables var_count r) w').
  { intros c w' E. apply wp_check_null; [intros _|discriminate].
    split; [rewrite E; exact Hw | exact I]. }
  assert (Hnext : forall w', st w' = st w ->
             Inv (st (mk_world (tx_next_token (st w')) (heap w') (oom w')))).
  { intros w' E. cbn [st]. rewrite E. apply tx_next_token_tokenizer, Hw. }
  destruct (k =? TOK_NUMBER_R).
  { apply wp_bind, wp_new_expr_state; [exact (Hnull _)|].
    intros w1 Hs. apply wp_check_null; [discriminate|]. intros _.
    apply wp_bind, wp_next_token, wp_ret. split; [apply Hnext, Hs|].
    apply made_from_node. split; [exact I | constructor]. }
  destruct (k =? TOK_NUMBER_I).
  { apply wp_bind, wp_new_expr_state; [exact (Hnull _)|].
    intros w1 Hs. apply wp_check_null; [discriminate|]. intros _.
    apply wp_bind, wp_next_token, wp_ret. split; [apply Hnext, Hs|].
    apply made_from_node. split; [exact I | constructor]. }
  destruct (k =? TOK_VARIABLE) eqn:Ev.
  { apply wp_bind, wp_new_expr_state; [exact (Hnull _)|].
    intros w1 Hs. apply wp_check_null; [discriminate|]. intros _.
    apply wp_bind, wp_next_token, wp_ret. split; [apply Hnext, Hs|].
    apply made_variable; [exact Hw | apply Z.eqb_eq, Ev]. }
  destruct ((k =? TX_FUNCTION0) || (k =? TX_CLOSURE0)) eqn:E0.
  { assert (Hk : call_kind t = true).
    { unfold call_kind. fold k.
      apply orb_prop in E0 as [E|E]; apply Z.eqb_eq in E; rewrite E; reflexivity. }
    apply wp_bind, wp_new_expr_state; [exact (Hnull _)|].
    intros w1 Hs. apply wp_check_null; [discriminate|]. intros _.
    rewrite set_context_call.
    assert (Hm : made variables var_count
                   (Node t (eu_function (s_function (st w)))
                         (new_expr_children t None)
                         (if IS_CLOSURE t then context (st w) else P_null))).
    { apply made_call; [exact Hw | exact Hk | apply made_from_nulls]. }
    apply wp_bind, wp_next_token. apply wp_bind, wp_get_state. apply wp_bind.
    match goal with |- context [type ?s1 =? TOK_OPEN] => destruct (type s1 =? TOK_OPEN) end.
    - apply wp_bind, wp_next_token. eapply wp_mono.
      { apply expect_close_keeps. cbn [st].
        apply tx_next_token_tokenizer, Hnext, Hs. }
      cbv beta. intros _ w4 Hi. apply wp_ret. split; assumption.
    - apply wp_ret, wp_ret. split; [apply Hnext, Hs | exact Hm]. }
  destruct ((k =? TX_FUNCTION1) || (k =? TX_CLOSURE1)) eqn:E1.
  { assert (Hk : call_kind t = true).
    { unfold call_kind. fold k.
      apply orb_prop in E1 as [E|E]; apply Z.eqb_eq in E; rewrite E; reflexivity. }
    apply wp_bind, wp_new_expr_state; [exact (Hnull _)|].
    intros w1 Hs. apply wp_check_null; [discriminate|]. intros _.
    rewrite set_context_call.
    apply wp_bind, wp_next_token.
    apply wp_bind. eapply wp_mono; [apply Hp, Hnext, Hs|].
    cbv beta. intros p w3 [Hi Hmp].
    apply wp_check_null; [intros _; split; [exact Hi | exact I]|]. intros _.
    apply wp_ret. split; [exact Hi|].
    apply made_from_set_parameter; [|exact Hmp].
    apply made_call; [exact Hw | exact Hk | apply made_from_nulls]. }
  destruct (is_function_kind k || is_closure_kind k) eqn:E2.
  { apply wp_bind, wp_new_expr_state; [exact (Hnull _)|].
    intros w1 Hs. apply wp_check_null; [discriminate|]. intros _.
    rewrite set_context_call. fold t.
    set (node := Node t _ _ _).
    assert (Hm : made variables var_count node).
    { apply made_call; [exact Hw | exact E2 | apply made_from_nulls]. }
    apply wp_bind, wp_next_token. apply wp_bind, wp_get_state.
    match goal with
    | |- context [negb (type ?s1 =? TOK_OPEN)] => destruct (negb (type s1 =? TOK_OPEN))
    end.
    { apply wp_bind, wp_set_error, wp_ret. split; [|exact Hm].
      cbn [st]. apply with_type_error_tokenizer, tx_next_token_tokenizer.
      rewrite Hs. exact Hw. }
    apply wp_bind. eapply wp_mono.
    { apply (Ha (ARITY t) 0 node); [apply Hnext, Hs | exact Hm]. }
    cbv beta. intros [[n i']|] w3 [Hi Hn];
      [|apply wp_ret; split; [exact Hi | exact I]].
    apply wp_bind, wp_get_state. apply wp_bind.
    destruct (negb (type (st w3) =? TOK_CLOSE) || negb (i' =? ARITY t - 1)).
    - apply wp_set_error, wp_ret. split; [|exact Hn].
      cbn [st]. apply with_type_error_tokenizer, Hi.
    - apply wp_next_token, wp_ret. split; [|exact Hn].
      cbn [st]. apply tx_next_token_tokenizer, Hi. }
  destruct (k =? TOK_OPEN).
  { apply wp_bind, wp_next_token.
    apply wp_bind. eapply wp_mono; [apply Hl, Hnext; reflexivity|].
    cbv beta. intros p w2 [Hi Hmp].
    apply wp_check_null; [intros _; split; [exact Hi | exact I]|]. intros _.
    apply wp_bind. eapply wp_mono; [apply expect_close_keeps, Hi|].
    cbv beta. intros _ w3 Hi3. apply wp_ret. split; assumption. }
  apply wp_bind, wp_new_expr_state; [exact (Hnull _)|].
  intros w1 Hs. apply wp_check_null; [discriminate|]. intros _.
  apply wp_bind, wp_set_error, wp_ret. split.
  - cbn [st]. rewrite Hs. apply with_type_error_tokenizer, Hw.
  - apply made_from_node. split; [exact I | constructor].
Qed.

Lemma signs_keeps : forall fuel sign w,
  Inv (st w) -> wp (Grammar.signs fuel sign) (fun _ w' => Inv (st w')) w.
Proof.
  induction fuel as [|fuel IH]; intros sign w Hw; [exact I|].
  apply (signs_body_keeps (Grammar.signs fuel) sign); [|exact Hw].
  intros z w0. apply IH.
Qed.

(** Every production builds its trees from the table, whatever the
    budget. *)
Lemma parser_makes : forall fuel,
  makes variables var_count (Grammar.base fuel)
  /\ (forall arity, makes_arguments variables var_count (Grammar.arguments fuel arity))
  /\ makes variables var_count (Grammar.power fuel)
  /\ makes_loop variables var_count (Grammar.factor_loop fuel)
  /\ makes variables var_count (Grammar.factor fuel)
  /\ makes_loop variables var_count (Grammar.term_loop fuel)
  /\ makes variables var_count (Grammar.term fuel)
  /\ makes_loop variables var_count (Grammar.expr_loop fuel)
  /\ makes variables var_count (Grammar.expr fuel)
  /\ makes_loop variables var_count (Grammar.list_loop fuel)
  /\ makes variables var_count (Grammar.list fuel).
Proof.
  induction fuel as [|fuel (Hb & Ha & Hp & Hfl & Hf & Htl & Ht & Hel & He & Hll & Hl)].
  - repeat split; repeat intro; exact I.
  - repeat split.
    + intros w. apply base_body_makes; assumption.
    + intros arity i ret w. apply arguments_body_makes; [assumption | apply Ha].
    + intros w. apply power_body_makes; [|assumption].
      intros w0. apply signs_keeps.
    + intros ret w. apply binary_loop_makes; try assumption.
      intros s H. left. split; [reflexivity|].
      right. right. left. apply is_pow_operator, H.
    + intros w. apply binary_head_makes; assumption.
    + intros ret w. apply binary_loop_makes; try assumption.
      intros s H. left. split; [reflexivity|].
      right. left. apply is_mul_div_operator, H.
    + intros w. apply binary_head_makes; assumption.
    + intros ret w. apply binary_loop_makes; try assumption.
      intros s H. left. split; [reflexivity|].
      left. apply is_sign_operator, H.
    + intros w. apply binary_head_makes; assumption.
    + intros ret w. apply binary_loop_makes; try assumption.
      intros s H. left. split; [reflexivity|].
      right. right. right. reflexivity.
    + intros w. apply binary_head_makes; assumption.
Qed.

End MadeFrom.

(** * What compiled trees are made of *)

Lemma builtins_are_calls :
  Forall (fun var =>
            call_kind (v_type var) = true /\ IS_PURE (v_type var) = true
            /\ v_context var = P_null
            /\ exists f, v_address var = P_fun f /\ forall id, f <> f_extern id)
         functions.
Proof.
  unfold functions.
  repeat (constructor;
          [repeat split; eexists; split; [reflexivity | discriminate]|]).
  constructor.
Qed.

Lemma variable_of_entry_visible bindings p :
  variable_of_entry (bindings ++ functions) p -> variable_of_entry bindings p.
Proof.
  intros (var & Hin & Hk & Ha). exists var. repeat split; try assumption.
  apply in_app_or in Hin as [Hin|Hin]; [exact Hin|].
  exfalso. pose proof builtins_are_calls as Hb. rewrite Forall_forall in Hb.
  destruct (Hb var Hin) as (Hc & _). unfold call_kind in Hc.
  rewrite Hk in Hc. discriminate Hc.
Qed.

Section CompiledFrom.

Variable R : runtime.

Lemma optimize_children_Forall (P : tx_expr -> Prop) (opt : tx_expr -> tx_expr) :
  forall ps k,
    Forall P ps -> Forall (fun c => P c -> P (opt c)) ps ->
    Forall P (optimize_children opt k ps).
Proof.
  induction ps as [|p ps IH]; intros k H1 H2; [constructor|].
  inversion H1; subst. inversion H2; subst.
  destruct k as [|k]; simpl; constructor; auto.
Qed.

(** The optimizer takes its nodes from the tree it is given. *)
Lemma optimize_made_from table (m : memory) (n : tx_expr) :
  made_from table n -> made_from table (optimize R m n).
Proof.
  induction n as [|t u ps ctx IH] using tx_expr_induction; [auto|].
  intros H. rewrite optimize_unfold.
  destruct (t =? TX_CONSTANT); [exact H|].
  destruct (t =? TX_VARIABLE); [exact H|].
  destruct (IS_PURE t); [|exact H]. cbv zeta.
  destruct (known _ _).
  - apply made_from_node. split; [exact I | constructor].
  - apply made_from_node in H as [Hl Hps]. apply made_from_node.
    split; [exact Hl|]. apply optimize_children_Forall; assumption.
Qed.

(** The addresses that an evaluation reads are addresses of variables of
    the table. *)
Lemma made_from_read_set table (n : tx_expr) :
  made_from table n ->
  forall a, In a (read_set n) -> variable_of_entry table (P_data a).
Proof.
  induction n as [|t u ps ctx IH] using tx_expr_induction; [contradiction|].
  intros H a Ha. apply made_from_node in H as [Hl Hps].
  rewrite read_set_unfold in Ha. cbv zeta in Ha.
  destruct (TYPE_MASK t =? TX_CONSTANT); [contradiction|].
  destruct (TYPE_MASK t =? TX_VARIABLE).
  { destruct u as [v|p|f]; try contradiction.
    simpl in Ha. destruct p; try contradiction.
    destruct Ha as [<-|[]]. apply Hl. }
  destruct (is_function_kind (TYPE_MASK t) || is_closure_kind (TYPE_MASK t));
    [|contradiction].
  apply in_flat_map in Ha as (c & Hc & Hac). apply in_firstn in Hc.
  rewrite Forall_forall in IH, Hps. eapply IH; eauto.
Qed.

Lemma storage_free_null : storage_free R P_null.
Proof. intros ctx args m1 m2. reflexivity. Qed.

Lemma operator_storage_free t f : operator_node t f -> storage_free R f.
Proof.
  intros [[_ [[H|H]|[[H|H]|[H|H]]]]|[_ H]]; rewrite H;
    apply builtin_storage_free; discriminate.
Qed.

(** The functions that an evaluation calls are those of the table and
    the operators. *)
Lemma made_from_calls table (n : tx_expr) :
  (forall var, In var table -> call_kind (v_type var) = true ->
               storage_free R (v_address var)) ->
  made_from table n -> calls_storage_free R n.
Proof.
  intros Ht. induction n as [|t u ps ctx IH] using tx_expr_induction; [auto|].
  intros H. apply made_from_node in H as [Hl Hps].
  cbn [calls_storage_free]. split.
  - intros Hk. destruct u as [v|p|f]; try apply storage_free_null.
    destruct Hl as [[Ho _]|(var & Hin & Hty & Hck & Ha & _)].
    + eapply operator_storage_free, Ho.
    + cbn [u_function]. rewrite <- Ha. apply Ht; [exact Hin|].
      rewrite Hty. exact Hck.
  - clear Hl. induction ps as [|p ps IHps]; [exact I|].
    inversion IH; subst. inversion Hps; subst. split; auto.
Qed.

Lemma builtins_storage_free (bindings : list tx_variable) :
  (forall var, In var bindings -> call_kind (v_type var) = true ->
               storage_free R (v_address var)) ->
  forall var, In var (bindings ++ functions) -> call_kind (v_type var) = true ->
              storage_free R (v_address var).
Proof.
  intros Hb var Hin Hk. apply in_app_or in Hin as [Hin|Hin]; [auto|].
  pose proof builtins_are_calls as H. rewrite Forall_forall in H.
  destruct (H var Hin) as (_ & _ & _ & f & -> & Hf).
  apply builtin_storage_free, Hf.
Qed.

Variable m0 : memory.
Variable expression : string.
Variable variables : option (list tx_variable).
Variable var_count : Z.
Variable h : list bool.

(** The root that [list] returns to [tx_compile] and the handle that
    [tx_compile] returns are built from the visible bindings and the
    builtins. *)
Lemma tx_compile_made :
  made variables var_count
       (handle (tx_compile R m0 expression variables var_count h)).
Proof.
  destruct (tx_compile_parse R m0 expression variables var_count h
              (tokenizer_of variables var_count))
    as (root & w & El & E & _ & _).
  - apply tx_next_token_tokenizer.
  - apply with_type_error_tokenizer.
  - apply initial_tokenizer.
  - rewrite E. unfold finish.
    destruct (is_null root); [exact I|].
    destruct (negb (type (st w) =? TOK_END)); [exact I|].
    cbn [handle fst]. apply optimize_made_from.
    destruct (parser_makes variables var_count (fuel_for expression))
      as (_&_&_&_&_&_&_&_&_&_&Hl).
    apply (wp_run _ _ _ _ _ (Hl _ (initial_tokenizer _ _ _ _)) El).
Qed.

End CompiledFrom.

(** * Expressions without bindings, and what bound expressions read *)

Section Closed.

Variable R : runtime.

Lemma operator_pure t f : operator_node t f -> IS_PURE t = true.
Proof. intros [[-> _]|[-> _]]; reflexivity. Qed.

(** A well-formed tree of operators, builtins and constants folds to a
    constant. *)
Lemma optimize_closed (m : memory) (n : tx_expr) :
  well_formed n = true -> made_from functions n ->
  is_constant (optimize R m n) = true.
Proof.
  induction n as [|t u ps ctx IH] using tx_expr_induction; [discriminate|].
  intros Hwf Hm. rewrite optimize_unfold.
  destruct (t =? TX_CONSTANT) eqn:Ec; [exact Ec|].
  apply made_from_node in Hm as [Hl Hps].
  destruct (t =? TX_VARIABLE) eqn:Ev.
  { exfalso. simpl in Hwf. rewrite Ec, Ev in Hwf.
    destruct u as [v|p|f]; try discriminate Hwf.
    destruct Hl as [_ Hl].
    destruct (variable_of_entry_visible [] p Hl) as (var & [] & _). }
  apply Z.eqb_neq in Ec, Ev.
  destruct (well_formed_node _ _ _ _ Hwf Ec Ev) as (Hk & Hlen & (f & ->) & Hwps).
  assert (Hp : IS_PURE t = true).
  { destruct Hl as [[Ho _]|(var & Hin & Hty & _)].
    - eapply operator_pure, Ho.
    - pose proof builtins_are_calls as Hb. rewrite Forall_forall in Hb.
      rewrite <- Hty. apply (Hb var Hin). }
  rewrite Hp. cbv zeta. rewrite optimize_children_all by lia.
  unfold known. rewrite firstn_all2 by (rewrite length_map; lia).
  assert (Hall : forallb is_constant (List.map (optimize R m) ps) = true).
  { rewrite forallb_map. apply forallb_forall. intros c Hc.
    rewrite Forall_forall in IH, Hps. rewrite forallb_forall in Hwps. auto. }
  rewrite Hall. reflexivity.
Qed.

Lemma made_from_closed (n : tx_expr) :
  made_from functions n -> calls_storage_free R n /\ read_set n = [].
Proof.
  intros H. split.
  - apply (made_from_calls R functions); [|exact H].
    apply (builtins_storage_free R []). intros var [].
  - destruct (read_set n) as [|a l] eqn:E; [reflexivity|]. exfalso.
    assert (Ha : In a (read_set n)) by (rewrite E; left; reflexivity).
    apply (made_from_read_set functions n H) in Ha.
    destruct (variable_of_entry_visible [] _ Ha) as (var & [] & _).
Qed.

Variable expression : string.
Variable variables : option (list tx_variable).
Variable var_count : Z.
Variable h : list bool.

(** The root that [list] returned, for a handle that [tx_compile]
    returns. *)
Lemma tx_compile_root (m0 : memory) :
  let r := tx_compile R m0 expression variables var_count h in
  is_null (handle r) = false ->
  exists root w,
    Grammar.list (fuel_for expression)
                 (initial expression variables var_count h) = Some (root, w)
    /\ well_formed root = true
    /\ made variables var_count root
    /\ r = (optimize R m0 root, 0, w).
Proof.
  intros r Hn.
  destruct (tx_compile_handle R m0 expression variables var_count h Hn)
    as (root & w & El & Hend & Hwf & Eh & _).
  exists root, w. split; [exact El|]. split; [exact Hwf|]. split.
  - destruct (parser_makes variables var_count (fuel_for expression))
      as (_&_&_&_&_&_&_&_&_&_&Hl).
    apply (wp_run _ _ _ _ _ (Hl _ (initial_tokenizer _ _ _ _)) El).
  - destruct (tx_compile_parse R m0 expression variables var_count h (fun _ => True))
      as (root' & w' & El' & E & _ & _); auto.
    rewrite El in El'. injection El' as <- <-.
    fold r in E. rewrite E. unfold finish.
    destruct root as [|t u ps ctx]; [discriminate Hwf|]. cbn [is_null].
    rewrite Hend. reflexivity.
Qed.

(** Without visible bindings, an expression that compiles, compiles to a
    single constant. *)
Lemma tx_compile_closed (m0 : memory) :
  visible variables var_count = [] ->
  let r := tx_compile R m0 expression variables var_count h in
  is_null (handle r) = false ->
  is_constant (handle r) = true /\ children (handle r) = [].
Proof.
  intros Hv r Hn.
  destruct (tx_compile_root m0 Hn) as (root & w & _ & Hwf & Hm & E).
  fold r in E. rewrite E. cbn [handle fst].
  unfold made in Hm. rewrite Hv in Hm.
  pose proof (optimize_closed m0 root Hwf Hm) as Hc.
  pose proof (optimize_well_formed R m0 root Hwf) as Hw.
  split; [exact Hc|].
  destruct (optimize R m0 root) as [|t u ps ctx]; [discriminate Hc|].
  simpl in Hc. simpl in Hw. rewrite Hc in Hw.
  destruct u, ps; try discriminate Hw. reflexivity.
Qed.

End Closed.

(** * Storage at compile time and at evaluation time *)

Section Storage.

Variable R : runtime.

(** With honest flags the optimizer does not depend on the storage. *)
Lemma optimize_storage (m1 m2 : memory) (n : tx_expr) :
  well_formed n = true -> honest R n -> optimize R m1 n = optimize R m2 n.
Proof.
  induction n as [|t u ps ctx IH] using tx_expr_induction; [reflexivity|].
  intros Hwf Hh. rewrite !optimize_unfold.
  destruct (t =? TX_CONSTANT) eqn:Ec; [reflexivity|].
  destruct (t =? TX_VARIABLE) eqn:Ev; [reflexivity|].
  destruct (IS_PURE t) eqn:Ep; [|reflexivity]. cbv zeta.
  apply Z.eqb_neq in Ec, Ev.
  destruct (well_formed_node _ _ _ _ Hwf Ec Ev) as (Hk & Hl & _ & _).
  pose proof (well_formed_children _ _ _ _ Hwf) as Hwc.
  pose proof (honest_children R _ _ _ _ Hh) as Hhc.
  rewrite !optimize_children_all by lia.
  assert (E : List.map (optimize R m1) ps = List.map (optimize R m2) ps).
  { apply map_ext_in. intros c Hc. rewrite Forall_forall in IH, Hwc, Hhc. auto. }
  rewrite E. unfold known. rewrite firstn_all2 by (rewrite length_map; lia).
  destruct (forallb is_constant (List.map (optimize R m2) ps)) eqn:Ek;
    [|reflexivity].
  f_equal. f_equal.
  apply (tx_eval_call R m1 m2 t u _ ctx Hk); [apply Hh, Ep|].
  apply constants_eval, Ek.
Qed.

Lemma made_from_honest table (n : tx_expr) :
  (forall var, In var table -> call_kind (v_type var) = true ->
               IS_PURE (v_type var) = true -> storage_free R (v_address var)) ->
  made_from table n -> honest R n.
Proof.
  intros Ht. induction n as [|t u ps ctx IH] using tx_expr_induction; [auto|].
  intros H. apply made_from_node in H as [Hl Hps].
  cbn [honest]. split.
  - intros Hp. destruct u as [v|p|f]; try apply storage_free_null.
    destruct Hl as [[Ho _]|(var & Hin & Hty & Hck & Ha & _)].
    + eapply operator_storage_free, Ho.
    + cbn [u_function]. rewrite <- Ha. apply Ht; [exact Hin | |]; rewrite Hty;
        assumption.
  - clear Hl. induction ps as [|p ps IHps]; [exact I|].
    inversion IH; subst. inversion Hps; subst. split; auto.
Qed.

Lemma pure_builtins_storage_free (bindings : list tx_variable) :
  (forall var, In var bindings -> call_kind (v_type var) = true ->
               IS_PURE (v_type var) = true -> storage_free R (v_address var)) ->
  forall var, In var (bindings ++ functions) -> call_kind (v_type var) = true ->
              IS_PURE (v_type var) = true -> storage_free R (v_address var).
Proof.
  intros Hb var Hin Hk Hp. apply in_app_or in Hin as [Hin|Hin]; [auto|].
  pose proof builtins_are_calls as H. rewrite Forall_forall in H.
  destruct (H var Hin) as (_ & _ & _ & f & -> & Hf).
  apply builtin_storage_free, Hf.
Qed.

Variable expression : string.
Variable variables : option (list tx_variable).
Variable var_count : Z.
Variable h : list bool.

(** [tx_compile] is the same function of the tree that [list] returned,
    whatever the storage. *)
Lemma tx_compile_finish (m1 m2 : memory) :
  exists root w,
    Grammar.list (fuel_for expression)
                 (initial expression variables var_count h) = Some (root, w)
    /\ tx_compile R m1 expression variables var_count h = finish R m1 root w
    /\ tx_compile R m2 expression variables var_count h = finish R m2 root w
    /\ made variables var_count root
    /\ (is_null root = false -> type (st w) = TOK_END -> well_formed root = true).
Proof.
  destruct (tx_compile_parse R m1 expression variables var_count h (fun _ => True))
    as (root & w & El & E1 & _ & _); auto.
  destruct (tx_compile_parse R m2 expression variables var_count h (fun _ => True))
    as (root' & w' & El' & E2 & _ & _); auto.
  rewrite El in El'. injection El' as <- <-.
  exists root, w. repeat split; try assumption.
  - destruct (parser_makes variables var_count (fuel_for expression))
      as (_&_&_&_&_&_&_&_&_&_&Hl).
    apply (wp_run _ _ _ _ _ (Hl _ (initial_tokenizer _ _ _ _)) El).
  - intros Hn He.
    destruct (parser_builds (fuel_for expression)) as (_&_&_&_&_&_&_&_&_&_&Hl).
    apply (wp_run _ _ _ _ _ (Hl _) El); [exact Hn | rewrite He; discriminate].
Qed.

(** When the bound functions that are flagged pure do not read the
    storage, neither does [tx_compile]. *)
Lemma tx_compile_storage (m1 m2 : memory) :
  (forall var, In var (visible variables var_count) ->
               call_kind (v_type var) = true -> IS_PURE (v_type var) = true ->
               storage_free R (v_address var)) ->
  tx_compile R m1 expression variables var_count h
  = tx_compile R m2 expression variables var_count h.
Proof.
  intros Hb. destruct (tx_compile_finish m1 m2) as (root & w & _ & E1 & E2 & Hm & Hwf).
  rewrite E1, E2. unfold finish.
  destruct (is_null root) eqn:En; [reflexivity|].
  destruct (type (st w) =? TOK_END) eqn:Et; [|reflexivity]. cbn [negb].
  f_equal. f_equal. apply optimize_storage.
  - apply Hwf; [reflexivity | apply Z.eqb_eq, Et].
  - eapply made_from_honest; [|exact Hm].
    apply pure_builtins_storage_free, Hb.
Qed.

(** The value of a handle depends on the storage at the addresses of the
    visible variables only, when the bound functions do not read the
    storage themselves. *)
Lemma tx_compile_reads (m0 m1 m2 : memory) :
  (forall var, In var (visible variables var_count) ->
               call_kind (v_type var) = true -> storage_free R (v_address var)) ->
  (forall var a, In var (visible variables var_count) ->
                 TYPE_MASK (v_type var) = TX_VARIABLE ->
                 v_address var = P_data a -> m1 a = m2 a) ->
  let n := handle (tx_compile R m0 expression variables var_count h) in
  tx_eval R m1 n = tx_eval R m2 n.
Proof.
  intros Hb Hm n.
  pose proof (tx_compile_made R m0 expression variables var_count h) as Hmade.
  fold n in Hmade. apply tx_eval_frame.
  - eapply made_from_calls; [|exact Hmade]. apply builtins_storage_free, Hb.
  - intros a Ha. apply (made_from_read_set _ _ Hmade) in Ha.
    destruct (variable_of_entry_visible _ _ Ha) as (var & Hin & Hk & Hv).
    eapply Hm; eassumption.
Qed.

End Storage.

(** [tx_interp] does not read the caller's storage. *)
Lemma tx_interp_storage (R : runtime) (m1 m2 : memory) (expression : string)
      (h : list bool) :
  tx_interp R m1 expression h = tx_interp R m2 expression h.
Proof.
  unfold tx_interp.
  destruct (tx_compile_finish R expression None 0 h m1 m2)
    as (root & w & _ & E1 & E2 & Hm & Hwf).
  rewrite E1, E2. unfold finish.
  destruct (is_null root) eqn:En; [reflexivity|].
  destruct (type (st w) =? TOK_END) eqn:Et; [|reflexivity]. cbn [negb].
  rewrite !optimize_not_null, En, !optimize_sound.
  destruct (made_from_closed R root Hm) as [Hc Hr].
  f_equal. apply tx_eval_frame; [exact Hc|].
  intros a Ha. rewrite Hr in Ha. contradiction.
Qed.

(** * More on the tokenizer *)

Lemma with_type_same (s : state) : with_type s (type s) = s.
Proof. destruct s. reflexivity. Qed.

(** The result of the loop of [tx_next_token] does not depend on the
    bound on its passes, once that exceeds the length of the text. *)
Lemma next_token_loop_fuel : forall fuel fuel' s,
  (String.length (next s) < fuel)%nat -> (String.length (next s) < fuel')%nat ->
  next_token_loop fuel s = next_token_loop fuel' s.
Proof.
  induction fuel as [|fuel IH]; intros fuel' s H H'; [lia|].
  destruct fuel' as [|fuel']; [lia|]. simpl.
  destruct (type (scan s) =? TOK_NULL) eqn:E; [|reflexivity].
  apply Z.eqb_eq in E.
  assert (String.length (next (scan s)) < String.length (next s))%nat
    by (apply scan_progress; rewrite E; discriminate).
  apply IH; lia.
Qed.

(** One pass, then the loop again when the pass gave no token. *)
Lemma tx_next_token_step (s : state) :
  tx_next_token s
  = let s' := scan (with_type s TOK_NULL) in
    if type s' =? TOK_NULL then tx_next_token s' else s'.
Proof.
  unfold tx_next_token at 1.
  change (next (with_type s TOK_NULL)) with (next s).
  cbn [next_token_loop]. cbv zeta.
  destruct (type (scan (with_type s TOK_NULL)) =? TOK_NULL) eqn:E; [|reflexivity].
  apply Z.eqb_eq in E.
  set (s' := scan (with_type s TOK_NULL)) in *.
  unfold tx_next_token. rewrite <- E, with_type_same.
  assert (String.length (next s') < String.length (next s))%nat.
  { apply (scan_progress (with_type s TOK_NULL)); fold s'; rewrite E; discriminate. }
  apply next_token_loop_fuel; lia.
Qed.

Lemma tx_next_token_with_type (s : state) (t : Z) :
  tx_next_token (with_type s t) = tx_next_token s.
Proof. reflexivity. Qed.

(** White space is skipped: the token is the one that follows it. *)
Lemma tx_next_token_space (s : state) (c : ascii) (r : string) :
  next s = String c r -> isspace c = true ->
  tx_next_token s = tx_next_token (move s r).
Proof.
  intros En Hc. rewrite tx_next_token_step. cbv zeta.
  assert (E : scan (with_type s TOK_NULL)
              = move (mark (with_type s TOK_NULL)) r).
  { unfold scan. cbv zeta. change (next (mark (with_type s TOK_NULL))) with (next s).
    rewrite En. cbn [peek tl].
    unfold isspace in Hc.
    destruct c as [[] [] [] [] [] [] [] []]; try discriminate Hc; reflexivity. }
  rewrite E. cbn [type move mark with_type]. rewrite Z.eqb_refl.
  rewrite (tx_next_token_step (move s r)).
  rewrite (tx_next_token_step (move _ r)). reflexivity.
Qed.

Lemma move_move (s : state) (r1 r2 : string) :
  (String.length r2 <= String.length r1 <= String.length (next s))%nat ->
  move (move s r1) r2 = move s r2.
Proof.
  intros H. unfold move. cbn [next_off next type tok context lookup lookup_len tok_off].
  f_equal. lia.
Qed.

Lemma length_append (a b : string) :
  String.length (a ++ b) = (String.length a + String.length b)%nat.
Proof. induction a as [|c a IH]; simpl; [reflexivity | rewrite IH; reflexivity]. Qed.

Lemma tx_next_token_spaces : forall (ws rest : string) (s : state),
  all_space ws = true -> next s = (ws ++ rest)%string ->
  tx_next_token s = tx_next_token (move s rest).
Proof.
  induction ws as [|c ws IH]; intros rest s Hws En.
  - simpl in En. unfold move. rewrite <- En, Nat.sub_diag, Nat.add_0_r.
    destruct s; reflexivity.
  - simpl in Hws. apply andb_prop in Hws as [Hc Hws].
    simpl in En. rewrite (tx_next_token_space s c (ws ++ rest) En Hc).
    rewrite (IH rest (move s (ws ++ rest)) Hws eq_refl).
    rewrite move_move; [reflexivity|].
    rewrite En. cbn [String.length]. rewrite length_append. lia.
Qed.

(** An identifier whose entry has neither the kind of a variable nor
    that of a call is skipped like white space. *)
Lemma tx_next_token_skips (s : state) (var : tx_variable) :
  isalpha (peek (next s)) = true ->
  resolve s (next s) (String.length (ident_prefix (next s))) = Some var ->
  TYPE_MASK (v_type var) <> TX_VARIABLE -> call_kind (v_type var) = false ->
  tx_next_token s = tx_next_token (move s (ident_end (next s))).
Proof.
  intros Ha Er Hv Hk. rewrite tx_next_token_step. cbv zeta.
  pose proof (scan_identifier (with_type s TOK_NULL) Ha) as E. cbv zeta in E.
  change (next (with_type s TOK_NULL)) with (next s) in E.
  change (resolve (move (mark (with_type s TOK_NULL)) (ident_end (next s)))
                  (next s) (String.length (ident_prefix (next s))))
    with (resolve s (next s) (String.length (ident_prefix (next s)))) in E.
  rewrite Er in E. apply Z.eqb_neq in Hv. rewrite Hv in E.
  unfold call_kind in Hk. apply orb_false_elim in Hk as [Hf Hc].
  rewrite Hc, Hf in E. rewrite E.
  cbn [type move mark with_type]. rewrite Z.eqb_refl.
  rewrite (tx_next_token_step (move s _)).
  rewrite (tx_next_token_step (move _ _)). reflexivity.
Qed.

(** * The parser reads the text through the tokenizer only *)

Section Simulation.

Variable rel : state -> state -> Prop.
Hypothesis rel_observed : forall s1 s2, rel s1 s2 -> observed s1 = observed s2.
Hypothesis rel_next :
  forall s1 s2, rel s1 s2 -> rel (tx_next_token s1) (tx_next_token s2).
Hypothesis rel_error :
  forall s1 s2, rel s1 s2 -> rel (with_type s1 TOK_ERROR) (with_type s2 TOK_ERROR).

Lemma sim_ret {A : Type} (a : A) : simulates rel (Ret a) (Ret a).
Proof.
  intros w1 w2 r w1' Hw E. injection E as <- <-. exists w2. split; [reflexivity | exact Hw].
Qed.

Lemma sim_bind {A B : Type} (p q : M A) (f g : A -> M B) :
  simulates rel p q -> (forall a, simulates rel (f a) (g a)) ->
  simulates rel (Bind p f) (Bind q g).
Proof.
  intros Hp Hf w1 w2 r w1' Hw E. unfold Bind in *.
  destruct (p w1) as [[a w1a]|] eqn:Ep; [|discriminate].
  destruct (Hp _ _ _ _ Hw Ep) as (w2a & Eq & Hwa). rewrite Eq.
  eapply Hf; eassumption.
Qed.

Lemma sim_get_state {B : Type} (f g : state -> M B) :
  (forall s1 s2, rel s1 s2 -> simulates rel (f s1) (g s2)) ->
  simulates rel (Bind get_state f) (Bind get_state g).
Proof.
  intros H w1 w2 r w1' Hw E. unfold Bind, get_state in *.
  eapply H; [apply Hw | exact Hw | exact E].
Qed.

Lemma sim_next_token : simulates rel next_token next_token.
Proof.
  intros w1 w2 r w1' (Hs & Hh & Ho) E. unfold next_token in *.
  injection E as <- <-. eexists. split; [reflexivity|].
  repeat split; cbn [st heap oom]; auto.
Qed.

Lemma sim_set_error : simulates rel set_error set_error.
Proof.
  intros w1 w2 r w1' (Hs & Hh & Ho) E. unfold set_error in *.
  injection E as <- <-. eexists. split; [reflexivity|].
  repeat split; cbn [st heap oom]; auto.
Qed.

Lemma sim_new_expr t ps : simulates rel (new_expr t ps) (new_expr t ps).
Proof.
  intros w1 w2 r w1' (Hs & Hh & Ho) E.
  unfold new_expr, Bind, malloc, Ret in *.
  rewrite <- Hh. destruct (heap w1) as [|[] hp] eqn:Eh; injection E as <- <-;
    eexists; (split; [reflexivity|]); repeat split; cbn [st heap oom];
      congruence.
Qed.

Lemma sim_check_null (p : tx_expr) (k k' : M tx_expr) :
  simulates rel k k' -> simulates rel (CHECK_NULL p k) (CHECK_NULL p k').
Proof. intros H. unfold CHECK_NULL. destruct (is_null p); [apply sim_ret | exact H]. Qed.

(** What the parser reads of two related states is the same. *)
Ltac same_fields Hr :=
  let Ho := fresh "Ho" in
  pose proof (rel_observed _ _ Hr) as Ho;
  match type of Ho with
  | observed ?s1 = observed ?s2 =>
      destruct s1 as [? ? ?ty ?tk ?cx ? ? ?], s2 as [? ? ?ty ?tk ?cx ? ? ?];
      unfold observed in Ho; cbn [type tok context] in Ho;
      injection Ho as -> -> ->
  end.

Ltac simulate_step :=
  first
    [ assumption
    | apply sim_ret
    | apply sim_next_token
    | apply sim_set_error
    | apply sim_new_expr
    | match goal with
      | |- simulates _ (if ?c then _ else _) _ => destruct c
      | |- simulates _ (match ?r with Some _ => _ | None => _ end) _ =>
          destruct r as [[? ?]|]
      | |- simulates _ (CHECK_NULL _ _) _ => apply sim_check_null
      | |- simulates _ (Bind get_state _) _ =>
          let sa := fresh "sa" in
          let sb := fresh "sb" in
          let Hab := fresh "Hab" in
          apply sim_get_state; intros sa sb Hab; same_fields Hab; cbn [type]
      | |- simulates _ (Bind _ _) (Bind _ _) => apply sim_bind; [|intros ?]
      | H : forall _, simulates _ _ _ |- _ => apply H
      | H : forall _ _, simulates _ _ _ |- _ => apply H
      | H : forall _ _ _, simulates _ _ _ |- _ => apply H
      end ].

Ltac simulate := repeat simulate_step.

Lemma sim_expect_close : simulates rel expect_close expect_close.
Proof. unfold expect_close. simulate. Qed.

Lemma signs_body_sim (a a' : Z -> M Z) (sign : Z) :
  (forall z, simulates rel (a z) (a' z)) ->
  simulates rel (signs_body a sign) (signs_body a' sign).
Proof.
  intros H. unfold signs_body. apply sim_get_state. intros s1 s2 Hr.
  same_fields Hr. unfold is_sign, s_function. cbn [type tok]. simulate.
Qed.

Lemma power_body_sim (s s' : M Z) (b b' : M tx_expr) :
  simulates rel s s' -> simulates rel b b' ->
  simulates rel (power_body s b) (power_body s' b').
Proof. intros Hs Hb. unfold power_body. simulate. Qed.

Lemma binary_loop_sim cond fn (o o' : M tx_expr) (a a' : tx_expr -> M tx_expr) ret :
  (forall s1 s2, observed s1 = observed s2 -> cond s1 = cond s2 /\ fn s1 = fn s2) ->
  simulates rel o o' -> (forall r, simulates rel (a r) (a' r)) ->
  simulates rel (binary_loop cond fn o a ret) (binary_loop cond fn o' a' ret).
Proof.
  intros Hc Ho Ha. unfold binary_loop. apply sim_get_state. intros s1 s2 Hr.
  destruct (Hc _ _ (rel_observed _ _ Hr)) as [-> ->]. simulate.
Qed.

Lemma binary_head_sim (o o' : M tx_expr) (l l' : tx_expr -> M tx_expr) :
  simulates rel o o' -> (forall r, simulates rel (l r) (l' r)) ->
  simulates rel (binary_head o l) (binary_head o' l').
Proof. intros Ho Hl. unfold binary_head. simulate. Qed.

Lemma arguments_body_sim (e e' : M tx_expr)
      (a a' : Z -> tx_expr -> M (option (tx_expr * Z))) arity i ret :
  simulates rel e e' -> (forall j r, simulates rel (a j r) (a' j r)) ->
  simulates rel (arguments_body e a arity i ret) (arguments_body e' a' arity i ret).
Proof.
  intros He Ha. unfold arguments_body.
  destruct (i <? arity); [|apply sim_ret].
  apply sim_bind; [apply sim_next_token|]. intros _.
  apply sim_bind; [exact He|]. intros p.
  destruct (is_null p); [apply sim_ret|].
  apply sim_get_state. intros s1 s2 Hr. same_fields Hr. cbn [type].
  simulate.
Qed.

Lemma base_body_sim (p p' : M tx_expr)
      (a a' : Z -> Z -> tx_expr -> M (option (tx_expr * Z))) (l l' : M tx_expr) :
  simulates rel p p' -> (forall n j r, simulates rel (a n j r) (a' n j r)) ->
  simulates rel l l' ->
  simulates rel (base_body p a l) (base_body p' a' l').
Proof.
  intros Hp Ha Hl. pose proof sim_expect_close as Hclose. unfold base_body.
  apply sim_get_state. intros s1 s2 Hr. same_fields Hr.
  unfold s_value, s_bound, s_function, set_context. cbn [type tok context]. cbv zeta.
  simulate.
Qed.

End Simulation.

Section Productions.

Variable rel : state -> state -> Prop.
Hypothesis rel_observed : forall s1 s2, rel s1 s2 -> observed s1 = observed s2.
Hypothesis rel_next :
  forall s1 s2, rel s1 s2 -> rel (tx_next_token s1) (tx_next_token s2).
Hypothesis rel_error :
  forall s1 s2, rel s1 s2 -> rel (with_type s1 TOK_ERROR) (with_type s2 TOK_ERROR).

Lemma sim_out_of_fuel {A : Type} (q : M A) : simulates rel out_of_fuel q.
Proof. intros w1 w2 r w1' _ E. discriminate E. Qed.

Lemma observed_operators (s1 s2 : state) :
  observed s1 = observed s2 ->
  s_function s1 = s_function s2
  /\ is_pow s1 = is_pow s2 /\ is_mul_div s1 = is_mul_div s2
  /\ is_sign s1 = is_sign s2 /\ is_sep s1 = is_sep s2.
Proof.
  destruct s1 as [? ? ty1 tk1 cx1 ? ? ?], s2 as [? ? ty2 tk2 cx2 ? ? ?].
  unfold observed. cbn [type tok context].
  intros E. injection E as -> -> ->. repeat split.
Qed.

Lemma signs_sim : forall fuel sign,
  simulates rel (Grammar.signs fuel sign) (Grammar.signs fuel sign).
Proof.
  induction fuel as [|fuel IH]; intros sign; [apply sim_out_of_fuel|].
  change (simulates rel (signs_body (Grammar.signs fuel) sign)
                    (signs_body (Grammar.signs fuel) sign)).
  apply signs_body_sim; assumption.
Qed.

(** Every production does the same on worlds with related tokenizer
    states. *)
Lemma parser_sim : forall fuel,
  simulates rel (Grammar.base fuel) (Grammar.base fuel)
  /\ (forall arity i ret,
        simulates rel (Grammar.arguments fuel arity i ret)
                  (Grammar.arguments fuel arity i ret))
  /\ simulates rel (Grammar.power fuel) (Grammar.power fuel)
  /\ (forall ret, simulates rel (Grammar.factor_loop fuel ret)
                            (Grammar.factor_loop fuel ret))
  /\ simulates rel (Grammar.factor fuel) (Grammar.factor fuel)
  /\ (forall ret, simulates rel (Grammar.term_loop fuel ret)
                            (Grammar.term_loop fuel ret))
  /\ simulates rel (Grammar.term fuel) (Grammar.term fuel)
  /\ (forall ret, simulates rel (Grammar.expr_loop fuel ret)
                            (Grammar.expr_loop fuel ret))
  /\ simulates rel (Grammar.expr fuel) (Grammar.expr fuel)
  /\ (forall ret, simulates rel (Grammar.list_loop fuel ret)
                            (Grammar.list_loop fuel ret))
  /\ simulates rel (Grammar.list fuel) (Grammar.list fuel).
Proof.
  induction fuel as [|fuel IH].
  { repeat split; intros; apply sim_out_of_fuel. }
  destruct IH as (Hb & Ha & Hp & Hfl & Hf & Htl & Ht & Hel & He & Hll & Hl).
  repeat split; intros.
  - change (simulates rel
              (base_body (Grammar.power fuel) (Grammar.arguments fuel)
                         (Grammar.list fuel))
              (base_body (Grammar.power fuel) (Grammar.arguments fuel)
                         (Grammar.list fuel))).
    apply base_body_sim; assumption.
  - change (simulates rel
              (arguments_body (Grammar.expr fuel) (Grammar.arguments fuel arity)
                              arity i ret)
              (arguments_body (Grammar.expr fuel) (Grammar.arguments fuel arity)
                              arity i ret)).
    apply arguments_body_sim; try assumption. intros; apply Ha.
  - change (simulates rel
              (power_body (Grammar.signs fuel 1) (Grammar.base fuel))
              (power_body (Grammar.signs fuel 1) (Grammar.base fuel))).
    apply power_body_sim; try assumption. apply signs_sim.
  - change (simulates rel
              (binary_loop is_pow s_function (Grammar.power fuel)
                           (Grammar.factor_loop fuel) ret)
              (binary_loop is_pow s_function (Grammar.power fuel)
                           (Grammar.factor_loop fuel) ret)).
    apply binary_loop_sim; try assumption.
    intros s1 s2 E. split; apply (observed_operators _ _ E).
  - change (simulates rel
              (binary_head (Grammar.power fuel) (Grammar.factor_loop fuel))
              (binary_head (Grammar.power fuel) (Grammar.factor_loop fuel))).
    apply binary_head_sim; assumption.
  - change (simulates rel
              (binary_loop is_mul_div s_function (Grammar.factor fuel)
                           (Grammar.term_loop fuel) ret)
              (binary_loop is_mul_div s_function (Grammar.factor fuel)
                           (Grammar.term_loop fuel) ret)).
    apply binary_loop_sim; try assumption.
    intros s1 s2 E. split; apply (observed_operators _ _ E).
  - change (simulates rel
              (binary_head (Grammar.factor fuel) (Grammar.term_loop fuel))
              (binary_head (Grammar.factor fuel) (Grammar.term_loop fuel))).
    apply binary_head_sim; assumption.
  - change (simulates rel
              (binary_loop is_sign s_function (Grammar.term fuel)
                           (Grammar.expr_loop fuel) ret)
              (binary_loop is_sign s_function (Grammar.term fuel)
                           (Grammar.expr_loop fuel) ret)).
    apply binary_loop_sim; try assumption.
    intros s1 s2 E. split; apply (observed_operators _ _ E).
  - change (simulates rel
              (binary_head (Grammar.term fuel) (Grammar.expr_loop fuel))
              (binary_head (Grammar.term fuel) (Grammar.expr_loop fuel))).
    apply binary_head_sim; assumption.
  - change (simulates rel
              (binary_loop is_sep (fun _ => P_fun f_comma) (Grammar.expr fuel)
                           (Grammar.list_loop fuel) ret)
              (binary_loop is_sep (fun _ => P_fun f_comma) (Grammar.expr fuel)
                           (Grammar.list_loop fuel) ret)).
    apply binary_loop_sim; try assumption.
    intros s1 s2 E. split; [apply (observed_operators _ _ E) | reflexivity].
  - change (simulates rel
              (binary_head (Grammar.expr fuel) (Grammar.list_loop fuel))
              (binary_head (Grammar.expr fuel) (Grammar.list_loop fuel))).
    apply binary_head_sim; assumption.
Qed.

End Productions.

(** ** Texts with the same tokens *)

Lemma same_tokens_observed (s1 s2 : state) :
  same_tokens s1 s2 -> observed s1 = observed s2.
Proof. intros H. exact (H 0%nat). Qed.

Lemma same_tokens_next (s1 s2 : state) :
  same_tokens s1 s2 -> same_tokens (tx_next_token s1) (tx_next_token s2).
Proof.
  intros H n. rewrite <- !Nat.iter_succ_r. apply H.
Qed.

Lemma same_tokens_error (s1 s2 : state) :
  same_tokens s1 s2 ->
  same_tokens (with_type s1 TOK_ERROR) (with_type s2 TOK_ERROR).
Proof.
  intros H [|n].
  - pose proof (H 0%nat) as E. cbn [Nat.iter] in *.
    destruct s1 as [? ? ty1 tk1 cx1 ? ? ?], s2 as [? ? ty2 tk2 cx2 ? ? ?].
    unfold observed in *. cbn [type tok context with_type] in *.
    injection E as _ -> ->. reflexivity.
  - rewrite !Nat.iter_succ_r, !tx_next_token_with_type, <- !Nat.iter_succ_r.
    apply H.
Qed.

(** ** A text further into a longer text *)

Lemma move_shift (k : nat) (s : state) (r : string) :
  move (shift k s) r = shift k (move s r).
Proof.
  unfold move, shift.
  cbn [next_off next type tok context lookup lookup_len tok_off].
  f_equal. lia.
Qed.

Lemma scan_shift (k : nat) (s : state) : scan (shift k s) = shift k (scan s).
Proof.
  unfold scan. cbv zeta.
  change (mark (shift k s)) with (shift k (mark s)).
  change (next (shift k (mark s))) with (next (mark s)).
  destruct (Ascii.eqb (peek (next (mark s))) NUL); [reflexivity|].
  destruct (isdigit (peek (next (mark s))) || Ascii.eqb (peek (next (mark s))) ".").
  { unfold strtod. destruct (Strtod.strtod (next (mark s))) as [v r].
    rewrite !move_shift.
    change (with_tok (shift k (move (mark s) r)) (tu_value v))
      with (shift k (with_tok (move (mark s) r) (tu_value v))).
    rewrite move_shift.
    destruct (Ascii.eqb (peek r) "I"); reflexivity. }
  destruct (isalpha (peek (next (mark s)))).
  - rewrite move_shift.
    change (next (shift k (move (mark s) (ident_end (next (mark s))))))
      with (next (move (mark s) (ident_end (next (mark s))))).
    match goal with
    | |- context [resolve (shift k ?x) ?a ?b] =>
        change (resolve (shift k x) a b) with (resolve x a b);
        destruct (resolve x a b) as [var|]
    end; [|reflexivity].
    destruct (TYPE_MASK (v_type var) =? TX_VARIABLE); [reflexivity|].
    destruct (is_closure_kind (TYPE_MASK (v_type var))); [reflexivity|].
    destruct (is_function_kind (TYPE_MASK (v_type var))); reflexivity.
  - rewrite move_shift.
    destruct (peek (next (mark s))) as [[] [] [] [] [] [] [] []]; reflexivity.
Qed.

Lemma next_token_loop_shift (k : nat) : forall fuel s,
  next_token_loop fuel (shift k s) = shift k (next_token_loop fuel s).
Proof.
  induction fuel as [|fuel IH]; intros s; [reflexivity|].
  cbn [next_token_loop]. cbv zeta. rewrite scan_shift.
  change (type (shift k (scan s))) with (type (scan s)).
  destruct (type (scan s) =? TOK_NULL); [apply IH | reflexivity].
Qed.

Lemma tx_next_token_shift (k : nat) (s : state) :
  tx_next_token (shift k s) = shift k (tx_next_token s).
Proof.
  unfold tx_next_token.
  change (with_type (shift k s) TOK_NULL) with (shift k (with_type s TOK_NULL)).
  change (next (shift k s)) with (next s).
  apply next_token_loop_shift.
Qed.

(** ** [tx_compile] on related texts *)

Section CompileSimulation.

Variable rel : state -> state -> Prop.
Hypothesis rel_observed : forall s1 s2, rel s1 s2 -> observed s1 = observed s2.
Hypothesis rel_next :
  forall s1 s2, rel s1 s2 -> rel (tx_next_token s1) (tx_next_token s2).
Hypothesis rel_error :
  forall s1 s2, rel s1 s2 -> rel (with_type s1 TOK_ERROR) (with_type s2 TOK_ERROR).

Variable R : runtime.
Variable m : memory.

Lemma tx_compile_sim (e1 e2 : string) (vars1 vars2 : option (list tx_variable))
      (n1 n2 : Z) (h : list bool) :
  rel (st (initial e1 vars1 n1 h)) (st (initial e2 vars2 n2 h)) ->
  let r1 := tx_compile R m e1 vars1 n1 h in
  let r2 := tx_compile R m e2 vars2 n2 h in
  handle r1 = handle r2
  /\ same_worlds rel (world_of r1) (world_of r2)
  /\ (error_of r1 = error_of r2
      \/ (error_of r1 = reported (world_of r1)
          /\ error_of r2 = reported (world_of r2))).
Proof.
  intros Hrel r1 r2.
  destruct (tx_compile_parse R m e1 vars1 n1 h (fun _ => True))
    as (root & w1 & El1 & E1 & _ & _); auto.
  destruct (parser_sim rel rel_observed rel_next rel_error (fuel_for e1))
    as (_&_&_&_&_&_&_&_&_&_&Hl).
  destruct (Hl (initial e1 vars1 n1 h) (initial e2 vars2 n2 h) root w1)
    as (w2 & El2 & Hw); [repeat split; assumption | exact El1|].
  assert (E2 : tx_compile R m e2 vars2 n2 h = finish R m root w2).
  { pose proof (tx_compile_budget R m (Nat.max (fuel_for e1) (fuel_for e2))
                  e2 vars2 n2 h (Nat.le_max_r _ _)) as Hb.
    unfold tx_compile_fuel in Hb.
    rewrite (list_budget _ _ (Nat.le_max_l (fuel_for e1) (fuel_for e2)) _ _ El2) in Hb.
    injection Hb as <-. reflexivity. }
  subst r1 r2. rewrite E1, E2. unfold finish.
  destruct Hw as (Hs & Hh & Ho).
  pose proof (rel_observed _ _ Hs) as Hobs.
  assert (Ht : type (st w1) = type (st w2)).
  { unfold observed in Hobs. congruence. }
  rewrite <- Ht.
  destruct (is_null root); [repeat split; auto|].
  destruct (negb (type (st w1) =? TOK_END)); repeat split; auto.
Qed.

End CompileSimulation.

Lemma shift_same_tokens (k : nat) (s : state) : same_tokens s (shift k s).
Proof.
  intros n. revert s. induction n as [|n IH]; intros s; [reflexivity|].
  rewrite !Nat.iter_succ_r, tx_next_token_shift. apply IH.
Qed.

Lemma tx_next_token_tok_off (s : state) (k : nat) :
  tx_next_token (mk_state (next_off s) (next s) (type s) (tok s) (context s)
                          (lookup s) (lookup_len s) k)
  = tx_next_token s.
Proof.
  rewrite tx_next_token_step, (tx_next_token_step s). reflexivity.
Qed.

(** The first token of a text that starts with white space. *)
Lemma initial_spaces (ws e : string) (variables : option (list tx_variable))
      (var_count : Z) (h : list bool) :
  all_space ws = true ->
  st (initial (ws ++ e) variables var_count h)
  = shift (String.length ws) (st (initial e variables var_count h)).
Proof.
  intros Hws. unfold initial. cbn [st].
  rewrite (tx_next_token_spaces ws e
             (mk_state 0 (ws ++ e) TOK_NULL tu_none P_null variables var_count 0)
             Hws eq_refl).
  rewrite <- tx_next_token_shift.
  unfold move, shift. cbn [next_off next type tok context lookup lookup_len tok_off].
  rewrite length_append.
  replace (0 + (String.length ws + String.length e - String.length e))%nat
    with (String.length ws + 0)%nat by lia.
  apply (tx_next_token_tok_off
           (mk_state (String.length ws + 0) e TOK_NULL tu_none P_null variables
                     var_count (String.length ws + 0)) 0).
Qed.

(** * Allocation and release *)

Lemma slots_length (f : tx_expr -> list tx_expr) : forall (ps : list tx_expr) (k : nat),
  List.length
    ((fix slots (k : nat) (l : list tx_expr) {struct l} : list tx_expr :=
        match l, k with
        | [], _ => []
        | _ :: _, O => []
        | c :: l', S k' => slots k' l' ++ f c
        end) k ps)
  = list_sum (List.map (fun c => List.length (f c)) (firstn k ps)).
Proof.
  induction ps as [|p ps IH]; intros [|k]; try reflexivity.
  rewrite length_app, IH.
  change (firstn (S k) (p :: ps)) with (p :: firstn k ps).
  unfold list_sum. cbn [List.map fold_right]. lia.
Qed.

Lemma frees_node t u ps ctx :
  frees (Node t u ps ctx)
  = S (list_sum (List.map frees (firstn (released_slots t) ps))).
Proof.
  unfold frees at 1. cbn [tx_free]. rewrite length_app, slots_length.
  cbn [List.length]. unfold frees. lia.
Qed.

Lemma tx_free_parameters_length t u ps ctx :
  List.length (tx_free_parameters (Node t u ps ctx))
  = list_sum (List.map frees (firstn (released_slots t) ps)).
Proof. cbn [tx_free_parameters]. rewrite slots_length. reflexivity. Qed.

Lemma frees_nulls (k j : nat) :
  list_sum (List.map frees (firstn k (repeat NULL j))) = 0%nat.
Proof.
  revert k. induction j as [|j IH]; intros [|k]; try reflexivity. simpl. apply IH.
Qed.

Lemma frees_fresh t u k ctx : frees (Node t u (repeat NULL k) ctx) = 1%nat.
Proof. rewrite frees_node, frees_nulls. reflexivity. Qed.

Lemma released_slots_arity (t : Z) :
  call_kind t = true -> released_slots t = Z.to_nat (ARITY t).
Proof.
  intros H. destruct (kind_arity t H) as [-> _]. unfold released_slots.
  destruct (kind_cases _ H) as [E|[E|[E|[E|[E|[E|[E|[E|[E|[E|[E|[E|[E|E]]]]]]]]]]]]];
    rewrite E; reflexivity.
Qed.

Lemma frees_set_nth (e : tx_expr) : forall (ps : list tx_expr) (i : nat),
  (i < List.length ps)%nat -> Forall (fun c => c = NULL) (skipn i ps) ->
  list_sum (List.map frees (set_nth i e ps))
  = (list_sum (List.map frees ps) + frees e)%nat
  /\ Forall (fun c => c = NULL) (skipn (S i) (set_nth i e ps)).
Proof.
  induction ps as [|p ps IH]; intros i Hi H; [simpl in Hi; lia|].
  destruct i as [|i].
  - cbn [skipn] in H. inversion H as [|? ? Hp Hps]; subst.
    cbn [set_nth List.map skipn]. unfold list_sum. cbn [fold_right].
    change (frees NULL) with 0%nat. split; [lia | exact Hps].
  - cbn [List.length] in Hi. cbn [skipn] in H.
    destruct (IH i) as [E1 E2]; [lia | exact H|].
    cbn [set_nth List.map skipn]. unfold list_sum in *. cbn [fold_right].
    split; [rewrite E1; lia | exact E2].
Qed.

Lemma frees_set_parameter (n : tx_expr) (i : Z) (e : tx_expr) :
  0 <= i -> open_from (Z.to_nat i) n -> i < Z.of_nat (List.length (children n)) ->
  frees (set_parameter n i e) = (frees n + frees e)%nat
  /\ open_from (Z.to_nat (i + 1)) (set_parameter n i e)
  /\ children (set_parameter n i e) <> [] /\ is_null (set_parameter n i e) = false
  /\ List.length (children (set_parameter n i e)) = List.length (children n).
Proof.
  intros Hi Ho Hl. destruct n as [|t u ps ctx]; [contradiction|].
  destruct Ho as [Hr Hn]. cbn [children] in Hl. cbn [set_parameter children].
  destruct (frees_set_nth e ps (Z.to_nat i)) as [E1 E2]; [lia | exact Hn|].
  assert (F : firstn (List.length ps) (set_nth (Z.to_nat i) e ps)
              = set_nth (Z.to_nat i) e ps).
  { rewrite <- (set_nth_length (Z.to_nat i) e ps) at 1. apply firstn_all. }
  rewrite !frees_node, Hr, F, firstn_all, E1. split; [lia|]. split.
  - split; [rewrite set_nth_length; exact Hr|].
    replace (Z.to_nat (i + 1)) with (S (Z.to_nat i)) by lia. exact E2.
  - split; [|split; [reflexivity | apply set_nth_length]].
    intros E. apply (f_equal (@List.length _)) in E.
    rewrite set_nth_length in E. simpl in E. lia.
Qed.

Lemma all_succeed_cons (b : bool) (h : list bool) :
  all_succeed (b :: h) = true -> b = true /\ all_succeed h = true.
Proof. unfold all_succeed. simpl. intros H. apply andb_prop in H. exact H. Qed.

(** One call of [new_expr]: one call of [malloc]. *)
Lemma wp_new_expr_heap t ps (Q : tx_expr -> world -> Prop) w :
  (forall w', st w' = st w ->
     (List.length (heap w') <= List.length (heap w))%nat ->
     (all_succeed (heap w) = true -> (0 < List.length (heap w'))%nat -> False) ->
     Q NULL w') ->
  (forall w', st w' = st w ->
     (List.length (heap w') <= List.length (heap w))%nat ->
     (all_succeed (heap w) = true -> (0 < List.length (heap w'))%nat ->
      all_succeed (heap w') = true
      /\ List.length (heap w) = S (List.length (heap w'))) ->
     Q (Node t (eu_bound P_null) (new_expr_children t ps) P_null) w') ->
  wp (new_expr t ps) Q w.
Proof.
  intros H1 H2. unfold wp, new_expr, Bind, malloc, Ret.
  fold (new_expr_children t ps).
  destruct (heap w) as [|[] hp] eqn:Eh.
  - apply H2; [reflexivity | rewrite Eh; simpl; lia|].
    rewrite Eh. simpl. lia.
  - apply H2; [reflexivity | simpl; lia|].
    cbn [heap]. intros Ha _. apply all_succeed_cons in Ha. split; [apply Ha | reflexivity].
  - apply H1; [reflexivity | simpl; lia|].
    intros Ha _. apply all_succeed_cons in Ha as [Ha _]. discriminate Ha.
Qed.

Lemma frees_set_function n f : frees (set_function n f) = frees n.
Proof. destruct n as [|t u ps ctx]; [reflexivity|]. cbn [set_function]. rewrite !frees_node. reflexivity. Qed.

Lemma frees_set_value n v : frees (set_value n v) = frees n.
Proof. destruct n as [|t u ps ctx]; [reflexivity|]. cbn [set_value]. rewrite !frees_node. reflexivity. Qed.

Lemma frees_set_bound n p : frees (set_bound n p) = frees n.
Proof. destruct n as [|t u ps ctx]; [reflexivity|]. cbn [set_bound]. rewrite !frees_node. reflexivity. Qed.

Lemma frees_children t u ctx :
  frees (Node t u (new_expr_children t None) ctx) = 1%nat.
Proof. unfold new_expr_children. apply frees_fresh. Qed.

Lemma frees_operator2 (a b : tx_expr) u ctx :
  frees (Node PURE2 u (new_expr_children PURE2 (Some [a; b])) ctx)
  = S (frees a + frees b).
Proof.
  rewrite frees_node.
  change (released_slots PURE2) with 2%nat.
  change (new_expr_children PURE2 (Some [a; b])) with [a; b].
  cbn [firstn List.map]. unfold list_sum. cbn [fold_right]. lia.
Qed.

Lemma frees_operator1 (a : tx_expr) u ctx :
  frees (Node PURE1 u (new_expr_children PURE1 (Some [a])) ctx) = S (frees a).
Proof.
  rewrite frees_node.
  change (released_slots PURE1) with 1%nat.
  change (new_expr_children PURE1 (Some [a])) with [a].
  cbn [firstn List.map]. unfold list_sum. cbn [fold_right]. lia.
Qed.

Lemma binary_head_allocates operand loop :
  allocates operand -> allocates_loop loop ->
  allocates (binary_head operand loop).
Proof.
  intros Ho Hl w. unfold binary_head.
  apply wp_bind. eapply wp_mono; [apply Ho|]. cbv beta.
  intros p w1 [L1 H1].
  apply wp_check_null.
  { intros ->. split; [exact L1|]. intros Hs Hn.
    destruct (H1 Hs Hn) as (_ & F & _). discriminate F. }
  intros Hp. eapply wp_mono; [apply Hl, Hp|]. cbv beta.
  intros r w2 [L2 H2]. split; [lia|]. intros Hs Hn.
  destruct (H1 Hs ltac:(lia)) as (Hs1 & _ & E1).
  destruct (H2 Hs1 Hn) as (Hs2 & Hr & E2).
  repeat split; try assumption. lia.
Qed.

Lemma binary_loop_allocates cond fn operand again :
  allocates operand -> allocates_loop again ->
  allocates_loop (binary_loop cond fn operand again).
Proof.
  intros Ho Ha ret w Hret. unfold binary_loop.
  apply wp_bind, wp_get_state.
  destruct (cond (st w)).
  2:{ apply wp_ret. split; [lia|]. intros Hs _. repeat split; auto. }
  apply wp_bind, wp_next_token.
  apply wp_bind. eapply wp_mono; [apply Ho|]. cbv beta.
  intros p w2 [L2 H2]. cbn [heap] in L2, H2.
  apply wp_check_null.
  { intros ->. split; [exact L2|]. intros Hs Hn.
    destruct (H2 Hs Hn) as (_ & F & _). discriminate F. }
  intros Hp.
  apply wp_bind, wp_new_expr_heap.
  { intros w3 _ L3 H3. apply wp_check_null; [intros _|discriminate].
    split; [lia|]. intros Hs Hn. exfalso.
    destruct (H2 Hs ltac:(lia)) as (Hs2 & _). apply H3; [exact Hs2 | exact Hn]. }
  intros w3 _ L3 H3. apply wp_check_null; [discriminate|]. intros _.
  eapply wp_mono; [apply Ha; reflexivity|]. cbv beta.
  intros r w4 [L4 H4]. split; [lia|]. intros Hs Hn.
  destruct (H2 Hs ltac:(lia)) as (Hs2 & _ & E2).
  destruct (H3 Hs2 ltac:(lia)) as (Hs3 & E3).
  destruct (H4 Hs3 Hn) as (Hs4 & Hr & E4).
  rewrite frees_set_function, frees_operator2 in E4.
  repeat split; try assumption. lia.
Qed.

Lemma power_body_allocates (signs : M Z) base :
  (forall w, wp signs (fun _ w' => heap w' = heap w) w) ->
  allocates base -> allocates (power_body signs base).
Proof.
  intros Hs Hb w. unfold power_body.
  apply wp_bind. eapply wp_mono; [apply Hs|]. cbv beta.
  intros sign w1 E1.
  assert (Hb1 : wp base (allocated 0 w) w1).
  { eapply wp_mono; [apply Hb|]. cbv beta. intros r w2 [L2 H2].
    split; [rewrite <- E1; exact L2|]. rewrite <- E1. exact H2. }
  destruct (sign =? 1); [exact Hb1|].
  apply wp_bind. eapply wp_mono; [exact Hb1|]. cbv beta.
  intros b w2 [L2 H2].
  apply wp_check_null.
  { intros ->. split; [exact L2|]. intros Ha Hn.
    destruct (H2 Ha Hn) as (_ & F & _). discriminate F. }
  intros Hnb.
  apply wp_bind, wp_new_expr_heap.
  { intros w3 _ L3 H3. apply wp_check_null; [intros _|discriminate].
    split; [lia|]. intros Ha Hn. exfalso.
    destruct (H2 Ha ltac:(lia)) as (Ha2 & _). apply H3; [exact Ha2 | exact Hn]. }
  intros w3 _ L3 H3. apply wp_check_null; [discriminate|]. intros _.
  apply wp_ret. split; [lia|]. intros Ha Hn.
  destruct (H2 Ha ltac:(lia)) as (Ha2 & _ & E2).
  destruct (H3 Ha2 Hn) as (Ha3 & E3).
  rewrite frees_set_function, frees_operator1.
  repeat split; try assumption. lia.
Qed.

Lemma signs_body_heap (again : Z -> M Z) (sign : Z) :
  (forall z w, wp (again z) (fun _ w' => heap w' = heap w) w) ->
  forall w, wp (signs_body again sign) (fun _ w' => heap w' = heap w) w.
Proof.
  intros Ha w. unfold signs_body.
  apply wp_bind, wp_get_state.
  destruct (is_sign (st w)); [|apply wp_ret; reflexivity].
  apply wp_bind, wp_next_token. eapply wp_mono; [apply Ha|].
  cbv beta. intros _ w' E. exact E.
Qed.

Lemma arguments_body_allocates expr again arity :
  allocates expr -> allocates_arguments arity again ->
  allocates_arguments arity (arguments_body expr again arity).
Proof.
  intros He Ha i ret w Hi Ho Hl. unfold arguments_body.
  assert (Hret : is_null ret = false) by (destruct ret; [contradiction | reflexivity]).
  destruct (i <? arity) eqn:Ei.
  2:{ apply wp_ret. split; [lia|]. intros Hs _. split; [exact Hs|].
      exists ret, i. repeat split; auto. }
  apply Z.ltb_lt in Ei.
  apply wp_bind, wp_next_token.
  apply wp_bind. eapply wp_mono; [apply He|]. cbv beta.
  intros p w2 [L2 H2]. cbn [heap] in L2, H2.
  destruct (is_null p) eqn:Enp.
  { apply wp_ret. split; [exact L2|]. intros Hs Hn.
    destruct (H2 Hs Hn) as (_ & F & _). congruence. }
  apply wp_bind, wp_get_state.
  destruct (frees_set_parameter ret i p Hi Ho) as (Ef & Ho' & _ & Hn' & Hl'); [lia|].
  destruct (negb (type (st w2) =? TOK_SEP)).
  - apply wp_ret. split; [exact L2|]. intros Hs Hn.
    destruct (H2 Hs Hn) as (Hs2 & _ & E2). split; [exact Hs2|].
    exists (set_parameter ret i p), i. repeat split; try assumption. lia.
  - eapply wp_mono.
    { apply (Ha (i + 1) (set_parameter ret i p) w2); [lia | exact Ho'|]. lia. }
    cbv beta. intros r w3 [L3 H3]. split; [lia|]. intros Hs Hn.
    destruct (H2 Hs ltac:(lia)) as (Hs2 & _ & E2).
    destruct (H3 Hs2 Hn) as (Hs3 & n & i' & -> & Hnn & E3).
    split; [exact Hs3|]. exists n, i'. repeat split; try assumption. lia.
Qed.

Lemma expect_close_heap w : wp expect_close (fun _ w' => heap w' = heap w) w.
Proof. apply expect_close_wp; intros _; reflexivity. Qed.

Lemma fresh_allocated (w w1 w' : world) (r : tx_expr) :
  (List.length (heap w1) <= List.length (heap w))%nat ->
  (all_succeed (heap w) = true -> (0 < List.length (heap w1))%nat ->
   all_succeed (heap w1) = true /\ List.length (heap w) = S (List.length (heap w1))) ->
  heap w' = heap w1 -> frees r = 1%nat -> is_null r = false ->
  allocated 0 w r w'.
Proof.
  intros L H E Hf Hn. split; [rewrite E; exact L|]. rewrite E. intros Hs Hp.
  destruct (H Hs Hp) as [Hs1 E1]. repeat split; try assumption. lia.
Qed.

Lemma null_allocated (k : nat) (w w1 w' : world) :
  (List.length (heap w1) <= List.length (heap w))%nat ->
  (all_succeed (heap w) = true -> (0 < List.length (heap w1))%nat -> False) ->
  heap w' = heap w1 -> allocated k w NULL w'.
Proof.
  intros L H E. split; [rewrite E; exact L|]. rewrite E. intros Hs Hp.
  destruct (H Hs Hp).
Qed.

Lemma open_from_fresh t u ctx :
  call_kind t = true ->
  open_from 0 (Node t u (new_expr_children t None) ctx)
  /\ Z.of_nat (List.length (children (Node t u (new_expr_children t None) ctx)))
     = ARITY t.
Proof.
  intros Hk. unfold new_expr_children. cbn [open_from children skipn].
  rewrite repeat_length, (released_slots_arity t Hk).
  destruct (kind_arity t Hk) as [_ Hr].
  repeat split; [|lia]. apply Forall_forall. intros c Hc.
  apply repeat_spec in Hc. exact Hc.
Qed.

Lemma base_body_allocates power arguments list :
  allocates power -> (forall arity, allocates_arguments arity (arguments arity)) ->
  allocates list ->
  allocates (base_body power arguments list).
Proof.
  intros Hp Ha Hl w. unfold base_body.
  apply wp_bind, wp_get_state. cbv zeta.
  set (t := type (st w)). set (k := TYPE_MASK t).
  assert (Hnull : forall (c : M tx_expr) w',
             st w' = st w ->
             (List.length (heap w') <= List.length (heap w))%nat ->
             (all_succeed (heap w) = true -> (0 < List.length (heap w'))%nat -> False) ->
             wp (CHECK_NULL NULL c) (allocated 0 w) w').
  { intros c w' _ L H. apply wp_check_null; [intros _|discriminate].
    apply (null_allocated 0 w w' w'); auto. }
  destruct (k =? TOK_NUMBER_R).
  { apply wp_bind, wp_new_expr_heap; [exact (Hnull _)|].
    intros w1 _ L1 H1. apply wp_check_null; [discriminate|]. intros _.
    apply wp_bind, wp_next_token, wp_ret.
    apply (fresh_allocated w w1); auto; rewrite ?frees_set_value; apply frees_children. }
  destruct (k =? TOK_NUMBER_I).
  { apply wp_bind, wp_new_expr_heap; [exact (Hnull _)|].
    intros w1 _ L1 H1. apply wp_check_null; [discriminate|]. intros _.
    apply wp_bind, wp_next_token, wp_ret.
    apply (fresh_allocated w w1); auto; rewrite ?frees_set_value; apply frees_children. }
  destruct (k =? TOK_VARIABLE).
  { apply wp_bind, wp_new_expr_heap; [exact (Hnull _)|].
    intros w1 _ L1 H1. apply wp_check_null; [discriminate|]. intros _.
    apply wp_bind, wp_next_token, wp_ret.
    apply (fresh_allocated w w1); auto; rewrite ?frees_set_bound; apply frees_children. }
  destruct ((k =? TX_FUNCTION0) || (k =? TX_CLOSURE0)) eqn:E0.
  { apply wp_bind, wp_new_expr_heap; [exact (Hnull _)|].
    intros w1 _ L1 H1. apply wp_check_null; [discriminate|]. intros _.
    rewrite set_context_call.
    apply wp_bind, wp_next_token. apply wp_bind, wp_get_state. apply wp_bind.
    match goal with |- context [type ?s1 =? TOK_OPEN] => destruct (type s1 =? TOK_OPEN) end.
    - apply wp_bind, wp_next_token. eapply wp_mono; [apply expect_close_heap|].
      cbv beta. intros _ w4 E4. cbn [heap] in E4. apply wp_ret.
      apply (fresh_allocated w w1); auto; apply frees_children.
    - apply wp_ret, wp_ret.
      apply (fresh_allocated w w1); auto; apply frees_children. }
  destruct ((k =? TX_FUNCTION1) || (k =? TX_CLOSURE1)) eqn:E1.
  { assert (Hk : call_kind t = true).
    { unfold call_kind. fold k.
      apply orb_prop in E1 as [E|E]; apply Z.eqb_eq in E; rewrite E; reflexivity. }
    assert (Har : ARITY t = 1).
    { destruct (kind_arity t Hk) as [-> _]. fold k.
      apply orb_prop in E1 as [E|E]; apply Z.eqb_eq in E; rewrite E; reflexivity. }
    apply wp_bind, wp_new_expr_heap; [exact (Hnull _)|].
    intros w1 _ L1 H1. apply wp_check_null; [discriminate|]. intros _.
    rewrite set_context_call. fold t.
    apply wp_bind, wp_next_token.
    apply wp_bind. eapply wp_mono; [apply Hp|]. cbv beta.
    intros p w3 [L3 H3]. cbn [heap] in L3, H3.
    apply wp_check_null.
    { intros ->. split; [lia|]. intros Hs Hn.
      destruct (H1 Hs ltac:(lia)) as (Hs1 & _).
      destruct (H3 Hs1 Hn) as (_ & F & _). discriminate F. }
    intros Hnp. apply wp_ret. split; [lia|]. intros Hs Hn.
    destruct (H1 Hs ltac:(lia)) as (Hs1 & E1').
    destruct (H3 Hs1 Hn) as (Hs3 & _ & E3).
    destruct (open_from_fresh t (eu_function (s_function (st w)))
                (if IS_CLOSURE t then context (st w) else P_null) Hk) as [Ho Hlen].
    destruct (frees_set_parameter _ 0 p (Z.le_refl 0) Ho) as (Ef & _ & _ & Hn' & _);
      [lia|].
    rewrite frees_children in Ef.
    repeat split; try assumption. lia. }
  destruct (is_function_kind k || is_closure_kind k) eqn:E2.
  { apply wp_bind, wp_new_expr_heap; [exact (Hnull _)|].
    intros w1 _ L1 H1. apply wp_check_null; [discriminate|]. intros _.
    rewrite set_context_call. fold t.
    set (node := Node t _ _ _).
    assert (Hfn : frees node = 1%nat) by apply frees_children.
    destruct (open_from_fresh t (eu_function (s_function (st w)))
                (if IS_CLOSURE t then context (st w) else P_null) E2) as [Ho Hlen].
    fold node in Ho, Hlen.
    apply wp_bind, wp_next_token. apply wp_bind, wp_get_state.
    match goal with
    | |- context [negb (type ?s1 =? TOK_OPEN)] => destruct (negb (type s1 =? TOK_OPEN))
    end.
    { apply wp_bind, wp_set_error, wp_ret.
      apply (fresh_allocated w w1); auto. }
    apply wp_bind. eapply wp_mono.
    { apply (Ha (ARITY t) 0 node); [lia | exact Ho | exact Hlen]. }
    cbv beta. intros r w3 [L3 H3]. cbn [heap] in L3, H3.
    destruct r as [[n i']|].
    - apply wp_bind, wp_get_state. apply wp_bind.
      assert (Hfin : forall w4, heap w4 = heap w3 -> allocated 0 w n w4).
      { intros w4 E4. split; [rewrite E4; lia|]. rewrite E4. intros Hs Hn.
        destruct (H1 Hs ltac:(lia)) as (Hs1 & E1').
        destruct (H3 Hs1 Hn) as (Hs3 & n0 & i0 & En & Hnn & E3).
        injection En as <- <-. repeat split; try assumption. lia. }
      destruct (negb (type (st w3) =? TOK_CLOSE) || negb (i' =? ARITY t - 1)).
      + apply wp_set_error, wp_ret, Hfin. reflexivity.
      + apply wp_next_token, wp_ret, Hfin. reflexivity.
    - apply wp_ret. split; [lia|]. intros Hs Hn.
      destruct (H1 Hs ltac:(lia)) as (Hs1 & _).
      destruct (H3 Hs1 Hn) as (_ & n0 & i0 & En & _). discriminate En. }
  destruct (k =? TOK_OPEN).
  { apply wp_bind, wp_next_token.
    apply wp_bind. eapply wp_mono; [apply Hl|]. cbv beta.
    intros p w2 [L2 H2]. cbn [heap] in L2, H2.
    apply wp_check_null.
    { intros ->. split; [exact L2|]. intros Hs Hn.
      destruct (H2 Hs Hn) as (_ & F & _). discriminate F. }
    intros Hnp.
    apply wp_bind. eapply wp_mono; [apply expect_close_heap|].
    cbv beta. intros _ w3 E3. apply wp_ret.
    split; [rewrite E3; exact L2|]. rewrite E3. exact H2. }
  apply wp_bind, wp_new_expr_heap; [exact (Hnull _)|].
  intros w1 _ L1 H1. apply wp_check_null; [discriminate|]. intros _.
  apply wp_bind, wp_set_error, wp_ret.
  apply (fresh_allocated w w1); auto; rewrite ?frees_set_value; apply frees_children.
Qed.

Lemma signs_heap : forall fuel sign w,
  wp (Grammar.signs fuel sign) (fun _ w' => heap w' = heap w) w.
Proof.
  induction fuel as [|fuel IH]; intros sign w; [exact I|].
  apply (signs_body_heap (Grammar.signs fuel) sign). intros z w0. apply IH.
Qed.

(** Every production allocates the nodes of its result and no others,
    whatever the budget. *)
Lemma parser_allocates : forall fuel,
  allocates (Grammar.base fuel)
  /\ (forall arity, allocates_arguments arity (Grammar.arguments fuel arity))
  /\ allocates (Grammar.power fuel)
  /\ allocates_loop (Grammar.factor_loop fuel) /\ allocates (Grammar.factor fuel)
  /\ allocates_loop (Grammar.term_loop fuel) /\ allocates (Grammar.term fuel)
  /\ allocates_loop (Grammar.expr_loop fuel) /\ allocates (Grammar.expr fuel)
  /\ allocates_loop (Grammar.list_loop fuel) /\ allocates (Grammar.list fuel).
Proof.
  induction fuel as [|fuel (Hb & Ha & Hp & Hfl & Hf & Htl & Ht & Hel & He & Hll & Hl)].
  - repeat split; repeat intro; exact I.
  - repeat split.
    + intros w. apply base_body_allocates; assumption.
    + intros i ret w. apply arguments_body_allocates; [assumption | apply Ha].
    + intros w. apply power_body_allocates; [|assumption].
      intros w0. apply signs_heap.
    + intros ret w. apply binary_loop_allocates; assumption.
    + intros w. apply binary_head_allocates; assumption.
    + intros ret w. apply binary_loop_allocates; assumption.
    + intros w. apply binary_head_allocates; assumption.
    + intros ret w. apply binary_loop_allocates; assumption.
    + intros w. apply binary_head_allocates; assumption.
    + intros ret w. apply binary_loop_allocates; assumption.
    + intros w. apply binary_head_allocates; assumption.
Qed.

Lemma loop_length (f : tx_expr -> list tx_expr) : forall (ps : list tx_expr) (k : nat),
  List.length
    ((fix loop (k : nat) (l : list tx_expr) {struct l} : list tx_expr :=
        match l, k with
        | [], _ => []
        | _ :: _, O => []
        | c :: l', S k' => f c ++ loop k' l'
        end) k ps)
  = list_sum (List.map (fun c => List.length (f c)) (firstn k ps)).
Proof.
  induction ps as [|p ps IH]; intros [|k]; try reflexivity.
  rewrite length_app, IH.
  change (firstn (S k) (p :: ps)) with (p :: firstn k ps).
  unfold list_sum. cbn [List.map fold_right]. lia.
Qed.

Lemma list_sum_pointwise (a b d : tx_expr -> nat) (ps : list tx_expr) :
  Forall (fun c => (a c + b c = d c)%nat) ps ->
  (list_sum (List.map a ps) + list_sum (List.map b ps)
   = list_sum (List.map d ps))%nat.
Proof.
  induction 1 as [|c l Hc Hl IH]; [reflexivity|].
  unfold list_sum in *. cbn [List.map fold_right]. lia.
Qed.

(** The optimizer releases the nodes it removes: what [tx_free] releases
    from the tree before is what the optimizer releases and what
    [tx_free] releases from the tree after. *)
Lemma optimize_releases_count (R : runtime) (m : memory) (n : tx_expr) :
  well_formed n = true ->
  (frees (optimize R m n) + List.length (optimize_releases R m n) = frees n)%nat.
Proof.
  induction n as [|t u ps ctx IH] using tx_expr_induction; [reflexivity|].
  intros Hwf. rewrite optimize_unfold. cbn [optimize_releases].
  destruct (t =? TX_CONSTANT) eqn:Ec; [simpl; lia|].
  destruct (t =? TX_VARIABLE) eqn:Ev; [simpl; lia|].
  destruct (IS_PURE t) eqn:Ep; [|simpl; lia]. cbv zeta.
  apply Z.eqb_neq in Ec, Ev.
  destruct (well_formed_node _ _ _ _ Hwf Ec Ev) as (Hk & Hl & _ & Hps).
  rewrite optimize_children_all by lia.
  assert (Hsum : (list_sum (List.map (fun c => frees (optimize R m c)) ps)
                  + list_sum (List.map (fun c => List.length (optimize_releases R m c)) ps)
                  = list_sum (List.map frees ps))%nat).
  { apply list_sum_pointwise. rewrite Forall_forall in *.
    rewrite forallb_forall in Hps. auto. }
  assert (Hr : released_slots t = List.length ps).
  { rewrite (released_slots_arity t Hk). lia. }
  rewrite (frees_node t u ps), Hr, firstn_all.
  destruct (known _ _).
  - rewrite length_app, loop_length, tx_free_parameters_length.
    rewrite firstn_all2 by lia.
    rewrite Hr, firstn_all2 by (rewrite length_map; lia).
    rewrite map_map. rewrite frees_node.
    change (firstn (released_slots TX_CONSTANT) []) with (@nil tx_expr).
    cbn [List.map list_sum fold_right]. lia.
  - rewrite loop_length, firstn_all2 by lia.
    rewrite frees_node, Hr, firstn_all2 by (rewrite length_map; lia).
    rewrite map_map. lia.
Qed.

Section NoLeak.

Variable R : runtime.
Variable m : memory.
Variable expression : string.
Variable variables : option (list tx_variable).
Variable var_count : Z.
Variable h : list bool.

(** When no allocation fails, the nodes that [tx_compile] allocated are
    those it released and those of the handle it returns. *)
Lemma tx_compile_allocation :
  let r := tx_compile R m expression variables var_count h in
  all_succeed h = true -> (0 < List.length (heap (world_of r)))%nat ->
  (List.length h
   = List.length (heap (world_of r))
     + List.length (tx_compile_releases R m expression variables var_count h)
     + frees (handle r))%nat.
Proof.
  intros r Hs Hn.
  destruct (tx_compile_parse R m expression variables var_count h (fun _ => True))
    as (root & w & El & E & _ & _); auto.
  unfold tx_compile_releases. rewrite El.
  destruct (parser_allocates (fuel_for expression)) as (_&_&_&_&_&_&_&_&_&_&Hl).
  pose proof (wp_run _ _ _ _ _ (Hl _) El) as [_ Ha]. cbn [heap initial] in Ha.
  assert (Ew : world_of r = w).
  { subst r. rewrite E. unfold finish.
    destruct (is_null root); [reflexivity|].
    destruct (negb (type (st w) =? TOK_END)); reflexivity. }
  rewrite Ew in *. destruct (Ha Hs Hn) as (_ & Hroot & Ecount).
  subst r. rewrite E. unfold finish, finish_releases. rewrite Hroot.
  destruct (type (st w) =? TOK_END) eqn:Et; cbn [negb handle fst].
  - assert (Hwf : well_formed root = true).
    { destruct (parser_builds (fuel_for expression)) as (_&_&_&_&_&_&_&_&_&_&Hb).
      apply (wp_run _ _ _ _ _ (Hb _) El); [exact Hroot|].
      apply Z.eqb_eq in Et. rewrite Et. discriminate. }
    pose proof (optimize_releases_count R m root Hwf). lia.
  - change (frees NULL) with 0%nat. fold (frees root). lia.
Qed.

End NoLeak.

(** [tx_free] releases each node of a well-formed tree. *)
Lemma frees_size (n : tx_expr) : well_formed n = true -> frees n = size n.
Proof.
  induction n as [|t u ps ctx IH] using tx_expr_induction; [discriminate|].
  intros Hwf. rewrite frees_node. cbn [size]. f_equal.
  destruct (t =? TX_CONSTANT) eqn:Ec.
  { simpl in Hwf. rewrite Ec in Hwf. destruct u, ps; try discriminate Hwf.
    destruct (released_slots t); reflexivity. }
  destruct (t =? TX_VARIABLE) eqn:Ev.
  { simpl in Hwf. rewrite Ec, Ev in Hwf. destruct u, ps; try discriminate Hwf.
    destruct (released_slots t); reflexivity. }
  apply Z.eqb_neq in Ec, Ev.
  destruct (well_formed_node _ _ _ _ Hwf Ec Ev) as (Hk & Hl & _ & Hps).
  rewrite (released_slots_arity t Hk), firstn_all2 by lia.
  clear Hl Hwf. induction ps as [|p ps IHps]; [reflexivity|].
  inversion IH; subst. simpl in Hps. apply andb_prop in Hps as [Hp Hps].
  unfold list_sum in *. cbn [List.map fold_right]. rewrite IHps; auto.
Qed.

(** * The bindings that the tokenizer reads *)

Lemma find_lookup_find (s : state) (name : string) (len : nat) :
  find_lookup s name len
  = List.find (name_matches name len) (visible (lookup s) (lookup_len s)).
Proof.
  unfold find_lookup. destruct (lookup s) as [vars|]; [|reflexivity].
  apply find_lookup_loop_find.
Qed.

Lemma resolve_find (s : state) (name : string) (len : nat) :
  resolve s name len
  = match List.find (name_matches name len) (visible (lookup s) (lookup_len s)) with
    | Some var => Some var
    | None => find_builtin name len
    end.
Proof. unfold resolve. rewrite find_lookup_find. reflexivity. Qed.

Lemma scan_same_visible (s1 s2 : state) :
  same_visible s1 s2 -> same_visible (scan s1) (scan s2).
Proof.
  destruct s1 as [o1 n1 ty1 tk1 cx1 l1 ll1 to1], s2 as [o2 n2 ty2 tk2 cx2 l2 ll2 to2].
  unfold same_visible.
  cbn [next_off next type tok context tok_off lookup lookup_len].
  intros (-> & -> & -> & -> & -> & -> & Hv).
  unfold scan. cbv zeta. cbn [mark next next_off type tok context lookup lookup_len].
  destruct (Ascii.eqb (peek n2) NUL); [repeat split; assumption|].
  destruct (isdigit (peek n2) || Ascii.eqb (peek n2) ".").
  { unfold strtod. destruct (Strtod.strtod n2) as [v r].
    destruct (Ascii.eqb (peek r) "I"); repeat split; assumption. }
  destruct (isalpha (peek n2)).
  - rewrite !resolve_find.
    cbn [move mark next next_off type tok context lookup lookup_len tok_off].
    rewrite Hv.
    match goal with
    | |- context [List.find ?f ?l] => destruct (List.find f l) as [var|]
    end.
    2:{ match goal with
        | |- context [find_builtin ?x ?y] => destruct (find_builtin x y) as [var|]
        end; [|repeat split; assumption].
        destruct (TYPE_MASK (v_type var) =? TX_VARIABLE); [repeat split; assumption|].
        destruct (is_closure_kind (TYPE_MASK (v_type var)));
          [repeat split; assumption|].
        destruct (is_function_kind (TYPE_MASK (v_type var))); repeat split; assumption. }
    destruct (TYPE_MASK (v_type var) =? TX_VARIABLE); [repeat split; assumption|].
    destruct (is_closure_kind (TYPE_MASK (v_type var))); [repeat split; assumption|].
    destruct (is_function_kind (TYPE_MASK (v_type var))); repeat split; assumption.
  - destruct (peek n2) as [[] [] [] [] [] [] [] []]; repeat split; assumption.
Qed.

Lemma next_token_loop_same_visible : forall fuel s1 s2,
  same_visible s1 s2 ->
  same_visible (next_token_loop fuel s1) (next_token_loop fuel s2).
Proof.
  induction fuel as [|fuel IH]; intros s1 s2 H; [exact H|].
  cbn [next_token_loop]. cbv zeta.
  pose proof (scan_same_visible s1 s2 H) as Hs.
  assert (Et : type (scan s1) = type (scan s2)) by apply Hs.
  rewrite Et. destruct (type (scan s2) =? TOK_NULL); [apply IH|]; exact Hs.
Qed.

Lemma tx_next_token_same_visible (s1 s2 : state) :
  same_visible s1 s2 -> same_visible (tx_next_token s1) (tx_next_token s2).
Proof.
  intros H. unfold tx_next_token.
  assert (En : next s1 = next s2) by apply H. rewrite En.
  apply next_token_loop_same_visible.
  destruct H as (H1 & H2 & H3 & H4 & H5 & H6 & H7). repeat split; assumption.
Qed.

Lemma same_visible_observed (s1 s2 : state) :
  same_visible s1 s2 -> observed s1 = observed s2.
Proof.
  intros (_ & _ & H3 & H4 & H5 & _). unfold observed. congruence.
Qed.

Lemma same_visible_error (s1 s2 : state) :
  same_visible s1 s2 ->
  same_visible (with_type s1 TOK_ERROR) (with_type s2 TOK_ERROR).
Proof.
  intros (H1 & H2 & H3 & H4 & H5 & H6 & H7). repeat split; assumption.
Qed.

(** [tx_compile] depends on the bindings through those that
    [find_lookup] scans only. *)
Lemma tx_compile_visible (R : runtime) (m : memory) (expression : string)
      (vars1 vars2 : option (list tx_variable)) (n1 n2 : Z) (h : list bool) :
  visible vars1 n1 = visible vars2 n2 ->
  handle (tx_compile R m expression vars1 n1 h)
  = handle (tx_compile R m expression vars2 n2 h)
  /\ error_of (tx_compile R m expression vars1 n1 h)
     = error_of (tx_compile R m expression vars2 n2 h).
Proof.
  intros Hv.
  destruct (tx_compile_sim same_visible same_visible_observed
              tx_next_token_same_visible same_visible_error
              R m expression expression vars1 vars2 n1 n2 h)
    as (Hh & (Hs & _ & _) & He).
  - unfold initial. cbn [st]. apply tx_next_token_same_visible.
    repeat split; assumption.
  - split; [exact Hh|]. destruct He as [E|[E1 E2]]; [exact E|].
    rewrite E1, E2. unfold reported.
    assert (En : next_off (st (world_of (tx_compile R m expression vars1 n1 h)))
                 = next_off (st (world_of (tx_compile R m expression vars2 n2 h))))
      by apply Hs.
    rewrite En. reflexivity.
Qed.

(** * Where the parser stops *)

Lemma stops_cases (s : state) :
  stops s = true -> type s = TOK_ERROR \/ type s = TOK_END.
Proof.
  unfold stops. intros H. apply orb_prop in H as [H|H]; apply Z.eqb_eq in H; auto.
Qed.

Lemma stops_not_infix (s : state) :
  stops s = true -> (type s =? TOK_INFIX) = false /\ (type s =? TOK_SEP) = false.
Proof. intros H. destruct (stops_cases _ H) as [-> | ->]; split; reflexivity. Qed.

Lemma base_body_stopped power arguments list :
  stopped (base_body power arguments list).
Proof.
  intros w Hw. unfold base_body.
  apply wp_bind, wp_get_state. cbv zeta.
  assert (E : (TYPE_MASK (type (st w)) =? TOK_NUMBER_R) = false
              /\ (TYPE_MASK (type (st w)) =? TOK_NUMBER_I) = false
              /\ (TYPE_MASK (type (st w)) =? TOK_VARIABLE) = false
              /\ (TYPE_MASK (type (st w)) =? TX_FUNCTION0)
                 || (TYPE_MASK (type (st w)) =? TX_CLOSURE0) = false
              /\ (TYPE_MASK (type (st w)) =? TX_FUNCTION1)
                 || (TYPE_MASK (type (st w)) =? TX_CLOSURE1) = false
              /\ is_function_kind (TYPE_MASK (type (st w)))
                 || is_closure_kind (TYPE_MASK (type (st w))) = false
              /\ (TYPE_MASK (type (st w)) =? TOK_OPEN) = false).
  { destruct (stops_cases _ Hw) as [-> | ->]; repeat split. }
  destruct E as (-> & -> & -> & -> & -> & -> & ->).
  apply wp_bind, wp_new_expr_state.
  - intros w1 Hs. apply wp_check_null; [intros _|discriminate].
    rewrite Hs. repeat split; [exact Hw | discriminate].
  - intros w1 Hs. apply wp_check_null; [discriminate|]. intros _.
    apply wp_bind, wp_set_error, wp_ret. cbn [st]. rewrite Hs.
    repeat split.
Qed.

Lemma signs_stopped : forall fuel w,
  stops (st w) = true ->
  wp (Grammar.signs fuel 1) (fun z w' => z = 1 /\ w' = w) w.
Proof.
  intros [|fuel] w Hw; [exact I|].
  change (wp (signs_body (Grammar.signs fuel) 1) (fun z w' => z = 1 /\ w' = w) w).
  unfold signs_body. apply wp_bind, wp_get_state.
  unfold is_sign. rewrite (proj1 (stops_not_infix _ Hw)).
  apply wp_ret. split; reflexivity.
Qed.

Lemma power_body_stopped (signs : M Z) base :
  (forall w, stops (st w) = true -> wp signs (fun z w' => z = 1 /\ w' = w) w) ->
  stopped base -> stopped (power_body signs base).
Proof.
  intros Hs Hb w Hw. unfold power_body.
  apply wp_bind. eapply wp_mono; [apply Hs, Hw|]. cbv beta.
  intros z w1 [-> ->]. cbn [Z.eqb Pos.eqb]. apply Hb, Hw.
Qed.

Lemma binary_head_stopped cond fn operand operand' again :
  (forall s, type s = TOK_ERROR -> cond s = false) ->
  stopped operand ->
  stopped (binary_head operand (binary_loop cond fn operand' again)).
Proof.
  intros Hc Ho w Hw. unfold binary_head.
  apply wp_bind. eapply wp_mono; [apply Ho, Hw|]. cbv beta.
  intros p w1 (H1 & H2 & H3 & H4).
  apply wp_check_null; [intros ->; repeat split; auto; discriminate|].
  intros Hp. unfold binary_loop. apply wp_bind, wp_get_state.
  rewrite (Hc _ (H4 Hp)). apply wp_ret. repeat split; auto.
Qed.

(** From the end of the text or an error, every production returns
    without moving the cursor. *)
Lemma parser_stopped (fuel : nat) :
  stopped (Grammar.base fuel) /\ stopped (Grammar.power fuel)
  /\ stopped (Grammar.factor fuel) /\ stopped (Grammar.term fuel)
  /\ stopped (Grammar.expr fuel) /\ stopped (Grammar.list fuel).
Proof.
  assert (Hinfix : forall s, type s = TOK_ERROR -> (type s =? TOK_INFIX) = false)
    by (intros s ->; reflexivity).
  assert (Hpow : forall s, type s = TOK_ERROR -> is_pow s = false)
    by (intros s E; unfold is_pow; rewrite (Hinfix s E); reflexivity).
  assert (Hmul : forall s, type s = TOK_ERROR -> is_mul_div s = false)
    by (intros s E; unfold is_mul_div; rewrite (Hinfix s E); reflexivity).
  assert (Hsign : forall s, type s = TOK_ERROR -> is_sign s = false)
    by (intros s E; unfold is_sign; rewrite (Hinfix s E); reflexivity).
  assert (Hsep : forall s, type s = TOK_ERROR -> is_sep s = false)
    by (intros s E; unfold is_sep; rewrite E; reflexivity).
  induction fuel as [|fuel (Hb & Hp & Hf & Ht & He & Hl)].
  - repeat split; intros w _; exact I.
  - split; [exact (base_body_stopped (Grammar.power fuel) (Grammar.arguments fuel)
                     (Grammar.list fuel))|].
    split; [exact (power_body_stopped (Grammar.signs fuel 1) (Grammar.base fuel)
                     (signs_stopped fuel) Hb)|].
    destruct fuel as [|fuel'].
    { repeat split; intros w _; exact I. }
    split; [exact (binary_head_stopped is_pow s_function (Grammar.power (S fuel'))
                     (Grammar.power fuel') (Grammar.factor_loop fuel') Hpow Hp)|].
    split; [exact (binary_head_stopped is_mul_div s_function (Grammar.factor (S fuel'))
                     (Grammar.factor fuel') (Grammar.term_loop fuel') Hmul Hf)|].
    split; [exact (binary_head_stopped is_sign s_function (Grammar.term (S fuel'))
                     (Grammar.term fuel') (Grammar.expr_loop fuel') Hsign Ht)|].
    exact (binary_head_stopped is_sep (fun _ => P_fun f_comma) (Grammar.expr (S fuel'))
             (Grammar.expr fuel') (Grammar.list_loop fuel') Hsep He).
Qed.

(** * A handle is returned at the end of the text only *)

Lemma scan_at_end (s : state) : type s = TOK_NULL -> at_end (scan s).
Proof.
  intros Ht. unfold at_end, scan. cbv zeta. change (next (mark s)) with (next s).
  destruct (Ascii.eqb (peek (next s)) NUL) eqn:En.
  { intros _. apply Ascii.eqb_eq in En. exact En. }
  destruct (isdigit (peek (next s)) || Ascii.eqb (peek (next s)) ".").
  { unfold strtod. destruct (Strtod.strtod (next s)) as [v r].
    destruct (Ascii.eqb (peek r) "I"); intros E; discriminate E. }
  destruct (isalpha (peek (next s))) eqn:Ea.
  - match goal with
    | |- context [resolve ?a ?b ?c] => destruct (resolve a b c) as [var|]
    end; [|intros E; discriminate E].
    destruct (TYPE_MASK (v_type var) =? TX_VARIABLE); [intros E; discriminate E|].
    destruct (is_closure_kind (TYPE_MASK (v_type var))) eqn:Ec.
    { cbn [type with_tok with_type]. intros E. rewrite E in Ec. discriminate Ec. }
    destruct (is_function_kind (TYPE_MASK (v_type var))) eqn:Ef.
    { cbn [type with_tok with_type]. intros E. rewrite E in Ef. discriminate Ef. }
    cbn [type move mark]. rewrite Ht. intros E. discriminate E.
  - destruct (peek (next s)) as [[] [] [] [] [] [] [] []];
      cbn [type move mark with_type with_tok]; try rewrite Ht;
        intros E; discriminate E.
Qed.

Lemma next_token_loop_at_end : forall fuel s,
  type s = TOK_NULL -> at_end (next_token_loop (S fuel) s).
Proof.
  induction fuel as [|fuel IH]; intros s Ht.
  - simpl. pose proof (scan_at_end s Ht) as H.
    destruct (type (scan s) =? TOK_NULL); exact H.
  - change (at_end (if type (scan s) =? TOK_NULL
                    then next_token_loop (S fuel) (scan s) else scan s)).
    destruct (type (scan s) =? TOK_NULL) eqn:E;
      [apply IH, Z.eqb_eq, E | apply scan_at_end, Ht].
Qed.

Lemma tx_next_token_at_end (s : state) : at_end (tx_next_token s).
Proof. unfold tx_next_token. apply next_token_loop_at_end. reflexivity. Qed.

(** A handle is returned when the cursor has reached the terminating NUL
    of the text. *)
Lemma tx_compile_at_end (R : runtime) (m : memory) (expression : string)
      (variables : option (list tx_variable)) (var_count : Z) (h : list bool) :
  let r := tx_compile R m expression variables var_count h in
  is_null (handle r) = false ->
  type (st (world_of r)) = TOK_END
  /\ peek (next (st (world_of r))) = NUL
  /\ (next_off (st (world_of r)) + String.length (next (st (world_of r)))
      = String.length expression)%nat.
Proof.
  intros r Hn.
  destruct (tx_compile_cases R m expression variables var_count h)
    as ([Hoff _] & [(_ & Hh & _) | [(_ & _ & Hh & _) | (_ & Ht & _ & _)]]);
    fold r in Hoff;
    [fold r in Hh; rewrite Hh in Hn; discriminate Hn
    |fold r in Hh; rewrite Hh in Hn; discriminate Hn
    |fold r in Ht].
  split; [exact Ht|]. split; [|exact Hoff].
  destruct (tx_compile_parse R m expression variables var_count h at_end)
    as (root & w & _ & E & Hend & _).
  - intros s _. apply tx_next_token_at_end.
  - intros s _ F. discriminate F.
  - apply tx_next_token_at_end.
  - assert (Ew : world_of r = w).
    { subst r. rewrite E. unfold finish.
      destruct (is_null root); [reflexivity|].
      destruct (negb (type (st w) =? TOK_END)); reflexivity. }
    rewrite Ew in *. apply Hend, Ht.
Qed.

(** * The specification, statement by statement *)

Local Open Scope string_scope.
Local Open Scope Z_scope.

(** C2, as the code has it: evaluating a null handle returns the real NaN
    converted to a complex number; its real component is not-a-number and
    its imaginary component is a positive zero. *)
Theorem C2_eval_null_is_real_nan (R : runtime) (m : memory) :
  tx_eval R m NULL = (NAN, 0%float)
  /\ cx_is_nan (tx_eval R m NULL) = (true, false).
Proof. split; reflexivity. Qed.

(** C2 as stated fails: the imaginary component of the value of a null
    handle is not a NaN. *)
Lemma C2_counterexample :
  ~ (PrimFloat.is_nan (creal (tx_eval Reference.rt Reference.zeros NULL)) = true
     /\ PrimFloat.is_nan (cimag (tx_eval Reference.rt Reference.zeros NULL)) = true).
Proof. intros [_ H]. vm_compute in H. discriminate. Qed.

(** C5: the optimizer folds a node flagged pure whose children are all
    constants, as the claim says, and "2+3" compiles to the single
    constant 5+0i; but it visits the children of a node only when that
    node is flagged pure.  In "f(2+3)", with [f] bound to a function
    that is not flagged pure, the argument 2+3 is a pure node over two
    constants and [tx_compile] returns it as it was parsed; the
    optimizer run on that argument alone folds it to the constant
    5+0i. *)
Theorem C5_impure_call_keeps_foldable_argument (R : runtime) (m : memory) :
  let root := handle (tx_compile R m "f(2+3)" (Some [impure_function "f" 0]) 1 []) in
  let argument := binary f_add (constant 2) (constant 3) in
  root = Node TX_FUNCTION1 (eu_function (P_fun (f_extern 0))) [argument] P_null
  /\ IS_PURE (e_type root) = false
  /\ IS_PURE (e_type argument) = true
  /\ forallb is_constant (children argument) = true
  /\ is_constant (nth 0 (children root) NULL) = false
  /\ optimize R m argument = folded (5%float, 0%float)
  /\ handle (tx_compile R m "2+3" None 0 []) = folded (5%float, 0%float).
Proof. vm_compute. repeat split; reflexivity. Qed.

(** C10: for a well-formed tree, and storage that is the same when the
    optimizer runs and when the trees are evaluated, the optimized tree
    evaluates to exactly the value of the tree it was made from (and is
    well formed again). *)
Theorem C10_optimize_preserves_value (R : runtime) (m : memory) (n : tx_expr) :
  well_formed n = true ->
  tx_eval R m (optimize R m n) = tx_eval R m n
  /\ well_formed (optimize R m n) = true.
Proof.
  intros H. split; [apply optimize_sound | apply optimize_well_formed, H].
Qed.

Lemma C10_witness :
  well_formed cube_plus_x = true
  /\ (tx_eval Reference.rt Reference.zeros
              (optimize Reference.rt Reference.zeros cube_plus_x)
      = tx_eval Reference.rt Reference.zeros cube_plus_x
      /\ well_formed (optimize Reference.rt Reference.zeros cube_plus_x) = true).
Proof.
  split; [reflexivity|].
  apply (C10_optimize_preserves_value Reference.rt Reference.zeros cube_plus_x).
  reflexivity.
Defined.

(** C1, as the code has it: when a call of [malloc] fails during
    compilation, [tx_compile] returns no handle and stores -1 through
    [error].  The value 0 is stored exactly when a handle is returned; a
    failure that is not an allocation failure stores the cursor of the
    tokenizer, or 1 when the cursor is 0 (so the empty text is reported
    as 1), which for a text shorter than 2^31 bytes is at least 1. *)
Theorem C1_allocation_failure_reports_minus_one
        (R : runtime) (m : memory) (expression : string)
        (variables : option (list tx_variable)) (var_count : Z) (h : list bool) :
  let r := tx_compile R m expression variables var_count h in
  (oom (world_of r) = true -> handle r = NULL /\ error_of r = -1)
  /\ (error_of r = 0 <-> handle r <> NULL)
  /\ (oom (world_of r) = false -> handle r = NULL ->
      error_of r = reported (world_of r)
      /\ (Z.of_nat (String.length expression) < 2 ^ 31 ->
          error_of r = Z.max 1 (Z.of_nat (next_off (st (world_of r))))
          /\ 1 <= error_of r))
  /\ error_of (tx_compile R m "" variables var_count []) = 1.
Proof.
  intros r.
  destruct (tx_compile_cases R m expression variables var_count h)
    as [Hoff [(Ho & Hh & He)|[(Ho & Ht & Hh & He)|(Ho & Ht & Hh & He)]]];
    fold r in Hoff, Ho, Hh, He.
  - split; [auto|]. split.
    + rewrite He, Hh. split; [discriminate | congruence].
    + split; [congruence | vm_compute; reflexivity].
  - split; [congruence|]. split.
    + rewrite He, Hh. split; [|congruence].
      intros E. destruct (reported_not_zero _ E).
    + split; [|vm_compute; reflexivity].
      intros _ _. split; [exact He|]. intros Hl.
      rewrite He, (reported_small expression _ Hoff Hl). lia.
  - split; [congruence|]. split.
    + rewrite He. split; [|reflexivity].
      intros _ E. rewrite E in Hh. discriminate.
    + split; [|vm_compute; reflexivity].
      intros _ E. rewrite E in Hh. discriminate.
Qed.

Lemma C1_witness :
  let r := tx_compile Reference.rt Reference.zeros "2+3" None 0 [true; false] in
  oom (world_of r) = true /\ (handle r = NULL /\ error_of r = -1).
Proof.
  split; [vm_compute; reflexivity|].
  apply (proj1 (C1_allocation_failure_reports_minus_one
                  Reference.rt Reference.zeros "2+3" None 0 [true; false])).
  vm_compute. reflexivity.
Defined.

(** C1 as stated fails: with the second allocation of "2+3" failing,
    the value stored through [error] is -1, not 0. *)
Lemma C1_counterexample :
  let r := tx_compile Reference.rt Reference.zeros "2+3" None 0 [true; false] in
  ~ (oom (world_of r) = true -> handle r = NULL /\ error_of r = 0).
Proof.
  vm_compute. intros H. destruct (H eq_refl) as [_ E]. discriminate.
Qed.

(** C9, as the code has it: when the grammar is satisfied and the current
    token is not the end of input, [tx_compile] returns no handle and
    stores the cursor of the tokenizer, which stands just past the first
    unconsumed token (that token starts at [tok_off], at or before the
    cursor), or 1 when the cursor is 0.  Compiling "2+2 3" stores 5: the
    trailing numeral starts at offset 4 and the cursor is one past it. *)
Theorem C9_trailing_input_reports_cursor
        (R : runtime) (m : memory) (expression : string)
        (variables : option (list tx_variable)) (var_count : Z) (h : list bool) :
  let r := tx_compile R m expression variables var_count h in
  let s := st (world_of r) in
  (oom (world_of r) = false -> type s <> TOK_END ->
   handle r = NULL
   /\ error_of r = reported (world_of r)
   /\ (tok_off s <= next_off s <= String.length expression)%nat
   /\ (Z.of_nat (String.length expression) < 2 ^ 31 ->
       error_of r = Z.max 1 (Z.of_nat (next_off s))))
  /\ (oom (world_of r) = false -> type s = TOK_END ->
      is_null (handle r) = false /\ error_of r = 0)
  /\ (let r' := tx_compile R m "2+2 3" None 0 [] in
      handle r' = NULL /\ error_of r' = 5
      /\ next_off (st (world_of r')) = 5%nat /\ tok_off (st (world_of r')) = 4%nat
      /\ type (st (world_of r')) = TOK_NUMBER_R).
Proof.
  intros r s.
  destruct (tx_compile_cases R m expression variables var_count h)
    as [Hoff [(Ho & Hh & He)|[(Ho & Ht & Hh & He)|(Ho & Ht & Hh & He)]]];
    fold r in Hoff, Ho, Hh, He; fold s in Hoff.
  - split; [congruence|]. split; [congruence|]. vm_compute. auto.
  - split; [|split; [intros _ E; destruct (Ht E) | vm_compute; auto]].
    intros _ _. destruct Hoff as [H1 H2]. repeat split; try assumption; try lia.
    intros Hl. rewrite He. apply (reported_small expression); [split|]; assumption.
  - split; [intros _ E; destruct (E Ht)|]. split; [auto|]. vm_compute. auto.
Qed.

Lemma C9_witness :
  let r := tx_compile Reference.rt Reference.zeros "1 x" None 0 [] in
  let s := st (world_of r) in
  (oom (world_of r) = false /\ type s <> TOK_END)
  /\ (handle r = NULL
      /\ error_of r = reported (world_of r)
      /\ (tok_off s <= next_off s <= String.length "1 x")%nat
      /\ (Z.of_nat (String.length "1 x") < 2 ^ 31 ->
          error_of r = Z.max 1 (Z.of_nat (next_off s)))).
Proof.
  split; [vm_compute; split; [reflexivity | discriminate]|].
  apply (proj1 (C9_trailing_input_reports_cursor
                  Reference.rt Reference.zeros "1 x" None 0 [])).
  - vm_compute. reflexivity.
  - vm_compute. discriminate.
Defined.

(** C9 as stated fails: for "2+2 34" the first unconsumed token is
    the numeral that starts at offset 4 (the fifth byte), and the value
    stored is 6, the offset just past that numeral. *)
Lemma C9_counterexample :
  let r := tx_compile Reference.rt Reference.zeros "2+2 34" None 0 [] in
  let start := Z.of_nat (tok_off (st (world_of r))) in
  start = 4 /\ ~ (error_of r = start \/ error_of r = start + 1).
Proof.
  vm_compute. split; [reflexivity|]. intros [H|H]; discriminate.
Qed.

(** Two complex numbers are different when some real number equals the
    real part, or the imaginary part, of one and not that of the other. *)
Lemma cx_neq (v : float) (a b : d_cx) :
  PrimFloat.eqb (creal a) v = true -> PrimFloat.eqb (creal b) v = false -> a <> b.
Proof. intros Ha Hb E. subst b. congruence. Qed.

Lemma cx_neq_imag (v : float) (a b : d_cx) :
  PrimFloat.eqb (cimag a) v = true -> PrimFloat.eqb (cimag b) v = false -> a <> b.
Proof. intros Ha Hb E. subst b. congruence. Qed.

(** C3, as the code has it: "2^3^2" parses as (2^3)^2 and not as
    2^(3^2); the optimizer folds it to the constant cpow(cpow(2,3),2),
    and compiling and evaluating it yields that value.  The value is
    64+0i, and not 512+0i, when [cpow] is exact at (2,3) and at (8,2). *)
Theorem C3_power_is_left_associative (R : runtime) (m : memory) :
  let two := (2%float, 0%float) in
  let three := (3%float, 0%float) in
  parse "2^3^2" None 0
  = Some (binary f_cpow (binary f_cpow (constant 2) (constant 3)) (constant 2))
  /\ parse "2^3^2" None 0
     <> Some (binary f_cpow (constant 2) (binary f_cpow (constant 3) (constant 2)))
  /\ handle (tx_compile R m "2^3^2" None 0 []) = folded (cpow R (cpow R two three) two)
  /\ tx_interp R m "2^3^2" [] = (cpow R (cpow R two three) two, 0)
  /\ (cpow R two three = (8%float, 0%float) ->
      cpow R (8%float, 0%float) two = (64%float, 0%float) ->
      tx_interp R m "2^3^2" [] = ((64%float, 0%float), 0)
      /\ fst (tx_interp R m "2^3^2" []) <> (512%float, 0%float)).
Proof.
  intros two three.
  destruct R as [lu ca cg cp cm cd ex]. cbn [cpow].
  assert (E : tx_interp (mk_runtime lu ca cg cp cm cd ex) m "2^3^2" []
              = (cp (cp two three) two, 0))
    by (vm_compute; reflexivity).
  split; [vm_compute; reflexivity|].
  split; [vm_compute; discriminate|].
  split; [vm_compute; reflexivity|].
  split; [exact E|].
  intros H1 H2. rewrite E, H1, H2.
  split; [reflexivity|].
  apply (cx_neq 64); vm_compute; reflexivity.
Qed.

Lemma C3_witness :
  (cpow Reference.rt (2%float, 0%float) (3%float, 0%float) = (8%float, 0%float)
   /\ cpow Reference.rt (8%float, 0%float) (2%float, 0%float) = (64%float, 0%float))
  /\ tx_interp Reference.rt Reference.zeros "2^3^2" [] = ((64%float, 0%float), 0).
Proof.
  split; [split; vm_compute; reflexivity|].
  apply (proj2 (proj2 (proj2 (proj2
           (C3_power_is_left_associative Reference.rt Reference.zeros)))));
    vm_compute; reflexivity.
Defined.

(** C3 as stated fails: with the values that the C library's [cpow]
    returns, compiling and evaluating "2^3^2" yields
    63.999999999999979+0i, which is not 64+0i. *)
Lemma C3_counterexample :
  tx_interp Libm.rt Reference.zeros "2^3^2" []
  = ((0x1.ffffffffffffdp+5%float, 0%float), 0)
  /\ fst (tx_interp Libm.rt Reference.zeros "2^3^2" []) <> (64%float, 0%float).
Proof.
  split; [vm_compute; reflexivity|].
  apply not_eq_sym, (cx_neq 64); vm_compute; reflexivity.
Qed.

(** C4, as the code has it: [power] consumes any run of signs and returns
    its base, or one negation of it; "-2^2" parses as (-2)^2, with the
    negation below the power, and further signs add no wrapper; the
    optimizer folds it to the constant cpow(-2-0i,2), and compiling and
    evaluating it yields that value.  The value is 4+0i, and not -4+0i,
    when [cpow] is exact at (-2-0i,2). *)
Theorem C4_sign_binds_tighter_than_power (R : runtime) (m : memory) :
  let two := (2%float, 0%float) in
  (forall fuel w r w',
      Grammar.power fuel w = Some (r, w') -> is_null r = false ->
      exists fuel' sign w1 b w2,
        fuel = S fuel'
        /\ Grammar.signs fuel' 1 w = Some (sign, w1)
        /\ Grammar.base fuel' w1 = Some (b, w2)
        /\ is_null b = false
        /\ ((sign = 1 /\ r = b) \/ (sign = -1 /\ r = negation b)))
  /\ parse "-2^2" None 0
     = Some (binary f_cpow (negation (constant 2)) (constant 2))
  /\ parse "-2^2" None 0
     <> Some (negation (binary f_cpow (constant 2) (constant 2)))
  /\ parse "--2^2" None 0 = Some (binary f_cpow (constant 2) (constant 2))
  /\ parse "-+--2^2" None 0
     = Some (binary f_cpow (negation (constant 2)) (constant 2))
  /\ handle (tx_compile R m "-2^2" None 0 []) = folded (cpow R (cx_neg two) two)
  /\ tx_interp R m "-2^2" [] = (cpow R (cx_neg two) two, 0)
  /\ (cpow R ((-2)%float, (-0)%float) two = (4%float, 0%float) ->
      tx_interp R m "-2^2" [] = ((4%float, 0%float), 0)
      /\ fst (tx_interp R m "-2^2" []) <> ((-4)%float, 0%float)).
Proof.
  intros two.
  destruct R as [lu ca cg cp cm cd ex]. cbn [cpow].
  assert (E : tx_interp (mk_runtime lu ca cg cp cm cd ex) m "-2^2" []
              = (cp ((-2)%float, (-0)%float) two, 0))
    by (vm_compute; reflexivity).
  split; [exact power_shape|].
  split; [vm_compute; reflexivity|].
  split; [vm_compute; discriminate|].
  split; [vm_compute; reflexivity|].
  split; [vm_compute; reflexivity|].
  split; [vm_compute; reflexivity|].
  split; [vm_compute; reflexivity|].
  intros H1. rewrite E, H1.
  split; [reflexivity|].
  apply (cx_neq 4); vm_compute; reflexivity.
Qed.

Lemma C4_witness :
  cpow Reference.rt ((-2)%float, (-0)%float) (2%float, 0%float) = (4%float, 0%float)
  /\ tx_interp Reference.rt Reference.zeros "-2^2" [] = ((4%float, 0%float), 0).
Proof.
  split; [vm_compute; reflexivity|].
  apply (proj2 (proj2 (proj2 (proj2 (proj2 (proj2 (proj2
           (C4_sign_binds_tighter_than_power Reference.rt Reference.zeros)))))))).
  vm_compute. reflexivity.
Defined.

(** C4 as stated fails: with the values that the C library's [cpow]
    returns, compiling and evaluating "-2^2" yields a number whose
    imaginary part is 9.7971743931788257e-16, which is not 4+0i. *)
Lemma C4_counterexample :
  tx_interp Libm.rt Reference.zeros "-2^2" []
  = ((4%float, 0x1.1a62633145c07p-50%float), 0)
  /\ fst (tx_interp Libm.rt Reference.zeros "-2^2" []) <> (4%float, 0%float).
Proof.
  split; [vm_compute; reflexivity|].
  apply not_eq_sym, (cx_neq_imag 0); vm_compute; reflexivity.
Qed.

(** C6: a variable reference is never rewritten by the optimizer and its
    value is the content of its address in the storage of the evaluation
    at hand.  Every handle that [tx_compile] returns is the optimized form
    of the tree that the parser built, and (the functions flagged pure
    being independent of the storage) evaluates in any storage to what
    that tree evaluates to there: nothing read from the storage at
    compile time is kept.  The handle of "x+1", with [x] bound to an
    address [a], evaluates to the content of [a] plus one: to 3+0i when
    [a] holds 2+0i, and to 6+0i once the caller has stored 5+0i there. *)
Theorem C6_live_binding (R : runtime) (m0 : memory) (a : N) :
  let h := handle (tx_compile R m0 "x+1" (Some [variable "x" a]) 1 []) in
  (forall m ps ctx,
      optimize R m0 (Node TX_VARIABLE (eu_bound (P_data a)) ps ctx)
      = Node TX_VARIABLE (eu_bound (P_data a)) ps ctx
      /\ tx_eval R m (Node TX_VARIABLE (eu_bound (P_data a)) ps ctx) = m a)
  /\ (forall expression variables var_count heap,
        let r := tx_compile R m0 expression variables var_count heap in
        is_null (handle r) = false ->
        exists root,
          option_map fst
            (Grammar.list (fuel_for expression)
                          (initial expression variables var_count heap))
          = Some root
          /\ handle r = optimize R m0 root
          /\ (honest R root ->
              forall m, tx_eval R m (handle r) = tx_eval R m root))
  /\ (forall m, tx_eval R m h = cx_add (m a) (1%float, 0%float))
  /\ (forall m,
        let m1 := store m a (2%float, 0%float) in
        let m2 := store m1 a (5%float, 0%float) in
        tx_eval R m1 h = (3%float, 0%float)
        /\ tx_eval R m2 h = (6%float, 0%float)).
Proof.
  intros h.
  assert (E : h = binary f_add (Node TX_VARIABLE (eu_bound (P_data a)) [] P_null)
                         (constant 1))
    by (vm_compute; reflexivity).
  assert (Hv : forall m, tx_eval R m h = cx_add (m a) (1%float, 0%float))
    by (intros m; rewrite E; reflexivity).
  split; [intros m ps ctx; split; reflexivity|].
  split.
  { intros expression variables var_count heap r Hn.
    destruct (tx_compile_handle R m0 expression variables var_count heap Hn)
      as (root & w & El & _ & Hwf & Eh & _).
    exists root. split; [rewrite El; reflexivity|]. split; [exact Eh|].
    intros Hh m. fold r in Eh. rewrite Eh.
    apply optimize_any_storage; assumption. }
  split; [exact Hv|].
  intros m m1 m2. rewrite !Hv. unfold m2, m1, store.
  rewrite N.eqb_refl. split; reflexivity.
Qed.

Lemma C6_witness :
  let r := tx_compile Reference.rt Reference.zeros "x+2*3"
                      (Some [variable "x" 1]) 1 [] in
  is_null (handle r) = false
  /\ exists root,
      option_map fst
        (Grammar.list (fuel_for "x+2*3")
                      (initial "x+2*3" (Some [variable "x" 1]) 1 []))
      = Some root
      /\ handle r = optimize Reference.rt Reference.zeros root
      /\ (honest Reference.rt root ->
          forall m, tx_eval Reference.rt m (handle r) = tx_eval Reference.rt m root).
Proof.
  split; [vm_compute; reflexivity|].
  apply (proj1 (proj2 (C6_live_binding Reference.rt Reference.zeros 1))
               "x+2*3" (Some [variable "x" 1]) 1 []).
  vm_compute. reflexivity.
Defined.

(** C7: an identifier is resolved through the caller's bindings first
    and through the builtin table only when no binding matches; the scan
    of the bindings returns the first of the scanned bindings (the first
    [lookup_len] entries, or every entry when the count is negative)
    whose whole name is the lexeme; so a variable named like a builtin
    shadows it: with "pi" bound to storage that holds 4+0i the
    expression "pi" evaluates to 4+0i, also when the count passed is
    negative, and without the binding to the builtin constant. *)
Theorem C7_bindings_shadow_builtins (R : runtime) (m0 : memory) :
  (forall s text len,
      resolve s text len
      = match find_lookup s text len with
        | Some var => Some var
        | None => find_builtin text len
        end)
  /\ (forall s text vars,
        lookup s = Some vars ->
        find_lookup s text (String.length (ident_prefix text))
        = List.find
            (fun var => String.eqb (cstring (v_name var)) (ident_prefix text))
            (visible (Some vars) (lookup_len s)))
  /\ (forall s,
        isalpha (peek (next s)) = true ->
        let s1 := move (mark s) (ident_end (next s)) in
        type (scan s)
        = match resolve s1 (next s) (String.length (ident_prefix (next s))) with
          | None => TOK_ERROR
          | Some var =>
              let k := TYPE_MASK (v_type var) in
              if k =? TX_VARIABLE then TOK_VARIABLE
              else if is_closure_kind k || is_function_kind k then v_type var
              else type s
          end)
  /\ (forall s vars var,
        lookup s = Some vars ->
        isalpha (peek (next s)) = true ->
        List.find
          (fun v => String.eqb (cstring (v_name v)) (ident_prefix (next s)))
          (visible (Some vars) (lookup_len s)) = Some var ->
        TYPE_MASK (v_type var) = TX_VARIABLE ->
        type (tx_next_token s) = TOK_VARIABLE
        /\ s_bound (tx_next_token s) = v_address var)
  /\ (forall a m,
        tx_eval R (store m a (4%float, 0%float))
                (handle (tx_compile R m0 "pi" (Some [variable "pi" a]) 1 []))
        = (4%float, 0%float))
  /\ (forall a m,
        tx_eval R (store m a (4%float, 0%float))
                (handle (tx_compile R m0 "pi" (Some [variable "pi" a]) (-1) []))
        = (4%float, 0%float))
  /\ (forall m, tx_interp R m "pi" [] = (cx_of_real pi_double, 0)).
Proof.
  split; [reflexivity|].
  split; [exact find_lookup_first|].
  split.
  { intros s Ha s1. rewrite (scan_identifier s Ha). cbv zeta. fold s1.
    destruct (resolve s1 (next s) _) as [var|]; [|reflexivity].
    destruct (TYPE_MASK (v_type var) =? TX_VARIABLE); [reflexivity|].
    destruct (is_closure_kind (TYPE_MASK (v_type var))); [reflexivity|].
    destruct (is_function_kind (TYPE_MASK (v_type var))); reflexivity. }
  split; [exact binding_shadows|].
  split; [|split].
  - intros a m.
    assert (E : handle (tx_compile R m0 "pi" (Some [variable "pi" a]) 1 [])
                = Node TX_VARIABLE (eu_bound (P_data a)) [] P_null)
      by (vm_compute; reflexivity).
    rewrite E. simpl. unfold store. rewrite N.eqb_refl. reflexivity.
  - intros a m.
    assert (E : handle (tx_compile R m0 "pi" (Some [variable "pi" a]) (-1) [])
                = Node TX_VARIABLE (eu_bound (P_data a)) [] P_null)
      by (vm_compute; reflexivity).
    rewrite E. simpl. unfold store. rewrite N.eqb_refl. reflexivity.
  - intros m. vm_compute. reflexivity.
Qed.

Lemma C7_witness :
  let s := mk_state 0 "pi" TOK_NULL tu_none P_null
                    (Some [variable "e" 1; variable "pi" 2; variable "pi" 3]) 3 0 in
  type (tx_next_token s) = TOK_VARIABLE
  /\ s_bound (tx_next_token s) = P_data 2.
Proof.
  intros s.
  apply (proj1 (proj2 (proj2 (proj2
           (C7_bindings_shadow_builtins Reference.rt Reference.zeros))))
         s [variable "e" 1; variable "pi" 2; variable "pi" 3] (variable "pi" 2));
    reflexivity.
Defined.

(** C8: "pow(2)" does not compile: no handle is returned and the offset
    stored is 6, at (counting bytes from one) and after (counting from
    zero) the closing parenthesis, whose offset from zero is 5.  Neither
    does "pow(1,2,3)", which has an argument too many: the offset stored
    is 8, the cursor after the second comma.  In general, when [base]
    reads a call of a function or closure of arity two or more and comes
    back with a node and without an error, the token after the name was
    an opening parenthesis; the arguments read from there, each followed
    by a comma except the last, are exactly as many as the arity; the
    token after the last of them is the closing parenthesis; and they
    are the children of the node, none of them null. *)
Theorem C8_exact_arity (R : runtime) (m : memory) :
  (let r := tx_compile R m "pow(2)" None 0 [] in
   handle r = NULL /\ error_of r = 6 /\ oom (world_of r) = false
   /\ String.index 0 ")" "pow(2)" = Some 5%nat
   /\ option_map (fun var => ARITY (v_type var)) (find_builtin "pow(2)" 3) = Some 2)
  /\ (let r := tx_compile R m "pow(1,2,3)" None 0 [] in
      handle r = NULL /\ error_of r = 8 /\ oom (world_of r) = false)
  /\ (forall fuel w r w',
        (TX_FUNCTION2 <= TYPE_MASK (type (st w)) <= TX_FUNCTION6
         \/ TX_CLOSURE2 <= TYPE_MASK (type (st w)) <= TX_CLOSURE6) ->
        Grammar.base fuel w = Some (r, w') ->
        is_null r = false -> type (st w') <> TOK_ERROR ->
        exists ps ctx w1 w2,
          r = Node (type (st w)) (eu_function (s_function (st w))) ps ctx
          /\ Z.of_nat (List.length ps) = ARITY (type (st w))
          /\ 2 <= ARITY (type (st w)) <= 6
          /\ Forall (fun c => is_null c = false) ps
          /\ st w1 = tx_next_token (st w) /\ type (st w1) = TOK_OPEN
          /\ arguments_read w1 ps w2
          /\ type (st w2) = TOK_CLOSE
          /\ w' = after_token w2).
Proof.
  split; [vm_compute; repeat split; reflexivity|].
  split; [vm_compute; repeat split; reflexivity | exact base_call_arity].
Qed.

Lemma C8_witness :
  let w := initial "pow(2,3)" None 0 [] in
  exists r w',
    Grammar.base 30 w = Some (r, w')
    /\ exists ps ctx w1 w2,
        r = Node (type (st w)) (eu_function (s_function (st w))) ps ctx
        /\ Z.of_nat (List.length ps) = ARITY (type (st w))
        /\ 2 <= ARITY (type (st w)) <= 6
        /\ Forall (fun c => is_null c = false) ps
        /\ st w1 = tx_next_token (st w) /\ type (st w1) = TOK_OPEN
        /\ arguments_read w1 ps w2
        /\ type (st w2) = TOK_CLOSE
        /\ w' = after_token w2.
Proof.
  intros w.
  destruct (Grammar.base 30 w) as [[r w']|] eqn:E; [|vm_compute in E; discriminate E].
  exists r, w'. split; [reflexivity|].
  apply (proj2 (proj2 (C8_exact_arity Reference.rt Reference.zeros)) 30%nat w r w').
  - left. vm_compute. split; discriminate.
  - exact E.
  - vm_compute in E. inversion E. reflexivity.
  - vm_compute in E. inversion E. vm_compute. discriminate.
Defined.

(** * Further properties of the compiler *)

(** X1: [tx_compile] terminates on every text, every list of bindings and
    every behaviour of [malloc].  The recursive descent returns within a
    nesting depth that is linear in the length of the text, and with any
    larger bound on the depth it returns the same handle, the same value
    of [error] and the same final state. *)
Theorem tx_compile_terminates
        (R : runtime) (m : memory) (fuel : nat) (expression : string)
        (variables : option (list tx_variable)) (var_count : Z) (h : list bool) :
  (fuel_for expression <= fuel)%nat ->
  tx_compile_fuel R m fuel expression variables var_count h
  = Some (tx_compile R m expression variables var_count h).
Proof. apply tx_compile_budget. Qed.

Lemma tx_compile_terminates_witness :
  (fuel_for "(1+2)*3" <= 200)%nat
  /\ tx_compile_fuel Reference.rt Reference.zeros 200 "(1+2)*3" None 0 []
     = Some (tx_compile Reference.rt Reference.zeros "(1+2)*3" None 0 []).
Proof.
  split; [vm_compute; lia|].
  apply (tx_compile_terminates Reference.rt Reference.zeros 200 "(1+2)*3" None 0 []).
  vm_compute. lia.
Defined.

(** X2: every handle that [tx_compile] returns is a well-formed tree: a
    constant or a variable reference has no child, every call has exactly
    as many children as the arity in its type, and no child is null. *)
Theorem compiled_handle_well_formed
        (R : runtime) (m : memory) (expression : string)
        (variables : option (list tx_variable)) (var_count : Z) (h : list bool) :
  is_null (handle (tx_compile R m expression variables var_count h)) = false ->
  well_formed (handle (tx_compile R m expression variables var_count h)) = true.
Proof.
  intros Hn.
  destruct (tx_compile_handle R m expression variables var_count h Hn)
    as (root & w & _ & _ & _ & _ & H).
  exact H.
Qed.

Lemma compiled_handle_well_formed_witness :
  is_null (handle (tx_compile Reference.rt Reference.zeros "pow(2,x)-sin x"
                              (Some [variable "x" 1]) 1 [])) = false
  /\ well_formed (handle (tx_compile Reference.rt Reference.zeros "pow(2,x)-sin x"
                                     (Some [variable "x" 1]) 1 [])) = true.
Proof.
  split; [vm_compute; reflexivity|].
  apply (compiled_handle_well_formed Reference.rt Reference.zeros "pow(2,x)-sin x"
                                     (Some [variable "x" 1]) 1 []).
  vm_compute. reflexivity.
Defined.

(** X3: constant folding is sound in every storage.  When every function
    flagged pure in a well-formed tree is independent of the caller's
    storage, the tree that [optimize] made while the storage was [m0]
    evaluates in any storage [m] to what the original tree evaluates to
    in [m]. *)
Theorem optimize_sound_in_every_storage
        (R : runtime) (m0 m : memory) (n : tx_expr) :
  well_formed n = true -> honest R n ->
  tx_eval R m (optimize R m0 n) = tx_eval R m n.
Proof. apply optimize_any_storage. Qed.

Lemma optimize_sound_in_every_storage_witness :
  well_formed cube_plus_x = true
  /\ honest Reference.rt cube_plus_x
  /\ tx_eval Reference.rt (store Reference.zeros 1 (5%float, 0%float))
             (optimize Reference.rt Reference.zeros cube_plus_x)
     = tx_eval Reference.rt (store Reference.zeros 1 (5%float, 0%float))
               cube_plus_x.
Proof.
  assert (H : honest Reference.rt cube_plus_x).
  { simpl. repeat split; intros _; apply builtin_storage_free; discriminate. }
  split; [reflexivity|]. split; [exact H|].
  apply (optimize_sound_in_every_storage
           Reference.rt Reference.zeros
           (store Reference.zeros 1 (5%float, 0%float)) cube_plus_x);
    [reflexivity | exact H].
Defined.

(** X4: for a text shorter than 2^31 bytes, the value stored through
    [error] when no handle is returned is -1 or an offset between 1 and
    the length of the text (1 for the empty text). *)
Theorem error_in_range
        (R : runtime) (m : memory) (expression : string)
        (variables : option (list tx_variable)) (var_count : Z) (h : list bool) :
  Z.of_nat (String.length expression) < 2 ^ 31 ->
  let r := tx_compile R m expression variables var_count h in
  handle r = NULL ->
  error_of r = -1
  \/ 1 <= error_of r <= Z.max 1 (Z.of_nat (String.length expression)).
Proof.
  intros Hl r Hn.
  destruct (tx_compile_cases R m expression variables var_count h)
    as (Ho & [(_ & _ & He) | [(_ & _ & _ & He) | (_ & _ & Hh & _)]]);
    fold r in Ho.
  - left. exact He.
  - right. fold r in He. rewrite He, (reported_small expression _ Ho Hl).
    destruct Ho as [Ho _]. lia.
  - fold r in Hh. rewrite Hn in Hh. discriminate.
Qed.

Lemma error_in_range_witness :
  Z.of_nat (String.length "1+") < 2 ^ 31
  /\ handle (tx_compile Reference.rt Reference.zeros "1+" None 0 []) = NULL
  /\ (error_of (tx_compile Reference.rt Reference.zeros "1+" None 0 []) = -1
      \/ 1 <= error_of (tx_compile Reference.rt Reference.zeros "1+" None 0 [])
         <= Z.max 1 (Z.of_nat (String.length "1+"))).
Proof.
  split; [vm_compute; reflexivity|]. split; [vm_compute; reflexivity|].
  apply (error_in_range Reference.rt Reference.zeros "1+" None 0 []);
    vm_compute; reflexivity.
Defined.

(** X5: the tokenizer never moves the cursor backwards, it consumes at
    least one byte whenever the token it reports is neither the end of the
    text, nor a malformed token, nor a real number, and it never leaves
    the token type unset. *)
Theorem tx_next_token_progress (s : state) :
  (String.length (next (tx_next_token s)) <= String.length (next s))%nat
  /\ (live (type (tx_next_token s)) = true ->
      (String.length (next (tx_next_token s)) < String.length (next s))%nat)
  /\ type (tx_next_token s) <> TOK_NULL.
Proof. apply tx_next_token_spec. Qed.

(** X6: the binary search of [find_builtin] is sound, and the table of
    builtins is sorted as the search needs it.  What the search returns
    is an entry of the table whose name is the whole lexeme, and every
    entry of the table is found by its own name. *)
Theorem find_builtin_finds_builtins :
  (forall name len fi,
      find_builtin name len = Some fi ->
      In fi functions /\ name_matches name len fi = true)
  /\ Forall (fun fi =>
               find_builtin (v_name fi) (String.length (v_name fi)) = Some fi)
            functions.
Proof. split; [exact find_builtin_sound | exact find_builtin_complete]. Qed.

(** * More properties of the optimizer and the evaluator *)

(** X7: on a well-formed tree the optimizer is idempotent; the tree it
    returns has no node left that it would fold (no node flagged pure
    whose children are all constants, along the paths it follows), and has
    no more nodes than the tree it was given. *)
Theorem optimize_is_idempotent (R : runtime) (m : memory) (n : tx_expr) :
  well_formed n = true ->
  optimize R m (optimize R m n) = optimize R m n
  /\ irreducible (optimize R m n) = true
  /\ (size (optimize R m n) <= size n)%nat.
Proof.
  intros H. split; [apply optimize_idempotent, H|].
  split; [apply optimize_irreducible, H | apply optimize_size, H].
Qed.

Lemma optimize_is_idempotent_witness :
  well_formed cube_plus_x = true
  /\ optimize Reference.rt Reference.zeros
              (optimize Reference.rt Reference.zeros cube_plus_x)
     = optimize Reference.rt Reference.zeros cube_plus_x
  /\ irreducible (optimize Reference.rt Reference.zeros cube_plus_x) = true
  /\ (size (optimize Reference.rt Reference.zeros cube_plus_x) <= size cube_plus_x)%nat.
Proof.
  split; [reflexivity|].
  apply (optimize_is_idempotent Reference.rt Reference.zeros cube_plus_x).
  reflexivity.
Defined.

(** X8: an evaluation reads the caller's storage at the addresses of the
    variable references it visits and nowhere else: when the functions it
    calls do not read the storage themselves, two storages that agree on
    those addresses give the same value. *)
Theorem tx_eval_reads_bound_addresses
        (R : runtime) (m1 m2 : memory) (n : tx_expr) :
  calls_storage_free R n ->
  (forall a, In a (read_set n) -> m1 a = m2 a) ->
  tx_eval R m1 n = tx_eval R m2 n.
Proof. apply tx_eval_frame. Qed.

Lemma tx_eval_reads_bound_addresses_witness :
  calls_storage_free Reference.rt cube_plus_x
  /\ (forall a, In a (read_set cube_plus_x) ->
                Reference.zeros a = store Reference.zeros 7 (5%float, 0%float) a)
  /\ tx_eval Reference.rt Reference.zeros cube_plus_x
     = tx_eval Reference.rt (store Reference.zeros 7 (5%float, 0%float)) cube_plus_x.
Proof.
  assert (H1 : calls_storage_free Reference.rt cube_plus_x).
  { simpl. repeat split; intros _;
      first [apply builtin_storage_free; discriminate | apply storage_free_null]. }
  assert (H2 : forall a, In a (read_set cube_plus_x) ->
                 Reference.zeros a = store Reference.zeros 7 (5%float, 0%float) a).
  { intros a [<-|[]]. reflexivity. }
  split; [exact H1|]. split; [exact H2|].
  apply (tx_eval_reads_bound_addresses
           Reference.rt Reference.zeros
           (store Reference.zeros 7 (5%float, 0%float)) cube_plus_x H1 H2).
Defined.

(** * More properties of the grammar *)

(** X9: every binary operator associates to the left.  From the world
    in which [factor] is entered, [power] reads a first operand; then,
    for as long as the current token is the operator [^], that token is
    passed and [power] reads a right operand from the text that follows.
    The tree returned is the first operand with the operators applied
    from the left, in the order of the text: each node has the tree so
    far as its left child and the operand read after its operator as its
    right child.  The same holds of [term] over [factor] with [*] and
    [/], of [expr] over [term] with [+] and [-], and of [list] over
    [expr] with the comma.  What an operand production returns from a
    world is unique, so the operands are determined by the text. *)
Theorem binary_operators_nest_left
        (fuel : nat) (w : world) (r : tx_expr) (w' : world) :
  is_null r = false ->
  (Grammar.factor fuel w = Some (r, w') ->
   folds_left is_pow s_function Grammar.power power_operator w r w')
  /\ (Grammar.term fuel w = Some (r, w') ->
      folds_left is_mul_div s_function Grammar.factor product_operator w r w')
  /\ (Grammar.expr fuel w = Some (r, w') ->
      folds_left is_sign s_function Grammar.term sum_operator w r w')
  /\ (Grammar.list fuel w = Some (r, w') ->
      folds_left is_sep (fun _ => P_fun f_comma) Grammar.expr comma_operator w r w')
  /\ single_valued Grammar.power /\ single_valued Grammar.factor
  /\ single_valued Grammar.term /\ single_valued Grammar.expr.
Proof.
  intros Hn. destruct (heads_read fuel w r w' Hn) as (H1 & H2 & H3 & H4).
  split; [exact H1|]. split; [exact H2|]. split; [exact H3|]. split; [exact H4|].
  exact operands_single_valued.
Qed.

Lemma binary_operators_nest_left_witness :
  let w := initial "8-3-2" None 0 [] in
  exists r w',
    Grammar.expr 40 w = Some (r, w')
    /\ r = binary f_sub (binary f_sub (constant 8) (constant 3)) (constant 2)
    /\ folds_left is_sign s_function Grammar.term sum_operator w r w'.
Proof.
  intros w.
  destruct (Grammar.expr 40 w) as [[r w']|] eqn:E; [|vm_compute in E; discriminate E].
  exists r, w'. split; [reflexivity|].
  assert (Er : r = binary f_sub (binary f_sub (constant 8) (constant 3)) (constant 2))
    by (vm_compute in E; injection E as <- _; reflexivity).
  split; [exact Er|].
  apply (proj1 (proj2 (proj2 (binary_operators_nest_left 40%nat w r w'
                                (f_equal is_null Er)))) E).
Defined.

(** * What compiled trees are made of *)

(** X10: every node of a handle that [tx_compile] returns is a constant,
    a reference to the address of a visible binding of kind variable, a
    call that has the type, the address and (for a closure) the context
    of a visible binding or of a builtin, or one of the operator nodes of
    the grammar.  The visible bindings are those that [find_lookup]
    scans: the first [var_count] entries of [variables], or every entry
    when [var_count] is negative. *)
Theorem compiled_nodes_come_from_bindings
        (R : runtime) (m0 : memory) (expression : string)
        (variables : option (list tx_variable)) (var_count : Z) (h : list bool) :
  made variables var_count
       (handle (tx_compile R m0 expression variables var_count h)).
Proof. apply tx_compile_made. Qed.

(** X11: constant expressions are folded completely.  When no binding is
    visible ([variables] is null or empty, or [var_count] is 0), an
    expression that compiles, compiles to a single constant node without
    children. *)
Theorem unbound_expression_compiles_to_constant
        (R : runtime) (m0 : memory) (expression : string)
        (variables : option (list tx_variable)) (var_count : Z) (h : list bool) :
  visible variables var_count = [] ->
  is_null (handle (tx_compile R m0 expression variables var_count h)) = false ->
  is_constant (handle (tx_compile R m0 expression variables var_count h)) = true
  /\ children (handle (tx_compile R m0 expression variables var_count h)) = [].
Proof. intros Hv Hn. apply tx_compile_closed; assumption. Qed.

Lemma unbound_expression_compiles_to_constant_witness :
  let r := tx_compile Reference.rt Reference.zeros "2*(3+4)^2-pow(2,3)" None 0 [] in
  visible None 0 = []
  /\ is_null (handle r) = false
  /\ is_constant (handle r) = true /\ children (handle r) = [].
Proof.
  split; [reflexivity|]. split; [vm_compute; reflexivity|].
  apply (unbound_expression_compiles_to_constant
           Reference.rt Reference.zeros "2*(3+4)^2-pow(2,3)" None 0 []);
    vm_compute; reflexivity.
Defined.

(** X12: [tx_interp] does not read the caller's storage: its value and
    the error it stores are the same whatever the storage holds. *)
Theorem tx_interp_ignores_storage
        (R : runtime) (m1 m2 : memory) (expression : string) (h : list bool) :
  tx_interp R m1 expression h = tx_interp R m2 expression h.
Proof. apply tx_interp_storage. Qed.

(** X13: [tx_interp] stores through [error] what [tx_compile] stores; it
    returns the real NaN whenever that is not 0, and the value of the
    compiled expression when it is 0. *)
Theorem tx_interp_nan_on_error
        (R : runtime) (m : memory) (expression : string) (h : list bool) :
  let r := tx_compile R m expression None 0 h in
  snd (tx_interp R m expression h) = error_of r
  /\ (error_of r <> 0 -> fst (tx_interp R m expression h) = cx_of_real NAN)
  /\ (error_of r = 0 ->
      is_null (handle r) = false
      /\ fst (tx_interp R m expression h) = tx_eval R m (handle r)).
Proof.
  intros r. unfold tx_interp. fold r.
  destruct (tx_compile_cases R m expression None 0 h)
    as (_ & [(_ & Hh & He) | [(_ & _ & Hh & He) | (_ & _ & Hh & He)]]);
    fold r in Hh, He; destruct r as [[n e] w];
    unfold handle, error_of, world_of in *; cbn [fst snd] in *.
  - subst n e. cbn [is_null].
    split; [reflexivity|]. split; [intros _; reflexivity | intros E; discriminate E].
  - subst n e. cbn [is_null].
    split; [reflexivity|]. split; [intros _; reflexivity|].
    intros E. destruct (reported_not_zero _ E).
  - rewrite Hh. subst e.
    split; [reflexivity|]. split; [intros H; destruct (H eq_refl)|].
    intros _. split; reflexivity.
Qed.

(** X14: the value of a compiled expression depends on the caller's
    storage at the addresses of the visible bindings of kind variable
    only, when the bound functions do not read the storage themselves. *)
Theorem compiled_expression_reads_its_variables
        (R : runtime) (m0 m1 m2 : memory) (expression : string)
        (variables : option (list tx_variable)) (var_count : Z) (h : list bool) :
  (forall var, In var (visible variables var_count) ->
               call_kind (v_type var) = true -> storage_free R (v_address var)) ->
  (forall var a, In var (visible variables var_count) ->
                 TYPE_MASK (v_type var) = TX_VARIABLE ->
                 v_address var = P_data a -> m1 a = m2 a) ->
  tx_eval R m1 (handle (tx_compile R m0 expression variables var_count h))
  = tx_eval R m2 (handle (tx_compile R m0 expression variables var_count h)).
Proof. intros Hb Hm. apply tx_compile_reads; assumption. Qed.

Lemma compiled_expression_reads_its_variables_witness :
  let vars := Some [variable "x" 1] in
  let m1 := store Reference.zeros 1 (2%float, 0%float) in
  let m2 := store m1 9 (7%float, 0%float) in
  (forall var, In var (visible vars 1) ->
               call_kind (v_type var) = true ->
               storage_free Reference.rt (v_address var))
  /\ (forall var a, In var (visible vars 1) ->
                    TYPE_MASK (v_type var) = TX_VARIABLE ->
                    v_address var = P_data a -> m1 a = m2 a)
  /\ tx_eval Reference.rt m1
             (handle (tx_compile Reference.rt Reference.zeros "x*x+1" vars 1 []))
     = tx_eval Reference.rt m2
               (handle (tx_compile Reference.rt Reference.zeros "x*x+1" vars 1 [])).
Proof.
  intros vars m1 m2.
  assert (H1 : forall var, In var (visible vars 1) ->
                 call_kind (v_type var) = true ->
                 storage_free Reference.rt (v_address var)).
  { intros var [<-|[]] H. discriminate H. }
  assert (H2 : forall var a, In var (visible vars 1) ->
                 TYPE_MASK (v_type var) = TX_VARIABLE ->
                 v_address var = P_data a -> m1 a = m2 a).
  { intros var a [<-|[]] _ E. injection E as <-. reflexivity. }
  split; [exact H1|]. split; [exact H2|].
  apply (compiled_expression_reads_its_variables
           Reference.rt Reference.zeros m1 m2 "x*x+1" vars 1 [] H1 H2).
Defined.

(** X15: when the bound functions that are flagged pure do not read the
    caller's storage, the result of [tx_compile] (the handle, the error
    and the final state) does not depend on what the storage holds at
    compile time. *)
Theorem tx_compile_ignores_storage
        (R : runtime) (m1 m2 : memory) (expression : string)
        (variables : option (list tx_variable)) (var_count : Z) (h : list bool) :
  (forall var, In var (visible variables var_count) ->
               call_kind (v_type var) = true -> IS_PURE (v_type var) = true ->
               storage_free R (v_address var)) ->
  tx_compile R m1 expression variables var_count h
  = tx_compile R m2 expression variables var_count h.
Proof. intros Hb. apply tx_compile_storage, Hb. Qed.

Lemma tx_compile_ignores_storage_witness :
  let vars := Some [variable "x" 1; impure_function "f" 1] in
  (forall var, In var (visible vars 2) ->
               call_kind (v_type var) = true -> IS_PURE (v_type var) = true ->
               storage_free Reference.rt (v_address var))
  /\ tx_compile Reference.rt Reference.zeros "f(x)+2*3" vars 2 []
     = tx_compile Reference.rt (store Reference.zeros 1 (2%float, 0%float))
                  "f(x)+2*3" vars 2 [].
Proof.
  intros vars.
  assert (H : forall var, In var (visible vars 2) ->
                call_kind (v_type var) = true -> IS_PURE (v_type var) = true ->
                storage_free Reference.rt (v_address var)).
  { intros var [<-|[<-|[]]] Hk Hp; [discriminate Hk | discriminate Hp]. }
  split; [exact H|].
  apply (tx_compile_ignores_storage
           Reference.rt Reference.zeros (store Reference.zeros 1 (2%float, 0%float))
           "f(x)+2*3" vars 2 [] H).
Defined.

(** * More properties of the tokenizer *)

(** X16: the tokenizer skips white space (space, tab, line feed,
    carriage return): the token read from a text that starts with white
    space, and the state after it, are those read from the text after the
    white space. *)
Theorem tx_next_token_skips_white_space (ws rest : string) (s : state) :
  all_space ws = true -> next s = (ws ++ rest)%string ->
  tx_next_token s = tx_next_token (move s rest).
Proof. apply tx_next_token_spaces. Qed.

Lemma tx_next_token_skips_white_space_witness :
  let s := mk_state 0 "  	+1" TOK_NULL tu_none P_null None 0 0 in
  all_space "  	" = true /\ next s = ("  	" ++ "+1")%string
  /\ tx_next_token s = tx_next_token (move s "+1").
Proof.
  intros s. split; [reflexivity|]. split; [reflexivity|].
  apply (tx_next_token_skips_white_space "  	" "+1" s); reflexivity.
Defined.

(** X17: an identifier that resolves to an entry whose type has neither
    the kind of a variable nor that of a function or closure yields no
    token: the tokenizer skips it like white space and goes on with the
    text after it. *)
Theorem tx_next_token_skips_other_kinds (s : state) (var : tx_variable) :
  isalpha (peek (next s)) = true ->
  resolve s (next s) (String.length (ident_prefix (next s))) = Some var ->
  TYPE_MASK (v_type var) <> TX_VARIABLE -> call_kind (v_type var) = false ->
  tx_next_token s = tx_next_token (move s (ident_end (next s))).
Proof. apply tx_next_token_skips. Qed.

Lemma tx_next_token_skips_other_kinds_witness :
  let k := mk_var "k" (P_data 1) TX_CONSTANT P_null in
  let s := mk_state 0 "k+1" TOK_NULL tu_none P_null (Some [k]) 1 0 in
  (isalpha (peek (next s)) = true
   /\ resolve s (next s) (String.length (ident_prefix (next s))) = Some k
   /\ TYPE_MASK (v_type k) <> TX_VARIABLE /\ call_kind (v_type k) = false)
  /\ tx_next_token s = tx_next_token (move s "+1")
  /\ type (tx_next_token s) = TOK_INFIX.
Proof.
  intros k s.
  split; [repeat split; try reflexivity; discriminate|].
  split; [|vm_compute; reflexivity].
  apply (tx_next_token_skips_other_kinds s k); try reflexivity; discriminate.
Defined.

(** X18: the parser reads the text through the tokenizer only.  Two
    texts (with their bindings) that give the same sequence of tokens,
    with the same allocator, compile to the same handle; both
    compilations succeed or both fail. *)
Theorem same_tokens_same_handle
        (R : runtime) (m : memory) (e1 e2 : string)
        (vars1 vars2 : option (list tx_variable)) (n1 n2 : Z) (h : list bool) :
  same_tokens (st (initial e1 vars1 n1 h)) (st (initial e2 vars2 n2 h)) ->
  let r1 := tx_compile R m e1 vars1 n1 h in
  let r2 := tx_compile R m e2 vars2 n2 h in
  handle r1 = handle r2
  /\ (error_of r1 = 0 <-> error_of r2 = 0)
  /\ oom (world_of r1) = oom (world_of r2).
Proof.
  intros H r1 r2.
  destruct (tx_compile_sim same_tokens same_tokens_observed same_tokens_next
              same_tokens_error R m e1 e2 vars1 vars2 n1 n2 h H)
    as (Hh & (_ & _ & Ho) & He).
  fold r1 r2 in Hh, Ho, He. split; [exact Hh|]. split; [|exact Ho].
  destruct He as [E|[E1 E2]]; [rewrite E; reflexivity|].
  rewrite E1, E2. split; intros E; destruct (reported_not_zero _ E).
Qed.

Lemma same_tokens_same_handle_witness :
  same_tokens (st (initial "1+x" (Some [variable "x" 1]) 1 []))
              (st (initial " 1+x" (Some [variable "x" 1]) 1 []))
  /\ handle (tx_compile Reference.rt Reference.zeros "1+x" (Some [variable "x" 1]) 1 [])
     = handle (tx_compile Reference.rt Reference.zeros " 1+x"
                          (Some [variable "x" 1]) 1 []).
Proof.
  assert (H : same_tokens (st (initial "1+x" (Some [variable "x" 1]) 1 []))
                          (st (initial " 1+x" (Some [variable "x" 1]) 1 []))).
  { change " 1+x" with (" " ++ "1+x")%string.
    rewrite (initial_spaces " " "1+x" (Some [variable "x" 1]) 1 [] eq_refl).
    apply shift_same_tokens. }
  split; [exact H|].
  apply (same_tokens_same_handle Reference.rt Reference.zeros "1+x" " 1+x"
           (Some [variable "x" 1]) (Some [variable "x" 1]) 1 1 [] H).
Defined.

(** X19: white space at the start of the text is ignored: the handle is
    the one of the text without it, success and failure are the same,
    and the tokenizer ends in the same state, its cursor further by the
    length of the white space (so that the offset stored after a syntax
    error is that much larger). *)
Theorem leading_white_space_is_ignored
        (R : runtime) (m : memory) (ws expression : string)
        (variables : option (list tx_variable)) (var_count : Z) (h : list bool) :
  all_space ws = true ->
  let r := tx_compile R m expression variables var_count h in
  let r' := tx_compile R m (ws ++ expression) variables var_count h in
  handle r' = handle r
  /\ st (world_of r') = shift (String.length ws) (st (world_of r))
  /\ (error_of r' = error_of r
      \/ (error_of r = reported (world_of r)
          /\ error_of r' = reported (world_of r'))).
Proof.
  intros Hws r r'.
  destruct (tx_compile_sim (fun s1 s2 => s2 = shift (String.length ws) s1))
    with (R := R) (m := m) (e1 := expression) (e2 := (ws ++ expression)%string)
         (vars1 := variables) (vars2 := variables) (n1 := var_count)
         (n2 := var_count) (h := h)
    as (Hh & (Hs & _ & _) & He).
  - intros s1 s2 ->. reflexivity.
  - intros s1 s2 ->. apply tx_next_token_shift.
  - intros s1 s2 ->. reflexivity.
  - apply initial_spaces, Hws.
  - fold r r' in Hh, Hs, He. split; [symmetry; exact Hh|]. split; [exact Hs|].
    destruct He as [E|[E1 E2]]; [left; symmetry; exact E | right; split; assumption].
Qed.

Lemma leading_white_space_is_ignored_witness :
  let r := tx_compile Reference.rt Reference.zeros "2+" None 0 [] in
  let r' := tx_compile Reference.rt Reference.zeros ("   " ++ "2+") None 0 [] in
  all_space "   " = true
  /\ (handle r' = handle r
      /\ st (world_of r') = shift 3 (st (world_of r))
      /\ (error_of r' = error_of r
          \/ (error_of r = reported (world_of r)
              /\ error_of r' = reported (world_of r'))))
  /\ error_of r = 2 /\ error_of r' = 5.
Proof.
  split; [reflexivity|]. split; [|vm_compute; split; reflexivity].
  apply (leading_white_space_is_ignored Reference.rt Reference.zeros "   " "2+"
           None 0 []).
  reflexivity.
Defined.

(** * Allocation and release *)

(** X20: [tx_compile] does not leak when no allocation fails: the nodes
    it allocated are as many as those it released before returning (the
    whole tree after a syntax error, the children of folded nodes
    otherwise) and those that [tx_free] releases from the handle; and
    [tx_interp], which releases the handle too, releases as many nodes as
    it allocated.  The allocator is given as the outcomes of the coming
    calls of [malloc], all successes here and more than are used, so that
    the calls made are those taken from the list. *)
Theorem tx_compile_releases_what_it_allocates
        (R : runtime) (m : memory) (expression : string)
        (variables : option (list tx_variable)) (var_count : Z) (h : list bool) :
  all_succeed h = true ->
  (0 < List.length
         (heap (world_of (tx_compile R m expression variables var_count h))))%nat ->
  let r := tx_compile R m expression variables var_count h in
  let allocated := (List.length h - List.length (heap (world_of r)))%nat in
  allocated
  = (List.length (tx_compile_releases R m expression variables var_count h)
     + List.length (tx_free (handle r)))%nat
  /\ (variables = None -> var_count = 0 ->
      allocated = List.length (tx_interp_releases R m expression h)).
Proof.
  intros Hs Hn r allocated.
  pose proof (tx_compile_allocation R m expression variables var_count h Hs Hn) as E.
  fold r in E. unfold frees in E. subst allocated. split; [lia|].
  intros -> ->. unfold tx_interp_releases. rewrite length_app.
  fold r. change (fst (fst r)) with (handle r). lia.
Qed.

Lemma tx_compile_releases_what_it_allocates_witness :
  let h := repeat true 12 in
  let r := tx_compile Reference.rt Reference.zeros "2*3+x)" (Some [variable "x" 1]) 1 h in
  all_succeed h = true
  /\ (0 < List.length (heap (world_of r)))%nat
  /\ (List.length h - List.length (heap (world_of r)))%nat
     = (List.length (tx_compile_releases Reference.rt Reference.zeros "2*3+x)"
                                         (Some [variable "x" 1]) 1 h)
        + List.length (tx_free (handle r)))%nat
  /\ (List.length h - List.length (heap (world_of r)))%nat = 5%nat.
Proof.
  intros h r. split; [reflexivity|]. split; [vm_compute; lia|].
  split; [|vm_compute; reflexivity].
  apply (proj1 (tx_compile_releases_what_it_allocates
                  Reference.rt Reference.zeros "2*3+x)" (Some [variable "x" 1]) 1 h
                  eq_refl ltac:(vm_compute; lia))).
Defined.

(** X21: [tx_free] releases one node for each node of a well-formed tree
    (the context of a closure is not among them), and the optimizer
    releases every node that it removes: the nodes of the tree before are
    as many as those that the optimizer releases and those of the tree
    after. *)
Theorem optimize_releases_what_it_removes
        (R : runtime) (m : memory) (n : tx_expr) :
  well_formed n = true ->
  List.length (tx_free n) = size n
  /\ (size (optimize R m n) + List.length (optimize_releases R m n) = size n)%nat.
Proof.
  intros H. pose proof (frees_size n H) as E1.
  pose proof (frees_size _ (optimize_well_formed R m n H)) as E2.
  pose proof (optimize_releases_count R m n H) as E3.
  unfold frees in *. split; [exact E1 | lia].
Qed.

Lemma optimize_releases_what_it_removes_witness :
  well_formed cube_plus_x = true
  /\ List.length (tx_free cube_plus_x) = size cube_plus_x
  /\ (size (optimize Reference.rt Reference.zeros cube_plus_x)
      + List.length (optimize_releases Reference.rt Reference.zeros cube_plus_x)
      = size cube_plus_x)%nat.
Proof.
  split; [reflexivity|].
  apply (optimize_releases_what_it_removes Reference.rt Reference.zeros cube_plus_x).
  reflexivity.
Defined.

(** * The bindings *)

(** X22: [tx_compile] reads the first [var_count] bindings and no others:
    two arrays of bindings that agree on those (none when [variables] is
    null) give the same handle and the same error. *)
Theorem only_visible_bindings_matter
        (R : runtime) (m : memory) (expression : string)
        (vars1 vars2 : option (list tx_variable)) (n1 n2 : Z) (h : list bool) :
  in_bounds vars1 n1 -> in_bounds vars2 n2 ->
  visible vars1 n1 = visible vars2 n2 ->
  handle (tx_compile R m expression vars1 n1 h)
  = handle (tx_compile R m expression vars2 n2 h)
  /\ error_of (tx_compile R m expression vars1 n1 h)
     = error_of (tx_compile R m expression vars2 n2 h).
Proof. intros _ _. apply tx_compile_visible. Qed.

Lemma only_visible_bindings_matter_witness :
  let vars1 := Some [variable "x" 1; variable "y" 2] in
  let vars2 := Some [variable "x" 1] in
  (in_bounds vars1 1 /\ in_bounds vars2 1 /\ visible vars1 1 = visible vars2 1)
  /\ handle (tx_compile Reference.rt Reference.zeros "x+y" vars1 1 [])
     = handle (tx_compile Reference.rt Reference.zeros "x+y" vars2 1 [])
  /\ error_of (tx_compile Reference.rt Reference.zeros "x+y" vars1 1 [])
     = error_of (tx_compile Reference.rt Reference.zeros "x+y" vars2 1 []).
Proof.
  intros vars1 vars2.
  split; [split; [simpl; lia | split; [simpl; lia | reflexivity]]|].
  apply (only_visible_bindings_matter Reference.rt Reference.zeros "x+y"
           vars1 vars2 1 1 []); [simpl; lia | simpl; lia | reflexivity].
Defined.

(** * Where the parser stops *)

(** X23: the parser does not read past the end of the text or past an
    error.  Entered with the current token [TOK_END] or [TOK_ERROR],
    each of [base], [power], [factor], [term], [expr] and [list] returns
    with the cursor where it was and with [TOK_ERROR] (or, after a failure
    of [malloc], with no node and the token still one of the two).  So a
    text whose
    first token is one of these does not compile, and the offset stored
    is the cursor after that token. *)
Theorem parser_stops_at_end_and_error
        (fuel : nat) (w : world) (r : tx_expr) (w' : world) :
  stops (st w) = true ->
  (Grammar.base fuel w = Some (r, w') \/ Grammar.power fuel w = Some (r, w')
   \/ Grammar.factor fuel w = Some (r, w') \/ Grammar.term fuel w = Some (r, w')
   \/ Grammar.expr fuel w = Some (r, w') \/ Grammar.list fuel w = Some (r, w')) ->
  (next_off (st w') = next_off (st w) /\ next (st w') = next (st w)
   /\ stops (st w') = true
   /\ (is_null r = false -> type (st w') = TOK_ERROR))
  /\ (forall R m expression variables var_count h,
        w = initial expression variables var_count h ->
        let c := tx_compile R m expression variables var_count h in
        handle c = NULL
        /\ (oom (world_of c) = false -> error_of c = reported w)).
Proof.
  intros Hw E.
  destruct (parser_stopped fuel) as (Hb & Hp & Hf & Ht & He & Hl).
  split.
  - destruct E as [E|[E|[E|[E|[E|E]]]]].
    + exact (wp_run _ _ _ _ _ (Hb w Hw) E).
    + exact (wp_run _ _ _ _ _ (Hp w Hw) E).
    + exact (wp_run _ _ _ _ _ (Hf w Hw) E).
    + exact (wp_run _ _ _ _ _ (Ht w Hw) E).
    + exact (wp_run _ _ _ _ _ (He w Hw) E).
    + exact (wp_run _ _ _ _ _ (Hl w Hw) E).
  - intros R m expression variables var_count h -> c.
    destruct (tx_compile_parse R m expression variables var_count h (fun _ => True))
      as (root & w1 & El & Ec & _ & Ho); auto.
    destruct (parser_stopped (fuel_for expression)) as (_ & _ & _ & _ & _ & Hl').
    pose proof (wp_run _ _ _ _ _ (Hl' _ Hw) El) as (H1 & _ & _ & H4).
    subst c. rewrite Ec. unfold finish.
    destruct (is_null root) eqn:En.
    + split; [reflexivity|]. cbn [world_of snd]. rewrite Ho. discriminate.
    + rewrite (H4 eq_refl). cbn [negb Z.eqb Pos.eqb handle error_of world_of fst snd].
      split; [reflexivity|]. intros _. unfold reported. rewrite H1. reflexivity.
Qed.

Lemma parser_stops_at_end_and_error_witness :
  let w := initial "  #2" None 0 [] in
  stops (st w) = true
  /\ exists r w',
      Grammar.list 12 w = Some (r, w')
      /\ (next_off (st w') = next_off (st w) /\ next (st w') = next (st w)
          /\ stops (st w') = true
          /\ (is_null r = false -> type (st w') = TOK_ERROR))
      /\ handle (tx_compile Reference.rt Reference.zeros "  #2" None 0 []) = NULL
      /\ error_of (tx_compile Reference.rt Reference.zeros "  #2" None 0 []) = 3.
Proof.
  intros w. split; [vm_compute; reflexivity|].
  destruct (Grammar.list 12 w) as [[r w']|] eqn:E; [|vm_compute in E; discriminate E].
  exists r, w'. split; [reflexivity|].
  destruct (parser_stops_at_end_and_error 12 w r w') as [H1 H2];
    [vm_compute; reflexivity | repeat right; exact E|].
  split; [exact H1|].
  split; [apply (H2 Reference.rt Reference.zeros "  #2" None 0 [] eq_refl)|].
  vm_compute. reflexivity.
Defined.

(** X24: a handle is returned only when the whole text has been read:
    the current token is [TOK_END] and the cursor stands at the
    terminating NUL, the bytes before it and those from it on making up
    the text. *)
Theorem handle_means_whole_text_read
        (R : runtime) (m : memory) (expression : string)
        (variables : option (list tx_variable)) (var_count : Z) (h : list bool) :
  is_null (handle (tx_compile R m expression variables var_count h)) = false ->
  let s := st (world_of (tx_compile R m expression variables var_count h)) in
  type s = TOK_END /\ peek (next s) = NUL
  /\ (next_off s + String.length (next s) = String.length expression)%nat.
Proof. intros H. apply tx_compile_at_end, H. Qed.

Lemma handle_means_whole_text_read_witness :
  let r := tx_compile Reference.rt Reference.zeros "(1+2)*3 " None 0 [] in
  is_null (handle r) = false
  /\ type (st (world_of r)) = TOK_END /\ peek (next (st (world_of r))) = NUL
  /\ (next_off (st (world_of r)) + String.length (next (st (world_of r)))
      = String.length "(1+2)*3 ")%nat.
Proof.
  split; [vm_compute; reflexivity|].
  apply (handle_means_whole_text_read Reference.rt Reference.zeros "(1+2)*3 " None 0 []).
  vm_compute. reflexivity.
Defined.
